(** * PDF_2_Excel: the outline parser and the hierarchy merge engine

    A shallow embedding of [main_app.py]: the five line patterns, the
    line loop of [parse_text_to_excel_with_merging], the nested
    [merge_consecutive_cells] and the two exposed entry points, followed
    by the properties of the outline format that the code guarantees. *)

From Stdlib Require Import String Ascii List NArith PeanoNat Bool Lia Sorted.
Import ListNotations.

(** ** Python strings *)

(** A Python [str] is a sequence of Unicode code points. *)
Module Py.

Definition char := N.
Definition str := list char.

Definition NL : char := 0x0A%N.
Definition TAB : char := 0x09%N.
Definition SPACE : char := 0x20%N.
Definition DOT : char := 0x2E%N.

(** Code points of an ASCII literal. *)
Definition lit (s : string) : str := map N_of_ascii (list_ascii_of_string s).
Arguments lit s%_string.

Definition in_ranges (t : list (N * N)) (c : char) : bool :=
  existsb (fun r => (fst r <=? c)%N && (c <=? snd r)%N) t.

(** [Py_UNICODE_ISSPACE]: the characters [str.strip()] removes and the
    class [\s] of a [str] pattern. *)
Definition whitespace_table : list (N * N) :=
  [ (0x09, 0x0D); (0x1C, 0x20); (0x85, 0x85); (0xA0, 0xA0);
    (0x1680, 0x1680); (0x2000, 0x200A); (0x2028, 0x2029);
    (0x202F, 0x202F); (0x205F, 0x205F); (0x3000, 0x3000) ]%N.

Definition isspace (c : char) : bool := in_ranges whitespace_table c.

(** [Py_UNICODE_ISDECIMAL]: the class [\d] of a [str] pattern, the
    characters of general category Nd (Unicode 14.0.0). *)
Definition decimal_table : list (N * N) :=
  [ (0x30, 0x39); (0x660, 0x669); (0x6F0, 0x6F9); (0x7C0, 0x7C9);
    (0x966, 0x96F); (0x9E6, 0x9EF); (0xA66, 0xA6F); (0xAE6, 0xAEF);
    (0xB66, 0xB6F); (0xBE6, 0xBEF); (0xC66, 0xC6F); (0xCE6, 0xCEF);
    (0xD66, 0xD6F); (0xDE6, 0xDEF); (0xE50, 0xE59); (0xED0, 0xED9);
    (0xF20, 0xF29); (0x1040, 0x1049); (0x1090, 0x1099); (0x17E0, 0x17E9);
    (0x1810, 0x1819); (0x1946, 0x194F); (0x19D0, 0x19D9); (0x1A80, 0x1A89);
    (0x1A90, 0x1A99); (0x1B50, 0x1B59); (0x1BB0, 0x1BB9); (0x1C40, 0x1C49);
    (0x1C50, 0x1C59); (0xA620, 0xA629); (0xA8D0, 0xA8D9); (0xA900, 0xA909);
    (0xA9D0, 0xA9D9); (0xA9F0, 0xA9F9); (0xAA50, 0xAA59); (0xABF0, 0xABF9);
    (0xFF10, 0xFF19); (0x104A0, 0x104A9); (0x10D30, 0x10D39);
    (0x11066, 0x1106F); (0x110F0, 0x110F9); (0x11136, 0x1113F);
    (0x111D0, 0x111D9); (0x112F0, 0x112F9); (0x11450, 0x11459);
    (0x114D0, 0x114D9); (0x11650, 0x11659); (0x116C0, 0x116C9);
    (0x11730, 0x11739); (0x118E0, 0x118E9); (0x11950, 0x11959);
    (0x11C50, 0x11C59); (0x11D50, 0x11D59); (0x11DA0, 0x11DA9);
    (0x16A60, 0x16A69); (0x16AC0, 0x16AC9); (0x16B50, 0x16B59);
    (0x1D7CE, 0x1D7FF); (0x1E140, 0x1E149); (0x1E2F0, 0x1E2F9);
    (0x1E950, 0x1E959); (0x1FBF0, 0x1FBF9) ]%N.

Definition isdecimal (c : char) : bool := in_ranges decimal_table c.

Arguments isspace : simpl never.
Arguments isdecimal : simpl never.

Fixpoint str_eqb (a b : str) : bool :=
  match a, b with
  | [], [] => true
  | x :: a', y :: b' => (x =? y)%N && str_eqb a' b'
  | _, _ => false
  end.

(** [s.lstrip()], [s.rstrip()] and [s.strip()] without arguments. *)
Fixpoint lstrip (s : str) : str :=
  match s with
  | c :: s' => if isspace c then lstrip s' else s
  | [] => []
  end.

Definition rstrip (s : str) : str := rev (lstrip (rev s)).

Definition strip (s : str) : str := rstrip (lstrip s).

(** [s.split(sep)] for a one-character separator: never an empty list,
    the empty string gives one empty piece. *)
Fixpoint split (sep : char) (s : str) : list str :=
  match s with
  | [] => [[]]
  | c :: s' =>
      if (c =? sep)%N then [] :: split sep s'
      else match split sep s' with
           | l :: ls => (c :: l) :: ls
           | [] => [[c]]
           end
  end.

End Py.

Import Py.

(** ** The fragment of [re] the patterns are written in *)

(** A backtracking matcher for the constructs that occur in the five
    patterns, all compiled with [re.MULTILINE]: anchors, character
    classes, greedy repetition of a class, greedy optional groups and
    capturing groups. *)
Module Re.

Inductive regex : Type :=
| Bol                         (* ^ : start of text or just after a newline *)
| Eol                         (* $ : end of text or just before a newline *)
| Cls (p : char -> bool)      (* one character of a class *)
| Star (p : char -> bool)     (* class*, greedy *)
| Plus (p : char -> bool)     (* class+, greedy *)
| Cat (r1 r2 : regex)
| Opt (r : regex)             (* (?:r)?, greedy *)
| Grp (n : nat) (r : regex).  (* capturing group number n *)

(** The classes. *)
Definition cls_s : char -> bool := isspace.                       (* \s *)
Definition cls_d : char -> bool := isdecimal.                     (* \d *)
Definition cls_any : char -> bool := fun c => negb (c =? NL)%N.    (* .  *)
Definition cls_chr (x : char) : char -> bool := fun c => (c =? x)%N.
Definition cls_set (xs : list char) : char -> bool :=
  fun c => existsb (fun x => (c =? x)%N) xs.

Definition groups := list (nat * str).

(** What is left to match: the character before the cursor, the text
    after it, the groups closed so far. *)
Definition cont := option char -> str -> groups -> option groups.

Fixpoint star (p : char -> bool) (prev : option char) (s : str)
         (g : groups) (k : cont) : option groups :=
  match s with
  | c :: s' =>
      if p c then
        match star p (Some c) s' g k with
        | Some m => Some m
        | None => k prev s g
        end
      else k prev s g
  | [] => k prev s g
  end.

Fixpoint run (r : regex) (prev : option char) (s : str) (g : groups)
         (k : cont) : option groups :=
  match r with
  | Bol =>
      match prev with
      | None => k prev s g
      | Some c => if (c =? NL)%N then k prev s g else None
      end
  | Eol =>
      match s with
      | [] => k prev s g
      | c :: _ => if (c =? NL)%N then k prev s g else None
      end
  | Cls p =>
      match s with
      | c :: s' => if p c then k (Some c) s' g else None
      | [] => None
      end
  | Star p => star p prev s g k
  | Plus p =>
      match s with
      | c :: s' => if p c then star p (Some c) s' g k else None
      | [] => None
      end
  | Cat r1 r2 => run r1 prev s g (fun prev' s' g' => run r2 prev' s' g' k)
  | Opt r' =>
      match run r' prev s g k with
      | Some m => Some m
      | None => k prev s g
      end
  | Grp n r' =>
      run r' prev s g
          (fun prev' s' g' =>
             k prev' s' ((n, firstn (length s - length s') s) :: g'))
  end.

(** [pattern.match(s)]: anchored at position 0, the rest of [s] is free. *)
Definition rmatch (r : regex) (s : str) : option groups :=
  run r None s [] (fun _ _ g => Some g).

(** [m.group(n)] *)
Fixpoint group (n : nat) (g : groups) : str :=
  match g with
  | (i, t) :: g' => if Nat.eqb i n then t else group n g'
  | [] => []
  end.

Fixpoint cats (rs : list regex) : regex :=
  match rs with
  | [] => Star (fun _ => false)
  | [r] => r
  | r :: rs' => Cat r (cats rs')
  end.

End Re.

Import Re.

(** ** The patterns of [parse_text_to_excel_with_merging] *)

(** [^\s*(\d+(?:\s+.+)?)$] *)
Definition pattern_level1 : regex :=
  cats [Bol; Star cls_s;
        Grp 1 (cats [Plus cls_d; Opt (cats [Plus cls_s; Plus cls_any])]);
        Eol].

(** [^\s*(\d+\.\d+(?:\s+.+)?)$] *)
Definition pattern_level2 : regex :=
  cats [Bol; Star cls_s;
        Grp 1 (cats [Plus cls_d; Cls (cls_chr DOT); Plus cls_d;
                     Opt (cats [Plus cls_s; Plus cls_any])]);
        Eol].

(** [^\s*(\d+\.\d+\.\d+(?:\s+.+)?)$] *)
Definition pattern_level3 : regex :=
  cats [Bol; Star cls_s;
        Grp 1 (cats [Plus cls_d; Cls (cls_chr DOT); Plus cls_d;
                     Cls (cls_chr DOT); Plus cls_d;
                     Opt (cats [Plus cls_s; Plus cls_any])]);
        Eol].

(** [^\s*(\d+)\.\s+(.+)$] *)
Definition pattern_list_item : regex :=
  cats [Bol; Star cls_s; Grp 1 (Plus cls_d); Cls (cls_chr DOT);
        Plus cls_s; Grp 2 (Plus cls_any); Eol].

(** The bullet glyphs: U+2022, U+2023, U+25CF, U+F0B7, [*], [-], U+00B7. *)
Definition bullet_glyphs : list char :=
  [0x2022; 0x2023; 0x25CF; 0xF0B7; 0x2A; 0x2D; 0xB7]%N.

(** [^[ \t]*[•‣●\*\-·]\s*(.+)$] *)
Definition pattern_bullet_item : regex :=
  cats [Bol; Star (cls_set [SPACE; TAB]); Cls (cls_set bullet_glyphs);
        Star cls_s; Grp 1 (Plus cls_any); Eol].

(** ** The line loop *)

(** One entry of [parsed_data]. *)
Record row : Type := mkRow {
  level1 : str;
  level2 : str;
  level3 : str;
  item_no : str;
  item_desc : str
}.

(** The dictionary held in [current_list_item_buffer]. *)
Record item : Type := mkItem {
  number : str;
  description : str
}.

(** The variables the loop reads and writes. *)
Record locals : Type := mkLocals {
  parsed_data : list row;
  current_level1 : str;
  current_level2 : str;
  current_level3 : str;
  current_list_item_buffer : option item
}.

Definition BULLET : str := [0x2022%N].

(** The row a buffered item is written as: the headings of the moment
    and the stripped description. *)
Definition item_row (st : locals) (it : item) : row :=
  mkRow (current_level1 st) (current_level2 st) (current_level3 st)
        (number it) (strip (description it)).

(** [parsed_data.append(...)] of the buffered item, when there is one. *)
Definition append_buffered (st : locals) : list row :=
  match current_list_item_buffer st with
  | Some it => parsed_data st ++ [item_row st it]
  | None => parsed_data st
  end.

(** [if current_list_item_buffer: parsed_data.append(...);
     current_list_item_buffer = None] *)
Definition finalize (st : locals) : locals :=
  mkLocals (append_buffered st) (current_level1 st) (current_level2 st)
           (current_level3 st) None.

Definition truthy {A} (m : option A) : bool :=
  match m with Some _ => true | None => false end.

(** The body of [for line_num, raw_line in enumerate(lines, 1)]. *)
Definition loop_body (st : locals) (raw_line : str) : locals :=
  let line := strip raw_line in
  match line with
  | [] => finalize st
  | _ :: _ =>
      let match_level1 := rmatch pattern_level1 line in
      let match_level2 := rmatch pattern_level2 line in
      let match_level3 := rmatch pattern_level3 line in
      let match_list_item := rmatch pattern_list_item line in
      let match_bullet_item := rmatch pattern_bullet_item raw_line in
      let st :=
        if truthy (current_list_item_buffer st)
           && (truthy match_level1 || truthy match_level2
               || truthy match_level3 || truthy match_list_item
               || truthy match_bullet_item)
        then finalize st else st in
      match match_level1 with
      | Some m =>
          let l1 := group 1 m in
          mkLocals (parsed_data st ++ [mkRow l1 [] [] [] []])
                   l1 [] [] (current_list_item_buffer st)
      | None =>
      match match_level2 with
      | Some m =>
          let l2 := group 1 m in
          mkLocals (parsed_data st ++ [mkRow (current_level1 st) l2 [] [] []])
                   (current_level1 st) l2 [] (current_list_item_buffer st)
      | None =>
      match match_level3 with
      | Some m =>
          let l3 := group 1 m in
          mkLocals (parsed_data st ++
                      [mkRow (current_level1 st) (current_level2 st) l3 [] []])
                   (current_level1 st) (current_level2 st) l3
                   (current_list_item_buffer st)
      | None =>
      match match_list_item with
      | Some m =>
          mkLocals (append_buffered st)
                   (current_level1 st) (current_level2 st) (current_level3 st)
                   (Some (mkItem (group 1 m) (group 2 m)))
      | None =>
      match match_bullet_item with
      | Some m =>
          mkLocals (append_buffered st)
                   (current_level1 st) (current_level2 st) (current_level3 st)
                   (Some (mkItem BULLET (group 1 m)))
      | None =>
          match current_list_item_buffer st with
          | Some it =>
              mkLocals (parsed_data st)
                       (current_level1 st) (current_level2 st)
                       (current_level3 st)
                       (Some (mkItem (number it)
                                     (description it ++ [SPACE] ++ line)))
          | None => st
          end
      end end end end end
  end.

Definition initial : locals := mkLocals [] [] [] [] None.

(** The loop over [pdf_text.split('\n')]. *)
Definition run_lines (st : locals) (lines : list str) : locals :=
  fold_left loop_body lines st.

(** [parsed_data] as it stands when the sheet is filled: the loop, then
    the buffered item that is left. *)
Definition parse_rows (pdf_text : str) : list row :=
  append_buffered (run_lines initial (split NL pdf_text)).

(** ** Exceptions *)

(** A call either returns or raises an exception, of which only the
    message [str(e)] is ever read. *)
Inductive outcome (A : Type) : Type :=
| Returned (a : A)
| Raised (e : str).

Arguments Returned {A} a.
Arguments Raised {A} e.

Definition bind {A B} (o : outcome A) (f : A -> outcome B) : outcome B :=
  match o with
  | Returned a => f a
  | Raised e => Raised e
  end.

Notation "x <- o ;; k" := (bind o (fun x => k))
  (at level 61, o at next level, right associativity).

(** ** The worksheet *)

(** The part of openpyxl the program drives: cell values, [append],
    [max_row], [cell(...).value] and [merge_cells]. Styles, column
    widths and row heights change neither values nor merged ranges and
    are left out. *)
Module Openpyxl.

(** A cell holds text or nothing ([None]: a cell never written, or the
    placeholder that replaces a cell swallowed by a merge). *)
Definition value := option str.

(** A merged range [<col><start>:<col><end>] of one column. *)
Record cell_range : Type := mkRange {
  range_col : nat;
  range_start : nat;
  range_end : nat
}.

Record worksheet : Type := mkSheet {
  cells : list (list value);
  merged_cells : list cell_range
}.

Definition Workbook_active : worksheet := mkSheet [] [].

(** The characters a worksheet refuses in text. *)
Definition illegal_character (c : char) : bool :=
  in_ranges [(0x00, 0x08); (0x0B, 0x0C); (0x0E, 0x1F)]%N c.

Definition max_length : nat := N.to_nat 32767.

Definition cannot_be_used : str := lit " cannot be used in worksheets.".

(** What a text cell keeps of the string bound to it: at most 32767
    characters, and [IllegalCharacterError] on a control character. *)
Definition check_string (v : str) : outcome str :=
  let v := firstn max_length v in
  if existsb illegal_character v then Raised (v ++ cannot_be_used)
  else Returned v.

Fixpoint bind_values (vs : list str) : outcome (list value) :=
  match vs with
  | [] => Returned []
  | v :: vs' =>
      v' <- check_string v ;;
      r <- bind_values vs' ;;
      Returned (Some v' :: r)
  end.

(** [sheet.append(values)]: a new row below the last one. *)
Definition append (ws : worksheet) (vs : list str) : outcome worksheet :=
  r <- bind_values vs ;;
  Returned (mkSheet (cells ws ++ [r]) (merged_cells ws)).

(** [sheet.max_row] *)
Definition max_row (ws : worksheet) : nat := Nat.max 1 (length (cells ws)).

(** [sheet.cell(row=r, column=c).value], rows and columns from 1. *)
Definition cell_value (ws : worksheet) (r c : nat) : value :=
  match r, c with
  | S r', S c' =>
      match nth_error (cells ws) r' with
      | Some cs =>
          match nth_error cs c' with
          | Some v => v
          | None => None
          end
      | None => None
      end
  | _, _ => None
  end.

Fixpoint set_nth {A} (n : nat) (x : A) (l : list A) : list A :=
  match n, l with
  | _, [] => []
  | O, _ :: l' => x :: l'
  | S n', y :: l' => y :: set_nth n' x l'
  end.

(** The cell of column [c] in the row at list index [i] becomes a
    placeholder when [start < row <= end]. *)
Fixpoint clear_below (c start_ end_ : nat) (i : nat)
         (rows : list (list value)) : list (list value) :=
  match rows with
  | [] => []
  | cs :: rows' =>
      (if (start_ <? S i) && (S i <=? end_)
       then set_nth (c - 1) None cs else cs)
      :: clear_below c start_ end_ (S i) rows'
  end.

(** [sheet.merge_cells("<col><start>:<col><end>")]: the range is
    recorded and every cell of it but the top one loses its value. *)
Definition merge_cells (ws : worksheet) (c start_ end_ : nat) : worksheet :=
  mkSheet (clear_below c start_ end_ 0 (cells ws))
          (merged_cells ws ++ [mkRange c start_ end_]).

End Openpyxl.

Import Openpyxl.

(** ** [merge_consecutive_cells] *)

(** The variables of the scan: the sheet being merged, [current_value]
    and [start_row]. *)
Record scan : Type := mkScan {
  sheet : worksheet;
  current_value : option str;
  start_row : option nat
}.

(** [cell_value and str(cell_value).strip()] *)
Definition has_text (v : value) : bool :=
  match v with
  | Some t =>
      match t with
      | [] => false
      | _ :: _ => match strip t with [] => false | _ :: _ => true end
      end
  | None => false
  end.

(** [current_value != cell_value], for a [cell_value] that is text. *)
Definition differs (cur : option str) (t : str) : bool :=
  match cur with
  | Some u => negb (str_eqb u t)
  | None => true
  end.

(** [if start_row and start_row < last: sheet.merge_cells(...)] for the
    range from [start_row] to [last]; [last] is [row_num - 1] inside the
    loop and [sheet.max_row] after it. *)
Definition close_run (column_index : nat) (sc : scan) (last : nat)
  : worksheet :=
  match start_row sc with
  | Some s =>
      if negb (s =? 0) && (s <? last)
      then merge_cells (sheet sc) column_index s last
      else sheet sc
  | None => sheet sc
  end.

(** The body of [for row_num in range(2, sheet.max_row + 1)]. *)
Definition merge_row (column_index : nat) (sc : scan) (row_num : nat)
  : scan :=
  let v := cell_value (sheet sc) row_num column_index in
  if has_text v then
    match v with
    | Some t =>
        if differs (current_value sc) t
        then mkScan (close_run column_index sc (row_num - 1))
                    (Some t) (Some row_num)
        else sc
    | None => sc
    end
  else mkScan (close_run column_index sc (row_num - 1)) None None.

Definition merge_consecutive_cells (column_index : nat) (ws : worksheet)
  : worksheet :=
  if max_row ws <? 2 then ws
  else
    let sc := fold_left (merge_row column_index)
                        (seq 2 (max_row ws + 1 - 2))
                        (mkScan ws None None) in
    close_run column_index sc (max_row (sheet sc)).

(** ** [parse_text_to_excel_with_merging] *)

Definition headers : list str :=
  [lit "Level 1 Heading"; lit "Level 2 Heading"; lit "Level 3 Heading";
   lit "List Item No."; lit "List Item Description"].

Definition row_values (r : row) : list str :=
  [level1 r; level2 r; level3 r; item_no r; item_desc r].

Fixpoint append_all (ws : worksheet) (rs : list row) : outcome worksheet :=
  match rs with
  | [] => Returned ws
  | r :: rs' => ws' <- append ws (row_values r) ;; append_all ws' rs'
  end.

(** The sheet once the header and every row of [parsed_data] are
    written, before any merge. *)
Definition filled_sheet (pdf_text : str) : outcome worksheet :=
  ws <- append Workbook_active headers ;;
  append_all ws (parse_rows pdf_text).

Definition merge_headings (ws : worksheet) : worksheet :=
  merge_consecutive_cells 3
    (merge_consecutive_cells 2 (merge_consecutive_cells 1 ws)).

(** The workbook that is saved to the buffer the function returns. *)
Definition parse_text_to_excel_with_merging (pdf_text : str)
  : outcome worksheet :=
  ws <- filled_sheet pdf_text ;;
  Returned (merge_headings ws).

(** ** The exposed entry points *)

(** What [parse_pdf_data_to_excel_eel] hands back to the caller. *)
Inductive reply : Type :=
| Error (error : str)
| Success (excel_data_base64 : str) (filename : str).

Section Boundary.

(** The collaborators: whether PyMuPDF was imported, base64 decoding,
    the page texts as PyMuPDF and as PyPDF2 read them, and the saved
    workbook in base64. *)
Variable PYMUPDF_AVAILABLE : bool.
Variable b64decode : str -> outcome str.
Variable fitz_text : str -> outcome str.
Variable pypdf2_text : str -> outcome str.
Variable save_b64 : worksheet -> str.

Definition AUTO : str := lit "auto".
Definition PYMUPDF : str := lit "pymupdf".
Definition PYPDF2 : str := lit "pypdf2".

(** The [try] block: the method as it stands when the block is left,
    and how it is left. *)
Definition try_extract (pdf_data_base64 method : str) : str * outcome str :=
  match b64decode pdf_data_base64 with
  | Raised e => (method, Raised e)
  | Returned pdf_bytes =>
      let method :=
        if str_eqb method AUTO
        then (if PYMUPDF_AVAILABLE then PYMUPDF else PYPDF2)
        else method in
      if str_eqb method PYMUPDF && PYMUPDF_AVAILABLE
      then (method, fitz_text pdf_bytes)
      else if str_eqb method PYPDF2 || negb PYMUPDF_AVAILABLE
      then (method, pypdf2_text pdf_bytes)
      else (method, Returned [])
  end.

(** [extract_text_from_pdf_eel], with a bound on the depth of its
    recursion ([None]: the bound was reached). *)
Fixpoint extract_text_from_pdf_eel (depth : nat)
         (pdf_data_base64 method : str) : option (outcome str) :=
  match depth with
  | O => None
  | S depth' =>
      match try_extract pdf_data_base64 method with
      | (_, Returned text) => Some (Returned text)
      | (method', Raised e) =>
          if str_eqb method' PYMUPDF && PYMUPDF_AVAILABLE
          then extract_text_from_pdf_eel depth' pdf_data_base64 PYPDF2
          else Some (Raised (lit "Failed to extract text from PDF: " ++ e))
      end
  end.

Definition NO_TEXT : str :=
  lit "No text could be extracted from the PDF data.".

(** [parse_pdf_data_to_excel_eel] *)
Definition parse_pdf_data_to_excel_eel (depth : nat)
           (pdf_data_base64 original_filename : str)
  : option (outcome reply) :=
  match extract_text_from_pdf_eel depth pdf_data_base64 AUTO with
  | None => None
  | Some (Raised e) => Some (Returned (Error e))
  | Some (Returned pdf_text) =>
      match strip pdf_text with
      | [] => Some (Returned (Error NO_TEXT))
      | _ :: _ =>
          Some (excel_buffer <- parse_text_to_excel_with_merging pdf_text ;;
                Returned (Success (save_b64 excel_buffer) original_filename))
      end
  end.

End Boundary.

(** ** The outline state machine *)

(** The branch of the loop body a line takes, with the texts the branch
    reads from its match. *)
Inductive line_class : Type :=
| Blank
| Heading1 (text : str)
| Heading2 (text : str)
| Heading3 (text : str)
| NumberedItem (number description : str)
| BulletItem (description : str)
| Continuation (text : str).

Definition classify (raw_line : str) : line_class :=
  let line := strip raw_line in
  match line with
  | [] => Blank
  | _ :: _ =>
      match rmatch pattern_level1 line with
      | Some m => Heading1 (group 1 m)
      | None =>
      match rmatch pattern_level2 line with
      | Some m => Heading2 (group 1 m)
      | None =>
      match rmatch pattern_level3 line with
      | Some m => Heading3 (group 1 m)
      | None =>
      match rmatch pattern_list_item line with
      | Some m => NumberedItem (group 1 m) (group 2 m)
      | None =>
      match rmatch pattern_bullet_item raw_line with
      | Some m => BulletItem (group 1 m)
      | None => Continuation line
      end end end end end
  end.

(** The transition rules as the specification words them: flush the
    pending item, then act on the class of the line. *)
Definition transition (st : locals) (c : line_class) : locals :=
  match c with
  | Blank => finalize st
  | Heading1 t =>
      mkLocals (append_buffered st ++ [mkRow t [] [] [] []]) t [] [] None
  | Heading2 t =>
      mkLocals (append_buffered st ++ [mkRow (current_level1 st) t [] [] []])
               (current_level1 st) t [] None
  | Heading3 t =>
      mkLocals (append_buffered st ++
                  [mkRow (current_level1 st) (current_level2 st) t [] []])
               (current_level1 st) (current_level2 st) t None
  | NumberedItem n d =>
      mkLocals (append_buffered st) (current_level1 st) (current_level2 st)
               (current_level3 st) (Some (mkItem n d))
  | BulletItem d =>
      mkLocals (append_buffered st) (current_level1 st) (current_level2 st)
               (current_level3 st) (Some (mkItem BULLET d))
  | Continuation t =>
      match current_list_item_buffer st with
      | Some it =>
          mkLocals (parsed_data st) (current_level1 st) (current_level2 st)
                   (current_level3 st)
                   (Some (mkItem (number it) (description it ++ [SPACE] ++ t)))
      | None => st
      end
  end.

Definition is_heading (c : line_class) : bool :=
  match c with
  | Heading1 _ | Heading2 _ | Heading3 _ => true
  | _ => false
  end.

Definition is_continuation (c : line_class) : bool :=
  match c with
  | Continuation _ => true
  | _ => false
  end.

(** The designator and first description of a line that starts an item. *)
Definition item_start (c : line_class) : option item :=
  match c with
  | NumberedItem n d => Some (mkItem n d)
  | BulletItem d => Some (mkItem BULLET d)
  | _ => None
  end.

(** The heading context. *)
Definition context (st : locals) : str * str * str :=
  (current_level1 st, current_level2 st, current_level3 st).

(** The heading patterns by level, and the first of them to match when
    they are tried in a given order. *)
Inductive heading_level : Type := L1 | L2 | L3.

Definition heading_pattern (level : heading_level) : regex :=
  match level with
  | L1 => pattern_level1
  | L2 => pattern_level2
  | L3 => pattern_level3
  end.

Fixpoint first_heading (order : list heading_level) (line : str)
  : option (heading_level * str) :=
  match order with
  | [] => None
  | level :: order' =>
      match rmatch (heading_pattern level) line with
      | Some m => Some (level, group 1 m)
      | None => first_heading order' line
      end
  end.

(** The three-segment pattern as the specification writes it: between
    [^] and [$], three runs of [\d] separated by periods, then optionally
    one or more [\s] followed by any number of characters. *)
Definition spec_heading3 : regex :=
  cats [Bol; Plus cls_d; Cls (cls_chr DOT); Plus cls_d; Cls (cls_chr DOT);
        Plus cls_d; Opt (Grp 1 (cats [Plus cls_s; Star cls_any])); Eol].

(** ** Reading a match *)

(** Where a greedy repetition may stop: at the end of the text or in
    front of a character outside the class. *)
Definition stops (p : char -> bool) (s : str) : Prop :=
  match s with
  | [] => True
  | c :: _ => p c = false
  end.

(** The character in front of the cursor once [u] is consumed. *)
Fixpoint after (prev : option char) (u : str) : option char :=
  match u with
  | [] => prev
  | c :: u' => after (Some c) u'
  end.

Definition digit_led (s : str) : Prop :=
  match s with
  | [] => False
  | c :: _ => isdecimal c = true
  end.

(** A line of the form [N. text]: digits, a period, whitespace, then
    text that starts with a character other than whitespace. *)
Definition numbered_form (line ds text : str) : Prop :=
  exists ws,
    line = ds ++ [DOT] ++ ws ++ text /\
    ds <> [] /\ forallb isdecimal ds = true /\
    ws <> [] /\ forallb isspace ws = true /\
    text <> [] /\ stops isspace text /\
    ~ In NL line.

(** ** Runs of a column *)

(** Rows [s..e] of column [c] hold one and the same non-empty text. *)
Definition is_run (ws : worksheet) (c s e : nat) : Prop :=
  2 <= s /\ s <= e /\ e <= max_row ws /\
  exists t, t <> [] /\
            forall r, s <= r <= e -> cell_value ws r c = Some t.

(** A run that can be extended neither upwards nor downwards. *)
Definition maximal_run (ws : worksheet) (c s e : nat) : Prop :=
  is_run ws c s e /\
  (s = 2 \/ cell_value ws (s - 1) c <> cell_value ws s c) /\
  (e = max_row ws \/ cell_value ws (e + 1) c <> cell_value ws e c).

(** No cell of the column holds whitespace only. *)
Definition no_blank_text (ws : worksheet) (c : nat) : Prop :=
  forall r t, cell_value ws r c = Some t -> t <> [] -> strip t <> [].

Definition overlap (a b : cell_range) : Prop :=
  range_col a = range_col b /\
  exists r, range_start a <= r <= range_end a /\
            range_start b <= r <= range_end b.

(** ** The scan of a column, without the sheet *)

(** The range a closing test produces, if any. *)
Definition closed (start : option nat) (last : nat) : list (nat * nat) :=
  match start with
  | Some s => if negb (s =? 0) && (s <? last) then [(s, last)] else []
  | None => []
  end.

(** The ranges merged while rows [n .. n + k - 1] of a column with
    values [V] are scanned from the state [cur], [start], the last
    closing test included. *)
Fixpoint runs (V : nat -> value) (k n : nat) (cur : option str)
         (start : option nat) : list (nat * nat) :=
  match k with
  | O => closed start (n - 1)
  | S k' =>
      let v := V n in
      if has_text v then
        match v with
        | Some t =>
            if differs cur t
            then closed start (n - 1) ++ runs V k' (S n) (Some t) (Some n)
            else runs V k' (S n) cur start
        | None => runs V k' (S n) cur start
        end
      else closed start (n - 1) ++ runs V k' (S n) None None
  end.

(** Rows [s..e] hold one text that the scan takes for a value, and the
    rows next to them, within [lo..hi], hold something else. *)
Definition text_run (V : nat -> value) (lo hi s e : nat) : Prop :=
  lo <= s /\ s <= e /\ e <= hi /\
  (exists t, has_text (Some t) = true /\
             forall r, s <= r <= e -> V r = Some t) /\
  (s = lo \/ V (s - 1) <> V s) /\
  (e = hi \/ V (e + 1) <> V e).

(** What the scan knows of the rows above row [n]. *)
Definition open_inv (V : nat -> value) (n : nat) (cur : option str)
           (start : option nat) : Prop :=
  match cur, start with
  | None, None => n = 2 \/ has_text (V (n - 1)) = false
  | Some t, Some s =>
      2 <= s /\ s < n /\ has_text (Some t) = true /\
      (forall r, s <= r < n -> V r = Some t) /\
      (s = 2 \/ V (s - 1) <> Some t)
  | _, _ => False
  end.

Definition before (a b : nat * nat) : Prop := snd a < fst b.

(** A pair of rows as a range of column [c]. *)
Definition as_range (c : nat) (r : nat * nat) : cell_range :=
  mkRange c (fst r) (snd r).

(** The ranges the scan of column [c] of a sheet merges. *)
Definition column_ranges (ws : worksheet) (c : nat) : list cell_range :=
  map (as_range c)
      (runs (fun r => cell_value ws r c) (max_row ws - 1) 2 None None).

(** A text that is empty or starts with a digit. *)
Definition level_text (t : str) : Prop := t = [] \/ digit_led t.

(** The first three cells of a sheet row hold no whitespace-only text. *)
Definition heading_cells_ok (cs : list value) : Prop :=
  forall c t, c < 3 -> nth_error cs c = Some (Some t) ->
              t <> [] -> strip t <> [].

(** The heading fields of a row, and of the loop's variables, are
    empty or start with a digit. *)
Definition row_levels_ok (r : row) : Prop :=
  level_text (level1 r) /\ level_text (level2 r) /\ level_text (level3 r).

Definition levels_ok (st : locals) : Prop :=
  level_text (current_level1 st) /\ level_text (current_level2 st) /\
  level_text (current_level3 st) /\ Forall row_levels_ok (parsed_data st).

(** The cells a row of [parsed_data] becomes: each value cut to the
    length a cell keeps. *)
Definition sheet_row (r : row) : list value :=
  map (fun v => Some (firstn max_length v)) (row_values r).

(** ** Sample inputs *)

Definition two_items_text : str :=
  lit "2." ++ [TAB] ++ lit "First item" ++ [NL] ++ lit "more detail"
      ++ [NL; NL] ++ lit "3. Second item".

Definition intro_overview_text : str :=
  lit "1 Introduction" ++ [NL; NL] ++ lit "1.1 Overview".

Definition buy_milk_text : str := BULLET ++ lit " Buy milk".

Definition some_text_line : str := lit "3. Some text".

(** A sheet whose first column holds A, A, empty, A below the header. *)
Definition aaea_sheet : worksheet :=
  mkSheet [map Some headers;
           [Some (lit "A"); Some []; Some []; Some []; Some []];
           [Some (lit "A"); Some []; Some []; Some []; Some []];
           [Some []; Some []; Some []; Some []; Some []];
           [Some (lit "A"); Some []; Some []; Some []; Some []]] [].

Definition header_sheet : worksheet := mkSheet [map Some headers] [].

(** Two range tables share no code point. *)
Definition apart (t1 t2 : list (N * N)) : bool :=
  forallb (fun r1 =>
             forallb (fun r2 => (snd r1 <? fst r2)%N || (snd r2 <? fst r1)%N)
                     t2) t1.

(** What may follow the numeral of a heading: nothing, or whitespace. *)
Definition gap (v : str) : Prop :=
  match v with
  | [] => True
  | w :: _ => isspace w = true
  end.

Definition deep_line : str := lit "1.2.3 Deep".

Definition item_under_heading_text : str :=
  lit "1 Intro" ++ [NL] ++ lit "2. First" ++ [NL] ++ lit "more" ++ [NL]
      ++ lit "1.1 Next".

Definition outline_text : str :=
  lit "1 A" ++ [NL] ++ lit "1. x" ++ [NL] ++ lit "2. y" ++ [NL]
      ++ lit "1.1 B" ++ [NL] ++ lit "- z" ++ [NL] ++ lit "2 C".

Definition outline_sheet : worksheet :=
  match filled_sheet outline_text with
  | Returned ws => ws
  | Raised _ => Workbook_active
  end.

(** A heading line that carries the control character U+0001. *)
Definition control_text : str := lit "1 " ++ [0x01%N].

(** A heading line longer than a cell: a numeral of 32767 digits [1],
    a space and one more character. *)
Definition long_heading (c : char) : str :=
  @repeat char 0x31%N max_length ++ [SPACE; c].

(** Two such lines that differ in their last character only. *)
Definition long_text : str :=
  long_heading 0x61%N ++ [NL] ++ long_heading 0x62%N.

(** ** Notions for the further properties *)

(** The lines that get a row of their own: headings and starts of items. *)
Definition writes_row (c : line_class) : bool :=
  is_heading c || truthy (item_start c).

(** A designator: the bullet glyph or a string of digits. *)
Definition designator (n : str) : Prop :=
  n = BULLET \/ (n <> [] /\ forallb isdecimal n = true).

(** A heading row holds a heading and no item; an item row holds a
    designator and a stripped description. *)
Definition row_shape (r : row) : Prop :=
  (item_no r = [] /\ item_desc r = [] /\
   (digit_led (level1 r) \/ digit_led (level2 r) \/ digit_led (level3 r)))
  \/ (designator (item_no r) /\ strip (item_desc r) = item_desc r).

(** A string a cell accepts: no refused character among those it keeps. *)
Definition storable (v : str) : bool :=
  negb (existsb illegal_character (firstn max_length v)).

(** A string without any character that a worksheet refuses. *)
Definition clean (s : str) : Prop :=
  forall c, In c s -> illegal_character c = false.

(** Row [r] lies below the top of one of the ranges. *)
Definition covered (r : nat) (rs : list cell_range) : bool :=
  existsb (fun rg => (range_start rg <? r) && (r <=? range_end rg)) rs.

(** A range ends above the start of another. *)
Definition above (a b : cell_range) : Prop := range_end a < range_start b.


(** A row under another: one with a level-2 text has the level-1 text
    of the row above, and one with a level-3 text has its level-1 and
    level-2 texts. *)
Definition follows (r r' : row) : Prop :=
  (level2 r' <> [] -> level1 r' = level1 r) /\
  (level3 r' <> [] -> level1 r' = level1 r /\ level2 r' = level2 r).

Definition chained (rows : list row) : Prop :=
  forall pre r r' post, rows = pre ++ r :: r' :: post -> follows r r'.

(** The last row written carries the headings of the moment. *)
Definition tracks (rows : list row) (st : locals) : Prop :=
  forall pre r, rows = pre ++ [r] ->
                (level1 r, level2 r, level3 r) = context st.

Definition FAILED : str := lit "Failed to extract text from PDF: ".

(** Spaces and tabs. *)
Definition blank_char (c : char) : bool := cls_set [SPACE; TAB] c.

Definition plain_text : str :=
  lit "Title page" ++ [NL; NL] ++ lit "nothing numbered here".

(** Every captured group is made of characters of [s0]. *)
Definition groups_within (s0 : str) (g : groups) : Prop :=
  forall n t, In (n, t) g -> incl t s0.

(** Every value of a row can be stored. *)
Definition row_storable (r : row) : Prop :=
  forallb storable (row_values r) = true.

(** Every string the loop holds is clean. *)
Definition row_clean (r : row) : Prop :=
  forall v, In v (row_values r) -> clean v.

Definition locals_clean (st : locals) : Prop :=
  clean (current_level1 st) /\ clean (current_level2 st) /\
  clean (current_level3 st) /\ Forall row_clean (parsed_data st) /\
  (forall it, current_list_item_buffer st = Some it ->
              clean (number it) /\ clean (description it)).

(** * Properties *)

(** ** The built-ins and the patterns on sample lines *)

Example strip_control_whitespace :
  strip ([0x0C; 0x20]%N ++ lit "a" ++ [0x20; 0x1F]%N) = lit "a".
Proof. vm_compute. reflexivity. Qed.

Example split_trailing_newline : split NL (lit "a" ++ [NL]) = [lit "a"; []].
Proof. vm_compute. reflexivity. Qed.

Example split_empty : split NL [] = [[]].
Proof. reflexivity. Qed.

Example level1_numeral_and_text :
  rmatch pattern_level1 (lit "12 a") = Some [(1, lit "12 a")].
Proof. vm_compute. reflexivity. Qed.

Example level1_trailing_space : rmatch pattern_level1 (lit "12 ") = None.
Proof. vm_compute. reflexivity. Qed.

Example level1_dotted : rmatch pattern_level1 (lit "1.2") = None.
Proof. vm_compute. reflexivity. Qed.

Example level1_stops_at_newline :
  rmatch pattern_level1 (lit "1 a" ++ [NL] ++ lit "b")
  = Some [(1, lit "1 a")].
Proof. vm_compute. reflexivity. Qed.

Example level2_two_segments :
  rmatch pattern_level2 (lit "1.2") = Some [(1, lit "1.2")].
Proof. vm_compute. reflexivity. Qed.

Example level2_three_segments : rmatch pattern_level2 (lit "1.2.3") = None.
Proof. vm_compute. reflexivity. Qed.

Example list_item_groups :
  rmatch pattern_list_item (lit "1. 2") = Some [(2, lit "2"); (1, lit "1")].
Proof. vm_compute. reflexivity. Qed.

Example list_item_needs_space : rmatch pattern_list_item (lit "1.2") = None.
Proof. vm_compute. reflexivity. Qed.

Example bullet_gives_back_a_space :
  rmatch pattern_bullet_item (BULLET ++ lit "   ") = Some [(1, lit " ")].
Proof. vm_compute. reflexivity. Qed.

Example bullet_after_no_break_space :
  rmatch pattern_bullet_item ([0xA0%N] ++ lit "- a") = None.
Proof. vm_compute. reflexivity. Qed.

Example bullet_after_tab :
  rmatch pattern_bullet_item ([TAB] ++ lit "* a ") = Some [(1, lit "a ")].
Proof. vm_compute. reflexivity. Qed.

(** ** Characters *)

Lemma in_ranges_true t c :
  in_ranges t c = true <->
  exists lo hi, In (lo, hi) t /\ (lo <= c)%N /\ (c <= hi)%N.
Proof.
  unfold in_ranges. rewrite existsb_exists. split.
  - intros [[lo hi] [Hin H]]. apply andb_true_iff in H. destruct H as [H1 H2].
    exists lo, hi. cbn in *. repeat split; auto; now apply N.leb_le.
  - intros [lo [hi [Hin [H1 H2]]]]. exists (lo, hi). split; auto.
    cbn. apply andb_true_iff. split; now apply N.leb_le.
Qed.

Lemma apart_sound t1 t2 c :
  apart t1 t2 = true -> in_ranges t1 c = true -> in_ranges t2 c = false.
Proof.
  intros Ha H1. destruct (in_ranges t2 c) eqn:H2; auto. exfalso.
  apply in_ranges_true in H1. destruct H1 as [l1 [h1 [I1 [A1 B1]]]].
  apply in_ranges_true in H2. destruct H2 as [l2 [h2 [I2 [A2 B2]]]].
  unfold apart in Ha. rewrite forallb_forall in Ha.
  specialize (Ha _ I1). rewrite forallb_forall in Ha. specialize (Ha _ I2).
  cbn in Ha. apply orb_true_iff in Ha.
  destruct Ha as [Ha | Ha]; apply N.ltb_lt in Ha; lia.
Qed.

Lemma single_range x c : in_ranges [(x, x)] c = (c =? x)%N.
Proof.
  unfold in_ranges. cbn. rewrite orb_false_r.
  destruct (N.eqb_spec c x) as [-> | Hne].
  - now rewrite N.leb_refl.
  - destruct (x <=? c)%N eqn:A; destruct (c <=? x)%N eqn:B; auto.
    apply N.leb_le in A. apply N.leb_le in B. lia.
Qed.

Lemma digit_not_space c : isdecimal c = true -> isspace c = false.
Proof. apply apart_sound. vm_compute. reflexivity. Qed.

Lemma space_not_digit c : isspace c = true -> isdecimal c = false.
Proof. apply apart_sound. vm_compute. reflexivity. Qed.

Lemma digit_not_chr x c :
  isdecimal x = false -> isdecimal c = true -> (c =? x)%N = false.
Proof.
  intros Hx Hc. destruct (N.eqb_spec c x) as [-> | ]; congruence.
Qed.

Lemma space_not_chr x c :
  isspace x = false -> isspace c = true -> (c =? x)%N = false.
Proof.
  intros Hx Hc. destruct (N.eqb_spec c x) as [-> | ]; congruence.
Qed.

Lemma glyph_cases c :
  cls_set bullet_glyphs c = true -> In c bullet_glyphs.
Proof.
  unfold cls_set. rewrite existsb_exists. intros [x [Hin Hx]].
  apply N.eqb_eq in Hx. now subst.
Qed.

Lemma glyph_plain c :
  In c bullet_glyphs ->
  isspace c = false /\ isdecimal c = false /\ cls_any c = true /\
  cls_set bullet_glyphs c = true /\ cls_set [SPACE; TAB] c = false.
Proof.
  intros H. cbn in H.
  repeat (destruct H as [<- | H]; [vm_compute; auto |]). contradiction.
Qed.

(** ** Stripping *)

Lemma lstrip_stop s : stops isspace s -> lstrip s = s.
Proof. destruct s as [|c s]; cbn; auto. now intros ->. Qed.

Lemma lstrip_stops s : stops isspace (lstrip s).
Proof.
  induction s as [|c s IH]; cbn; auto.
  destruct (isspace c) eqn:E; cbn; auto.
Qed.

Lemma lstrip_app_keep a c :
  isspace c = false -> exists b, lstrip (a ++ [c]) = b ++ [c].
Proof.
  intros Hc. induction a as [|x a IH]; cbn.
  - rewrite Hc. now exists [].
  - destruct (isspace x); auto. now exists (x :: a).
Qed.

Lemma lstrip_suffix s : exists u, s = u ++ lstrip s /\ forallb isspace u = true.
Proof.
  induction s as [|c s [u [E F]]]; cbn.
  - now exists [].
  - destruct (isspace c) eqn:Hc.
    + exists (c :: u). cbn. rewrite Hc, F.
      split; [f_equal; exact E | reflexivity].
    + now exists [].
Qed.

(** ** Reading a match backwards and forwards *)

Lemma star_inv p s : forall prev g k m,
  star p prev s g k = Some m ->
  exists u v, s = u ++ v /\ forallb p u = true /\
              k (after prev u) v g = Some m.
Proof.
  induction s as [|c s IH]; intros prev g k m H; cbn in H.
  - exists [], []. auto.
  - destruct (p c) eqn:Hc.
    + destruct (star p (Some c) s g k) eqn:Hs.
      * inversion H; subst. apply IH in Hs. destruct Hs as [u [v [E [F K]]]].
        exists (c :: u), v. cbn. rewrite Hc, F. subst. auto.
      * exists [], (c :: s). auto.
    + exists [], (c :: s). auto.
Qed.

Lemma star_max p u : forall prev v g k m,
  forallb p u = true -> stops p v -> k (after prev u) v g = Some m ->
  star p prev (u ++ v) g k = Some m.
Proof.
  induction u as [|c u IH]; intros prev v g k m F S K; cbn in *.
  - destruct v as [|x v]; cbn in *; auto. now rewrite S.
  - apply andb_true_iff in F. destruct F as [Hc F]. rewrite Hc.
    now rewrite (IH (Some c) v g k m F S K).
Qed.

Lemma run_cat r1 r2 prev s g k :
  run (Cat r1 r2) prev s g k =
  run r1 prev s g (fun prev' s' g' => run r2 prev' s' g' k).
Proof. reflexivity. Qed.

Lemma run_bol s g k : run Bol None s g k = k None s g.
Proof. reflexivity. Qed.

Lemma run_grp n r prev s g k :
  run (Grp n r) prev s g k =
  run r prev s g
      (fun prev' s' g' =>
         k prev' s' ((n, firstn (length s - length s') s) :: g')).
Proof. reflexivity. Qed.

Lemma run_star_inv p prev s g k m :
  run (Star p) prev s g k = Some m ->
  exists u v, s = u ++ v /\ forallb p u = true /\
              k (after prev u) v g = Some m.
Proof. apply star_inv. Qed.

Lemma run_plus_inv p prev s g k m :
  run (Plus p) prev s g k = Some m ->
  exists c u v, s = c :: u ++ v /\ p c = true /\ forallb p u = true /\
                k (after (Some c) u) v g = Some m.
Proof.
  cbn. destruct s as [|c s]; [discriminate|].
  destruct (p c) eqn:Hc; [|discriminate].
  intros H. apply star_inv in H. destruct H as [u [v [E [F K]]]].
  exists c, u, v. subst. auto.
Qed.

Lemma run_cls_inv p prev s g k m :
  run (Cls p) prev s g k = Some m ->
  exists c s', s = c :: s' /\ p c = true /\ k (Some c) s' g = Some m.
Proof.
  cbn. destruct s as [|c s]; [discriminate|].
  destruct (p c) eqn:Hc; [|discriminate]. intros H. now exists c, s.
Qed.

Lemma run_eol_inv prev s g k m :
  run Eol prev s g k = Some m ->
  stops cls_any s /\ k prev s g = Some m.
Proof.
  destruct s as [|c s]; cbn.
  - intros H. split; [exact I | exact H].
  - unfold cls_any. destruct (c =? NL)%N; [auto | discriminate].
Qed.

Lemma run_opt_inv r prev s g k m :
  run (Opt r) prev s g k = Some m ->
  run r prev s g k = Some m \/ k prev s g = Some m.
Proof.
  cbn. destruct (run r prev s g k); intros H; [left | right]; auto.
Qed.

Lemma run_star_max p u v prev g k m :
  forallb p u = true -> stops p v -> k (after prev u) v g = Some m ->
  run (Star p) prev (u ++ v) g k = Some m.
Proof. apply star_max. Qed.

Lemma run_plus_max p c u v prev g k m :
  p c = true -> forallb p u = true -> stops p v ->
  k (after (Some c) u) v g = Some m ->
  run (Plus p) prev (c :: u ++ v) g k = Some m.
Proof. intros Hc F S K. cbn. rewrite Hc. now apply star_max. Qed.

Lemma run_cls_ok p c s prev g k :
  p c = true -> run (Cls p) prev (c :: s) g k = k (Some c) s g.
Proof. intros Hc. cbn. now rewrite Hc. Qed.

Lemma run_eol_end prev g k : run Eol prev [] g k = k prev [] g.
Proof. reflexivity. Qed.

Lemma run_opt_skip r prev s g k :
  run r prev s g k = None -> run (Opt r) prev s g k = k prev s g.
Proof. intros H. cbn. now rewrite H. Qed.

Lemma run_opt_take r prev s g k m :
  run r prev s g k = Some m -> run (Opt r) prev s g k = Some m.
Proof. intros H. cbn. now rewrite H. Qed.

Lemma span_unique p a : forall b x y,
  forallb p a = true -> forallb p b = true -> stops p x -> stops p y ->
  a ++ x = b ++ y -> a = b /\ x = y.
Proof.
  induction a as [|c a IH]; intros [|d b] x y Fa Fb Sx Sy E; cbn in *.
  - auto.
  - subst x. cbn in Sx. apply andb_true_iff in Fb. destruct Fb. congruence.
  - subst y. cbn in Sy. apply andb_true_iff in Fa. destruct Fa. congruence.
  - inversion E; subst. apply andb_true_iff in Fa. apply andb_true_iff in Fb.
    destruct Fa, Fb. destruct (IH b x y) as [-> ->]; auto.
Qed.

Ltac inv_run H :=
  repeat (cbv beta in H;
    lazymatch type of H with
    | run (Cat _ _) _ _ _ _ = Some _ => rewrite run_cat in H
    | run Bol None _ _ _ = Some _ => rewrite run_bol in H
    | run (Grp _ _) _ _ _ _ = Some _ => rewrite run_grp in H
    | run (Star _) _ _ _ _ = Some _ =>
        let u := fresh "u" in let v := fresh "v" in
        let E := fresh "E" in let F := fresh "F" in
        apply run_star_inv in H; destruct H as [u [v [E [F H]]]]
    | run (Plus _) _ _ _ _ = Some _ =>
        let c := fresh "c" in let u := fresh "u" in let v := fresh "v" in
        let E := fresh "E" in let C := fresh "C" in let F := fresh "F" in
        apply run_plus_inv in H; destruct H as [c [u [v [E [C [F H]]]]]]
    | run (Cls _) _ _ _ _ = Some _ =>
        let c := fresh "c" in let v := fresh "v" in
        let E := fresh "E" in let C := fresh "C" in
        apply run_cls_inv in H; destruct H as [c [v [E [C H]]]]
    | run Eol _ _ _ _ = Some _ =>
        let S := fresh "S" in
        apply run_eol_inv in H; destruct H as [S H]
    end).

Lemma stops_any_gap v : stops cls_any v -> gap v.
Proof.
  destruct v as [|w v]; cbn; auto. unfold cls_any.
  destruct (N.eqb_spec w NL) as [-> | ]; [reflexivity | discriminate].
Qed.

Lemma gap_stops_digit v : gap v -> stops isdecimal v.
Proof. destruct v as [|w v]; cbn; auto. apply space_not_digit. Qed.

Lemma digit_led_firstn (c : char) (s t : str) :
  isdecimal c = true -> length t < length (c :: s) ->
  digit_led (firstn (length (c :: s) - length t) (c :: s)).
Proof.
  intros Hc Hl. cbn [length] in *.
  destruct (S (length s) - length t) as [|n] eqn:E; [lia|]. cbn. exact Hc.
Qed.

Ltac lengths :=
  subst; cbn [length]; repeat (rewrite length_app; cbn [length]); lia.

Ltac shape_done :=
  repeat split; auto;
  try (match goal with
       | E : ?v = _ :: _ |- digit_led (firstn (length ?v - _) ?v) =>
           rewrite E; apply digit_led_firstn; auto; lengths
       end);
  try (subst; reflexivity);
  try (subst; cbn; auto using stops_any_gap; fail).

(** ** The shape of the lines each pattern accepts *)

Lemma level1_inv line m :
  rmatch pattern_level1 line = Some m ->
  exists u c ds v,
    line = u ++ c :: ds ++ v /\ forallb isspace u = true /\
    isdecimal c = true /\ forallb isdecimal ds = true /\ gap v /\
    digit_led (group 1 m).
Proof.
  unfold rmatch, pattern_level1. cbn [cats]. intros H. inv_run H.
  apply run_opt_inv in H. destruct H as [H | H]; inv_run H;
    inversion H; subst m; exists u, c, u0, v0; cbn [group Nat.eqb];
    shape_done.
Qed.

Lemma level2_inv line m :
  rmatch pattern_level2 line = Some m ->
  exists u c1 d1 c2 d2 v,
    line = u ++ c1 :: d1 ++ DOT :: c2 :: d2 ++ v /\
    forallb isspace u = true /\
    isdecimal c1 = true /\ forallb isdecimal d1 = true /\
    isdecimal c2 = true /\ forallb isdecimal d2 = true /\ gap v /\
    digit_led (group 1 m).
Proof.
  unfold rmatch, pattern_level2. cbn [cats]. intros H. inv_run H.
  apply N.eqb_eq in C0. subst c0.
  apply run_opt_inv in H. destruct H as [H | H]; inv_run H;
    inversion H; subst m; exists u, c, u0, c1, u1, v2; cbn [group Nat.eqb];
    shape_done.
Qed.

Lemma level3_inv line m :
  rmatch pattern_level3 line = Some m ->
  exists u c1 d1 c2 d2 c3 d3 v,
    line = u ++ c1 :: d1 ++ DOT :: c2 :: d2 ++ DOT :: c3 :: d3 ++ v /\
    forallb isspace u = true /\
    isdecimal c1 = true /\ forallb isdecimal d1 = true /\
    isdecimal c2 = true /\ forallb isdecimal d2 = true /\
    isdecimal c3 = true /\ forallb isdecimal d3 = true /\ gap v /\
    digit_led (group 1 m).
Proof.
  unfold rmatch, pattern_level3. cbn [cats]. intros H. inv_run H.
  apply N.eqb_eq in C0. subst c0. apply N.eqb_eq in C2. subst c2.
  apply run_opt_inv in H. destruct H as [H | H]; inv_run H;
    inversion H; subst m; exists u, c, u0, c1, u1, c3, u2, v4;
    cbn [group Nat.eqb];
    shape_done.
Qed.

Lemma list_item_inv line m :
  rmatch pattern_list_item line = Some m ->
  exists u c ds w v,
    line = u ++ c :: ds ++ DOT :: w :: v /\ forallb isspace u = true /\
    isdecimal c = true /\ forallb isdecimal ds = true /\ isspace w = true.
Proof.
  unfold rmatch, pattern_list_item. cbn [cats]. intros H. inv_run H.
  apply N.eqb_eq in C0. subst c0.
  exists u, c, u0, c1, (u1 ++ v2). subst. repeat split; auto.
Qed.

Lemma strip_stops_r s : stops isspace (rev (strip s)).
Proof.
  unfold strip, rstrip. rewrite rev_involutive. apply lstrip_stops.
Qed.

Lemma strip_stops_l s : stops isspace (strip s).
Proof.
  unfold strip, rstrip. pose proof (lstrip_stops s) as H.
  destruct (lstrip s) as [|x t]; cbn; auto. cbn in H.
  destruct (lstrip_app_keep (rev t) x H) as [b Hb]. rewrite Hb.
  rewrite rev_app_distr. cbn. exact H.
Qed.

Lemma lstrip_incl x s : In x (lstrip s) -> In x s.
Proof.
  induction s as [|c s IH]; cbn; auto.
  destruct (isspace c); cbn; auto.
Qed.

Lemma strip_incl x s : In x (strip s) -> In x s.
Proof.
  unfold strip, rstrip. intros H. apply in_rev in H.
  apply lstrip_incl in H. apply in_rev in H. now apply lstrip_incl in H.
Qed.

Lemma split_no_sep sep s : forall l, In l (split sep s) -> ~ In sep l.
Proof.
  induction s as [|c s IH]; cbn; intros l H.
  - destruct H as [<- | []]. auto.
  - destruct (N.eqb_spec c sep) as [-> | Hne].
    + destruct H as [<- | H]; auto.
    + destruct (split sep s) as [|l0 ls] eqn:E.
      * destruct H as [<- | []]. intros [-> | []]. congruence.
      * destruct H as [<- | H].
        -- intros [-> | H']; [congruence|]. apply (IH l0); cbn; auto.
        -- apply IH. cbn. auto.
Qed.

Lemma trailing_space (a u : str) :
  u <> [] -> forallb isspace u = true -> stops isspace (rev (a ++ u)) -> False.
Proof.
  intros Hu F S. rewrite rev_app_distr in S.
  destruct (rev u) as [|y ys] eqn:R.
  - apply (f_equal (@rev char)) in R. rewrite rev_involutive in R. auto.
  - cbn in S. rewrite forallb_forall in F.
    assert (In y u) by (apply in_rev; rewrite R; cbn; auto).
    rewrite (F y) in S; auto. discriminate.
Qed.

Lemma no_lead (line u : str) c rest :
  stops isspace line -> line = u ++ c :: rest -> forallb isspace u = true ->
  isdecimal c = true -> u = [].
Proof.
  intros S E F C. destruct u as [|x u]; auto. subst line. cbn in *.
  apply andb_true_iff in F. destruct F. congruence.
Qed.

Lemma any_all (s : str) : ~ In NL s -> forallb cls_any s = true.
Proof.
  intros H. apply forallb_forall. intros x Hx. unfold cls_any.
  destruct (N.eqb_spec x NL) as [-> | ]; [contradiction | reflexivity].
Qed.

Lemma run_plus_all p c u prev g k m :
  p c = true -> forallb p u = true ->
  k (after (Some c) u) [] g = Some m ->
  run (Plus p) prev (c :: u) g k = Some m.
Proof.
  intros Hc F K. rewrite <- (app_nil_r u).
  apply run_plus_max; cbn; auto.
Qed.

(** The optional tail [(?:\s+.+)?] swallows what follows the numeral of
    a trimmed line. *)
Lemma tail_all (full a v : str) prev g k m :
  full = a ++ v ->
  gap v -> stops isspace (rev full) -> ~ In NL full ->
  (forall prev', k prev' [] g = Some m) ->
  run (Opt (Cat (Plus cls_s) (Plus cls_any))) prev v g k = Some m.
Proof.
  intros -> G S N K. destruct v as [|w v].
  - rewrite run_opt_skip; auto.
  - cbn in G. apply run_opt_take. rewrite run_cat.
    destruct (lstrip_suffix v) as [ws [E F]].
    destruct (lstrip v) as [|x xs] eqn:L.
    + exfalso. rewrite app_nil_r in E. subst ws.
      apply (trailing_space a (w :: v)); auto; try discriminate.
      cbn. now rewrite G, F.
    + rewrite E. apply run_plus_max; auto.
      * pose proof (lstrip_stops v) as Hs. now rewrite L in Hs.
      * cbv beta.
        assert (Hn : ~ In NL (x :: xs)).
        { intros Hin. apply N. apply in_or_app. right. right. rewrite E.
          apply in_or_app. now right. }
        apply any_all in Hn. cbn in Hn. apply andb_true_iff in Hn.
        destruct Hn. apply run_plus_all; auto.
Qed.

Lemma spec_heading3_inv line m :
  rmatch spec_heading3 line = Some m ->
  exists c1 d1 c2 d2 c3 d3 v,
    line = c1 :: d1 ++ DOT :: c2 :: d2 ++ DOT :: c3 :: d3 ++ v /\
    isdecimal c1 = true /\ forallb isdecimal d1 = true /\
    isdecimal c2 = true /\ forallb isdecimal d2 = true /\
    isdecimal c3 = true /\ forallb isdecimal d3 = true /\ gap v.
Proof.
  unfold rmatch, spec_heading3. cbn [cats]. intros H. inv_run H.
  apply N.eqb_eq in C0. subst c0. apply N.eqb_eq in C2. subst c2.
  exists c, u, c1, u0, c3, u1, v3.
  apply run_opt_inv in H. destruct H as [H | H]; inv_run H; shape_done.
Qed.

(** A numeral followed by a period is no level-1 heading. *)
Lemma level1_dot c1 d1 rest :
  isdecimal c1 = true -> forallb isdecimal d1 = true ->
  rmatch pattern_level1 (c1 :: d1 ++ DOT :: rest) = None.
Proof.
  intros C1 D1. destruct (rmatch pattern_level1 _) as [m|] eqn:H; auto.
  exfalso. apply level1_inv in H.
  destruct H as [u [c [ds [v [E [F [C [D [G _]]]]]]]]].
  assert (u = []) by
    (eapply no_lead; [| exact E | exact F | exact C]; cbn;
     now apply digit_not_space).
  subst u. cbn in E.
  destruct (@span_unique isdecimal (c1 :: d1) (c :: ds) (DOT :: rest) v)
    as [_ Hv]; cbn; auto using gap_stops_digit.
  - now rewrite C1, D1.
  - now rewrite C, D.
  - subst v. cbn in G. discriminate.
Qed.

Lemma dot_stops rest : stops isdecimal (DOT :: rest).
Proof. reflexivity. Qed.

Create HintDb shape.
#[local] Hint Resolve dot_stops gap_stops_digit : shape.

(** Two numerals followed by a second period are no level-2 heading. *)
Lemma level2_dot c1 d1 c2 d2 rest :
  isdecimal c1 = true -> forallb isdecimal d1 = true ->
  isdecimal c2 = true -> forallb isdecimal d2 = true ->
  rmatch pattern_level2 (c1 :: d1 ++ DOT :: c2 :: d2 ++ DOT :: rest) = None.
Proof.
  intros C1 D1 C2 D2. destruct (rmatch pattern_level2 _) as [m|] eqn:H; auto.
  exfalso. apply level2_inv in H.
  destruct H as [u [c [ds [c' [ds' [v [E [F [C [D [C' [D' [G _]]]]]]]]]]]]].
  assert (u = []) by
    (eapply no_lead; [| exact E | exact F | exact C]; cbn;
     now apply digit_not_space).
  subst u. cbn in E.
  injection E as _ E. apply (@span_unique isdecimal) in E; auto with shape.
  destruct E as [_ E]. injection E as _ E.
  apply (@span_unique isdecimal) in E; auto with shape.
  destruct E as [_ E]. subst v. discriminate.
Qed.

(** A numeral, a period and whitespace are no level-2 or level-3
    heading. *)
Lemma level2_space c1 d1 w rest :
  isdecimal c1 = true -> forallb isdecimal d1 = true -> isspace w = true ->
  rmatch pattern_level2 (c1 :: d1 ++ DOT :: w :: rest) = None.
Proof.
  intros C1 D1 W. destruct (rmatch pattern_level2 _) as [m|] eqn:H; auto.
  exfalso. apply level2_inv in H.
  destruct H as [u [c [ds [c' [ds' [v [E [F [C [D [C' [D' [G _]]]]]]]]]]]]].
  assert (u = []) by
    (eapply no_lead; [| exact E | exact F | exact C]; cbn;
     now apply digit_not_space).
  subst u. cbn in E.
  injection E as _ E. apply (@span_unique isdecimal) in E; auto with shape.
  destruct E as [_ E]. injection E as E _. subst.
  apply digit_not_space in C'. congruence.
Qed.

Lemma level3_space c1 d1 w rest :
  isdecimal c1 = true -> forallb isdecimal d1 = true -> isspace w = true ->
  rmatch pattern_level3 (c1 :: d1 ++ DOT :: w :: rest) = None.
Proof.
  intros C1 D1 W. destruct (rmatch pattern_level3 _) as [m|] eqn:H; auto.
  exfalso. apply level3_inv in H.
  destruct H as [u [c [ds [c' [ds' [c3 [d3 [v [E [F [C [D [C' _]]]]]]]]]]]]].
  assert (u = []) by
    (eapply no_lead; [| exact E | exact F | exact C]; cbn;
     now apply digit_not_space).
  subst u. cbn in E.
  injection E as _ E. apply (@span_unique isdecimal) in E; auto with shape.
  destruct E as [_ E]. injection E as E _. subst.
  apply digit_not_space in C'. congruence.
Qed.

(** A line that starts with neither whitespace nor a digit matches none
    of the numeral patterns. *)
Lemma plain_start x rest :
  isspace x = false -> isdecimal x = false ->
  rmatch pattern_level1 (x :: rest) = None /\
  rmatch pattern_level2 (x :: rest) = None /\
  rmatch pattern_level3 (x :: rest) = None /\
  rmatch pattern_list_item (x :: rest) = None.
Proof.
  intros Hs Hd.
  assert (A : forall u c t, x :: rest = u ++ c :: t ->
                            forallb isspace u = true -> isdecimal c = true ->
                            False).
  { intros [|y u] c t E F C; cbn in *; inversion E; subst; try congruence.
    apply andb_true_iff in F. destruct F. congruence. }
  repeat split.
  - destruct (rmatch pattern_level1 _) as [m|] eqn:H; auto. exfalso.
    apply level1_inv in H.
    destruct H as [u [c [ds [v [E [F [C _]]]]]]]. eauto.
  - destruct (rmatch pattern_level2 _) as [m|] eqn:H; auto. exfalso.
    apply level2_inv in H.
    destruct H as [u [c [ds [c' [ds' [v [E [F [C _]]]]]]]]]. eauto.
  - destruct (rmatch pattern_level3 _) as [m|] eqn:H; auto. exfalso.
    apply level3_inv in H.
    destruct H as [u [c [ds [c' [ds' [c3 [d3 [v [E [F [C _]]]]]]]]]]]. eauto.
  - destruct (rmatch pattern_list_item _) as [m|] eqn:H; auto. exfalso.
    apply list_item_inv in H.
    destruct H as [u [c [ds [w [v [E [F [C _]]]]]]]]. eauto.
Qed.

Lemma firstn_whole (s : str) : firstn (length s - length (@nil char)) s = s.
Proof. cbn [length]. rewrite Nat.sub_0_r. apply firstn_all. Qed.

Lemma firstn_prefix (a b : str) :
  firstn (length (a ++ b) - length b) (a ++ b) = a.
Proof.
  rewrite length_app.
  replace (length a + length b - length b) with (length a + 0) by lia.
  rewrite firstn_app_2. cbn. apply app_nil_r.
Qed.

Ltac flat := cbn [app]; repeat (rewrite <- app_assoc; cbn [app]).

Lemma level3_ok c1 d1 c2 d2 c3 d3 v :
  let line := c1 :: d1 ++ DOT :: c2 :: d2 ++ DOT :: c3 :: d3 ++ v in
  isdecimal c1 = true -> forallb isdecimal d1 = true ->
  isdecimal c2 = true -> forallb isdecimal d2 = true ->
  isdecimal c3 = true -> forallb isdecimal d3 = true ->
  gap v -> stops isspace (rev line) -> ~ In NL line ->
  rmatch pattern_level3 line = Some [(1, line)].
Proof.
  intros line C1 D1 C2 D2 C3 D3 G S N.
  unfold rmatch, pattern_level3. cbn [cats].
  rewrite run_cat, run_bol, run_cat.
  apply (@run_star_max cls_s [] line); auto.
  { cbn. now apply digit_not_space. }
  cbn [after]. rewrite run_cat, run_grp, run_cat.
  apply run_plus_max; auto with shape. rewrite run_cat, run_cls_ok; auto.
  rewrite run_cat. apply run_plus_max; auto with shape.
  rewrite run_cat, run_cls_ok; auto.
  rewrite run_cat. apply run_plus_max; auto using gap_stops_digit.
  apply (@tail_all line (c1 :: d1 ++ DOT :: c2 :: d2 ++ DOT :: c3 :: d3));
    auto.
  - unfold line. now flat.
  - intros prev'. rewrite run_eol_end. now rewrite firstn_whole.
Qed.

Lemma list_item_ok c ds w ws x xs :
  isdecimal c = true -> forallb isdecimal ds = true ->
  isspace w = true -> forallb isspace ws = true ->
  isspace x = false -> ~ In NL (x :: xs) ->
  rmatch pattern_list_item (c :: ds ++ DOT :: w :: ws ++ x :: xs) =
  Some [(2, x :: xs); (1, c :: ds)].
Proof.
  intros C D W Ws X N.
  unfold rmatch, pattern_list_item. cbn [cats].
  rewrite run_cat, run_bol, run_cat.
  apply (@run_star_max cls_s [] (c :: ds ++ DOT :: w :: ws ++ x :: xs)); auto.
  { cbn. now apply digit_not_space. }
  cbn [after]. rewrite run_cat, run_grp.
  apply run_plus_max; auto with shape. rewrite run_cat, run_cls_ok; auto.
  rewrite run_cat. apply run_plus_max; auto.
  rewrite run_cat, run_grp.
  apply any_all in N. cbn in N. apply andb_true_iff in N. destruct N.
  apply run_plus_all; auto. rewrite run_eol_end. rewrite firstn_whole.
  repeat f_equal. apply (firstn_prefix (c :: ds)).
Qed.

Lemma bullet_ok b ws x xs :
  In b bullet_glyphs -> forallb isspace ws = true ->
  isspace x = false -> ~ In NL (x :: xs) ->
  rmatch pattern_bullet_item (b :: ws ++ x :: xs) = Some [(1, x :: xs)].
Proof.
  intros B Ws X N. destruct (glyph_plain _ B) as [_ [_ [_ [Hb Ht]]]].
  unfold rmatch, pattern_bullet_item. cbn [cats].
  rewrite run_cat, run_bol, run_cat.
  apply (@run_star_max (cls_set [SPACE; TAB]) [] (b :: ws ++ x :: xs)); auto.
  cbn [after]. rewrite run_cat, run_cls_ok; auto.
  rewrite run_cat. apply run_star_max; auto.
  rewrite run_cat, run_grp.
  apply any_all in N. cbn in N. apply andb_true_iff in N. destruct N.
  apply run_plus_all; auto. rewrite run_eol_end. now rewrite firstn_whole.
Qed.

(** ** The loop body as a state machine *)

Lemma loop_body_transition st raw_line :
  loop_body st raw_line = transition st (classify raw_line).
Proof.
  unfold loop_body, classify.
  destruct (strip raw_line) as [|c l]; [reflexivity|].
  destruct st as [pd l1 l2 l3 buf].
  destruct (rmatch pattern_level1 (c :: l));
    [destruct buf; reflexivity|].
  destruct (rmatch pattern_level2 (c :: l));
    [destruct buf; reflexivity|].
  destruct (rmatch pattern_level3 (c :: l));
    [destruct buf; reflexivity|].
  destruct (rmatch pattern_list_item (c :: l));
    [destruct buf; reflexivity|].
  destruct (rmatch pattern_bullet_item raw_line);
    destruct buf; reflexivity.
Qed.

Lemma append_buffered_finalize st :
  append_buffered (finalize st) = append_buffered st.
Proof. reflexivity. Qed.

Lemma transition_finalize st c :
  is_continuation c = false -> transition st c = transition (finalize st) c.
Proof. destruct c; cbn; intros H; try reflexivity. discriminate. Qed.

Lemma transition_buffer st c :
  is_continuation c = false ->
  current_list_item_buffer (transition st c) = item_start c.
Proof. destruct c; cbn; intros H; try reflexivity. discriminate. Qed.

Lemma transition_grows st c :
  exists more, parsed_data (transition st c) = parsed_data st ++ more.
Proof.
  destruct st as [pd l1 l2 l3 [it|]]; destruct c; cbn;
    eauto using app_nil_r; try (rewrite <- app_assoc; eauto);
    try (now exists []; rewrite app_nil_r).
Qed.

Lemma run_lines_cons st l lines :
  run_lines st (l :: lines) = run_lines (loop_body st l) lines.
Proof. reflexivity. Qed.

Lemma run_lines_grows lines : forall st,
  exists more, parsed_data (run_lines st lines) = parsed_data st ++ more.
Proof.
  induction lines as [|l lines IH]; intros st.
  - exists []. cbn. now rewrite app_nil_r.
  - rewrite run_lines_cons.
    destruct (IH (loop_body st l)) as [m1 E1]. rewrite E1.
    rewrite loop_body_transition.
    destruct (transition_grows st (classify l)) as [m2 E2]. rewrite E2.
    exists (m2 ++ m1). now rewrite app_assoc.
Qed.

Lemma append_buffered_grows st :
  exists more, append_buffered st = parsed_data st ++ more.
Proof.
  unfold append_buffered. destruct (current_list_item_buffer st); eauto.
  exists []. now rewrite app_nil_r.
Qed.

Lemma run_lines_app st a b :
  run_lines st (a ++ b) = run_lines (run_lines st a) b.
Proof. apply fold_left_app. Qed.

(** Continuation lines lengthen the pending description and touch
    nothing else. *)
Lemma run_continuations conts : forall st it,
  current_list_item_buffer st = Some it ->
  Forall (fun l => is_continuation (classify l) = true) conts ->
  let st' := run_lines st conts in
  parsed_data st' = parsed_data st /\ context st' = context st /\
  current_list_item_buffer st' =
    Some (mkItem (number it)
                 (description it ++
                  concat (map (fun l => SPACE :: strip l) conts))).
Proof.
  induction conts as [|l conts IH]; intros st it B F.
  - cbn. rewrite app_nil_r. destruct it. auto.
  - rewrite run_lines_cons. inversion F as [|? ? Hl F']; subst.
    assert (T : loop_body st l =
                mkLocals (parsed_data st) (current_level1 st)
                  (current_level2 st) (current_level3 st)
                  (Some (mkItem (number it)
                                (description it ++ [SPACE] ++ strip l)))).
    { rewrite loop_body_transition. unfold classify in *.
      destruct (strip l); [discriminate|].
      repeat (match goal with
              | H : is_continuation (match ?m with _ => _ end) = true |- _ =>
                  destruct m; [discriminate|]
              end).
      cbn. now rewrite B. }
    rewrite T. clear T.
    match goal with
    | |- context [run_lines ?s conts] =>
        destruct (IH s (mkItem (number it)
                               (description it ++ [SPACE] ++ strip l))
                     eq_refl F') as [P [C Bf]]
    end.
    cbn in *. rewrite P, C, Bf. cbn. rewrite <- app_assoc. auto.
Qed.

Lemma split_none sep s : ~ In sep s -> split sep s = [s].
Proof.
  induction s as [|c s IH]; cbn; auto. intros H.
  destruct (N.eqb_spec c sep) as [-> | Hne]; [exfalso; auto|].
  rewrite IH; auto.
Qed.

Lemma strip_led b t : isspace b = false -> exists t', strip (b :: t) = b :: t'.
Proof.
  intros Hb. unfold strip, rstrip. cbn [lstrip]. rewrite Hb. cbn [rev].
  destruct (lstrip_app_keep (rev t) b Hb) as [a Ha]. rewrite Ha.
  rewrite rev_app_distr. cbn. eauto.
Qed.

(** ** Numbered lines and headings *)

(** What the loop does with a line of the form [N. text]. *)
Lemma numbered_line raw ds text :
  numbered_form (strip raw) ds text ->
  rmatch pattern_level1 (strip raw) = None /\
  rmatch pattern_level2 (strip raw) = None /\
  rmatch pattern_level3 (strip raw) = None /\
  rmatch pattern_list_item (strip raw) = Some [(2, text); (1, ds)].
Proof.
  intros [ws [E [Hds [D [Hws [W [Ht [St N]]]]]]]]. rewrite E in *.
  destruct ds as [|c ds]; [congruence|]. destruct ws as [|w ws]; [congruence|].
  destruct text as [|x xs]; [congruence|].
  cbn in D, W, St. apply andb_true_iff in D. destruct D as [C D].
  apply andb_true_iff in W. destruct W as [W Ws].
  cbn [app]. repeat split.
  - now apply level1_dot.
  - now apply level2_space.
  - now apply level3_space.
  - apply list_item_ok; auto. intros Hin. apply N. cbn [app].
    right. apply in_or_app. right. right. right. apply in_or_app. now right.
Qed.

Lemma all_any (s : str) : forallb cls_any s = true -> ~ In NL s.
Proof.
  intros F H. rewrite forallb_forall in F. specialize (F _ H).
  discriminate.
Qed.

Lemma numbered_classify raw ds text :
  numbered_form (strip raw) ds text ->
  classify raw = NumberedItem ds text.
Proof.
  intros Hf. destruct (numbered_line _ _ _ Hf) as [M1 [M2 [M3 M4]]].
  unfold classify. destruct (strip raw) as [|c l] eqn:L.
  - destruct Hf as [ws [E [Hds _]]]. destruct ds; [congruence | discriminate].
  - now rewrite M1, M2, M3, M4.
Qed.

Ltac some_text_form :=
  exists [SPACE]; repeat split;
  [ discriminate | discriminate | discriminate
  | apply all_any; vm_compute; reflexivity ].

(** C1, as stated: a trimmed line of the form [N. text] is absorbed as a
    heading. The line [3. Some text] has that form and is not: it is
    classified as a numbered item, and parsing it gives an item row. *)
Lemma numbered_line_not_absorbed_as_heading :
  numbered_form (strip some_text_line) (lit "3") (lit "Some text") /\
  is_heading (classify some_text_line) = false /\
  classify some_text_line = NumberedItem (lit "3") (lit "Some text") /\
  parse_rows some_text_line = [mkRow [] [] [] (lit "3") (lit "Some text")].
Proof.
  split; [some_text_form|]. repeat split; vm_compute; reflexivity.
Qed.

(** C1, amended: for every line whose trimmed form is [N. text] (one or
    more digits, a period, whitespace, then text), none of the three
    heading patterns matches, although they are tested first; the line is
    classified as a numbered list item with number [N] and description
    [text], and the loop body writes no heading row: it flushes the
    pending item, keeps the heading context and buffers the new item. *)
Theorem numbered_line_is_list_item raw ds text :
  numbered_form (strip raw) ds text ->
  first_heading [L1; L2; L3] (strip raw) = None /\
  classify raw = NumberedItem ds text /\
  forall st,
    loop_body st raw =
    mkLocals (append_buffered st) (current_level1 st) (current_level2 st)
             (current_level3 st) (Some (mkItem ds text)).
Proof.
  intros Hf. destruct (numbered_line _ _ _ Hf) as [M1 [M2 [M3 _]]].
  repeat split.
  - cbn [first_heading heading_pattern]. now rewrite M1, M2, M3.
  - now apply numbered_classify.
  - intros st. rewrite loop_body_transition.
    now rewrite (numbered_classify _ _ _ Hf).
Qed.

Lemma numbered_line_is_list_item_witness :
  numbered_form (strip some_text_line) (lit "3") (lit "Some text") /\
  (first_heading [L1; L2; L3] (strip some_text_line) = None /\
   classify some_text_line = NumberedItem (lit "3") (lit "Some text") /\
   forall st,
     loop_body st some_text_line =
     mkLocals (append_buffered st) (current_level1 st) (current_level2 st)
              (current_level3 st)
              (Some (mkItem (lit "3") (lit "Some text")))).
Proof.
  split; [some_text_form|].
  apply (numbered_line_is_list_item some_text_line). some_text_form.
Defined.

(** ** Three-segment lines *)

Lemma dotted_line line m :
  stops isspace line -> stops isspace (rev line) -> ~ In NL line ->
  rmatch spec_heading3 line = Some m ->
  rmatch pattern_level1 line = None /\
  rmatch pattern_level2 line = None /\
  rmatch pattern_level3 line = Some [(1, line)].
Proof.
  intros Sl Sr N H. apply spec_heading3_inv in H.
  destruct H
    as [c1 [d1 [c2 [d2 [c3 [d3 [v [E [C1 [D1 [C2 [D2 [C3 [D3 G]]]]]]]]]]]]]].
  subst line. repeat split.
  - now apply level1_dot.
  - now apply level2_dot.
  - now apply level3_ok.
Qed.

Lemma first_heading_level3 line order :
  rmatch pattern_level1 line = None -> rmatch pattern_level2 line = None ->
  rmatch pattern_level3 line = Some [(1, line)] ->
  In L3 order -> first_heading order line = Some (L3, line).
Proof.
  intros M1 M2 M3. induction order as [|l order IH]; intros Hin.
  - destruct Hin.
  - destruct l; cbn [first_heading heading_pattern].
    + rewrite M1. destruct Hin as [Hin | Hin]; [discriminate | auto].
    + rewrite M2. destruct Hin as [Hin | Hin]; [discriminate | auto].
    + rewrite M3. reflexivity.
Qed.

(** C3. Every line of every text whose trimmed form matches the
    three-segment pattern (three runs of digits separated by periods,
    then optionally whitespace and text) matches neither the level-1 nor
    the level-2 pattern; it is classified as Heading3 and a heading-3 row
    is written, whatever the order in which the three heading patterns
    are tried. *)
Theorem three_segment_line_is_heading3 pdf_text raw :
  In raw (split NL pdf_text) ->
  truthy (rmatch spec_heading3 (strip raw)) = true ->
  rmatch pattern_level1 (strip raw) = None /\
  rmatch pattern_level2 (strip raw) = None /\
  (forall order, In L3 order ->
                 first_heading order (strip raw) = Some (L3, strip raw)) /\
  classify raw = Heading3 (strip raw) /\
  forall st,
    loop_body st raw =
    mkLocals (append_buffered st ++
                [mkRow (current_level1 st) (current_level2 st) (strip raw)
                       [] []])
             (current_level1 st) (current_level2 st) (strip raw) None.
Proof.
  intros Hin Hm. destruct (rmatch spec_heading3 (strip raw)) as [m|] eqn:H;
    [clear Hm | discriminate].
  assert (N : ~ In NL (strip raw)).
  { intros HN. apply strip_incl in HN. revert HN. eapply split_no_sep; eauto. }
  destruct (dotted_line _ _ (strip_stops_l raw) (strip_stops_r raw) N H)
    as [M1 [M2 M3]].
  assert (C : classify raw = Heading3 (strip raw)).
  { unfold classify. destruct (strip raw) as [|c l] eqn:L.
    - discriminate.
    - now rewrite M1, M2, M3. }
  repeat split; auto.
  - intros order. now apply first_heading_level3.
  - intros st. rewrite loop_body_transition. now rewrite C.
Qed.

Lemma three_segment_line_is_heading3_witness :
  In deep_line (split NL deep_line) /\
  truthy (rmatch spec_heading3 (strip deep_line)) = true /\
  classify deep_line = Heading3 (strip deep_line).
Proof.
  assert (A : In deep_line (split NL deep_line)) by (vm_compute; auto).
  assert (B : truthy (rmatch spec_heading3 (strip deep_line)) = true)
    by (vm_compute; reflexivity).
  split; [exact A | split; [exact B |]].
  destruct (three_segment_line_is_heading3 deep_line deep_line A B)
    as [_ [_ [_ [C _]]]].
  exact C.
Defined.

(** ** Worked examples and the heading rules *)

(** C2. Parsing the text made of the lines [2.<TAB>First item],
    [more detail], an empty line and [3. Second item] writes exactly two
    rows: item [2] with description [First item more detail], where the
    continuation line follows the first line after exactly one space,
    then item [3] with description [Second item]. *)
Theorem two_items_with_continuation :
  parse_rows two_items_text =
  [mkRow [] [] [] (lit "2") (lit "First item more detail");
   mkRow [] [] [] (lit "3") (lit "Second item")].
Proof. vm_compute. reflexivity. Qed.

(** C7. Parsing [1 Introduction], an empty line, [1.1 Overview] writes
    exactly a heading-1 row with only level1 set, then a heading-2 row
    that carries level1 down and leaves level3 empty; and in any state, a
    heading of level N replaces level N, empties the deeper levels,
    keeps the shallower ones and writes a row with that context. *)
Theorem heading_replaces_level_and_resets_deeper :
  parse_rows intro_overview_text =
  [mkRow (lit "1 Introduction") [] [] [] [];
   mkRow (lit "1 Introduction") (lit "1.1 Overview") [] [] []] /\
  forall st raw t,
    (classify raw = Heading1 t ->
     context (loop_body st raw) = (t, [], []) /\
     parsed_data (loop_body st raw) =
       append_buffered st ++ [mkRow t [] [] [] []]) /\
    (classify raw = Heading2 t ->
     context (loop_body st raw) = (current_level1 st, t, []) /\
     parsed_data (loop_body st raw) =
       append_buffered st ++ [mkRow (current_level1 st) t [] [] []]) /\
    (classify raw = Heading3 t ->
     context (loop_body st raw) =
       (current_level1 st, current_level2 st, t) /\
     parsed_data (loop_body st raw) =
       append_buffered st ++
       [mkRow (current_level1 st) (current_level2 st) t [] []]).
Proof.
  split; [vm_compute; reflexivity|].
  intros st raw t. rewrite loop_body_transition.
  split; [|split]; intros ->; split; reflexivity.
Qed.

Lemma heading_replaces_level_and_resets_deeper_witness :
  let st := loop_body initial (lit "1 Introduction") in
  let raw := lit "1.1 Overview" in
  classify raw = Heading2 raw /\
  context (loop_body st raw) = (lit "1 Introduction", raw, []).
Proof.
  intros st raw.
  assert (C : classify raw = Heading2 raw) by (vm_compute; reflexivity).
  split; [exact C|].
  destruct heading_replaces_level_and_resets_deeper as [_ H].
  destruct (H st raw raw) as [_ [H2 _]].
  destruct (H2 C) as [Hc _]. exact Hc.
Defined.

(** ** Bullet items *)

Lemma bullet_line b ws text :
  In b bullet_glyphs -> forallb isspace ws = true ->
  text <> [] -> stops isspace text -> ~ In NL text ->
  classify (b :: ws ++ text) = BulletItem text.
Proof.
  intros B Ws Ht St N. destruct text as [|x xs]; [congruence|]. cbn in St.
  destruct (glyph_plain _ B) as [Hs [Hd _]].
  destruct (strip_led b (ws ++ x :: xs) Hs) as [t' E].
  destruct (plain_start b t' Hs Hd) as [M1 [M2 [M3 M4]]].
  pose proof (bullet_ok b ws x xs B Ws St N) as M5.
  unfold classify. now rewrite E, M1, M2, M3, M4, M5.
Qed.

(** C9. Parsing the single line [• Buy milk] writes exactly one row,
    with item number [•], description [Buy milk] and no heading; a line
    made of any glyph of the bullet set, any run of whitespace and a
    text gives the same kind of row, with [•] as its item number; and
    whenever the bullet branch is taken the buffered designator is
    [•]. *)
Theorem bullet_items_carry_the_bullet_glyph :
  parse_rows buy_milk_text = [mkRow [] [] [] BULLET (lit "Buy milk")] /\
  (forall b ws text,
     In b bullet_glyphs -> forallb isspace ws = true -> ~ In NL ws ->
     text <> [] -> stops isspace text -> ~ In NL text ->
     parse_rows (b :: ws ++ text) = [mkRow [] [] [] BULLET (strip text)]) /\
  (forall st raw d,
     classify raw = BulletItem d ->
     current_list_item_buffer (loop_body st raw) = Some (mkItem BULLET d)).
Proof.
  split; [vm_compute; reflexivity|]. split.
  - intros b ws text B Ws Nw Ht St N. unfold parse_rows.
    rewrite split_none.
    + cbn [run_lines fold_left]. rewrite loop_body_transition.
      now rewrite (bullet_line b ws text B Ws Ht St N).
    + destruct (glyph_plain _ B) as [_ [_ [Ha _]]].
      intros [H | H].
      * subst b. discriminate.
      * apply in_app_or in H. tauto.
  - intros st raw d C. rewrite loop_body_transition. now rewrite C.
Qed.

Lemma bullet_items_carry_the_bullet_glyph_witness :
  let b := 0x2D%N in
  let ws := [SPACE] in
  let text := lit "Buy milk" in
  In b bullet_glyphs /\ forallb isspace ws = true /\ ~ In NL ws /\
  text <> [] /\ stops isspace text /\ ~ In NL text /\
  parse_rows (b :: ws ++ text) = [mkRow [] [] [] BULLET (strip text)].
Proof.
  intros b ws text.
  assert (B : In b bullet_glyphs) by (vm_compute; auto 10).
  assert (Ws : forallb isspace ws = true) by reflexivity.
  assert (Nw : ~ In NL ws) by (apply all_any; vm_compute; reflexivity).
  assert (Ht : text <> []) by discriminate.
  assert (St : stops isspace text) by reflexivity.
  assert (N : ~ In NL text) by (apply all_any; vm_compute; reflexivity).
  repeat (split; [assumption|]).
  destruct bullet_items_carry_the_bullet_glyph as [_ [H _]].
  exact (H b ws text B Ws Nw Ht St N).
Defined.

(** ** The pending item *)

Lemma transition_flushes st c :
  is_continuation c = false ->
  exists more, parsed_data (transition st c) = append_buffered st ++ more.
Proof.
  destruct c; cbn; intros H; eauto; try discriminate;
    exists []; now rewrite app_nil_r.
Qed.

(** An item line followed by continuation lines: the pending item of
    before is written, the headings stay, the new item is pending. *)
Lemma item_run st first conts it0 :
  item_start (classify first) = Some it0 ->
  Forall (fun l => is_continuation (classify l) = true) conts ->
  let st' := run_lines st (first :: conts) in
  parsed_data st' = append_buffered st /\ context st' = context st /\
  current_list_item_buffer st' =
    Some (mkItem (number it0)
                 (description it0 ++
                  concat (map (fun l => SPACE :: strip l) conts))).
Proof.
  intros I F. rewrite run_lines_cons, loop_body_transition.
  assert (T : transition st (classify first) =
              mkLocals (append_buffered st) (current_level1 st)
                       (current_level2 st) (current_level3 st) (Some it0)).
  { destruct (classify first); try discriminate; cbn in *;
      inversion I; reflexivity. }
  rewrite T.
  destruct (run_continuations conts
              (mkLocals (append_buffered st) (current_level1 st)
                        (current_level2 st) (current_level3 st) (Some it0))
              it0 eq_refl F) as [P [C B]].
  cbn in *. auto.
Qed.

(** C4. A pending list item does not outlive a blank line or the start
    of a heading or of another item: such a line is processed as if the
    pending item had first been written and cleared, so afterwards the
    buffer holds nothing or the item that this line starts. For every
    text, an item's row therefore carries the heading context of the
    state in which the item's first line was read, and it comes right
    after the rows written for the lines before it and before the rows
    of the lines after it; rows, once written, keep their place. *)
Theorem pending_item_is_flushed_in_order :
  (forall st raw,
     is_continuation (classify raw) = false ->
     loop_body st raw = loop_body (finalize st) raw /\
     current_list_item_buffer (finalize st) = None /\
     (forall it, current_list_item_buffer st = Some it ->
                 parsed_data (finalize st) =
                 parsed_data st ++ [item_row st it]) /\
     current_list_item_buffer (loop_body st raw) =
       item_start (classify raw)) /\
  (forall pdf_text before first conts rest it0,
     split NL pdf_text = before ++ first :: conts ++ rest ->
     item_start (classify first) = Some it0 ->
     Forall (fun l => is_continuation (classify l) = true) conts ->
     match rest with
     | [] => True
     | r :: _ => is_continuation (classify r) = false
     end ->
     let st := run_lines initial before in
     exists more,
       parse_rows pdf_text =
       append_buffered st ++
       mkRow (current_level1 st) (current_level2 st) (current_level3 st)
             (number it0)
             (strip (description it0 ++
                     concat (map (fun l => SPACE :: strip l) conts)))
       :: more) /\
  (forall pdf_text before rest,
     split NL pdf_text = before ++ rest ->
     exists more,
       parse_rows pdf_text = parsed_data (run_lines initial before) ++ more).
Proof.
  repeat apply conj.
  - intros st raw H. rewrite !loop_body_transition. repeat apply conj.
    + now apply transition_finalize.
    + reflexivity.
    + intros it B. cbn. unfold append_buffered. now rewrite B.
    + now apply transition_buffer.
  - intros pdf_text before first conts rest it0 E I F R st.
    unfold parse_rows. rewrite E.
    change (first :: conts ++ rest) with ((first :: conts) ++ rest).
    rewrite !run_lines_app. fold st.
    destruct (item_run st first conts it0 I F) as [P [C B]].
    set (st2 := run_lines st (first :: conts)) in *.
    assert (A : append_buffered st2 =
                append_buffered st ++
                [mkRow (current_level1 st) (current_level2 st)
                       (current_level3 st) (number it0)
                       (strip (description it0 ++
                               concat (map (fun l => SPACE :: strip l)
                                           conts)))]).
    { unfold append_buffered at 1. rewrite B, P. unfold item_row.
      unfold context in C. inversion C as [[C1 C2 C3]].
      now rewrite C1, C2, C3. }
    destruct rest as [|r rest].
    + exists []. exact A.
    + rewrite run_lines_cons, loop_body_transition.
      destruct (transition_flushes st2 (classify r) R) as [m1 E1].
      destruct (run_lines_grows rest (transition st2 (classify r)))
        as [m2 E2].
      destruct (append_buffered_grows
                  (run_lines (transition st2 (classify r)) rest))
        as [m3 E3].
      rewrite E3, E2, E1, A. rewrite <- !app_assoc. cbn. eauto.
  - intros pdf_text before rest E. unfold parse_rows. rewrite E.
    rewrite run_lines_app.
    destruct (run_lines_grows rest (run_lines initial before)) as [m1 E1].
    destruct (append_buffered_grows
                (run_lines (run_lines initial before) rest)) as [m2 E2].
    rewrite E2, E1. rewrite <- app_assoc. eauto.
Qed.

Lemma pending_item_is_flushed_in_order_witness :
  let before := [lit "1 Intro"] in
  let first := lit "2. First" in
  let conts := [lit "more"] in
  let rest := [lit "1.1 Next"] in
  let it0 := mkItem (lit "2") (lit "First") in
  split NL item_under_heading_text = before ++ first :: conts ++ rest /\
  item_start (classify first) = Some it0 /\
  Forall (fun l => is_continuation (classify l) = true) conts /\
  is_continuation (classify (lit "1.1 Next")) = false /\
  exists more,
    parse_rows item_under_heading_text =
    [mkRow (lit "1 Intro") [] [] [] []] ++
    mkRow (lit "1 Intro") [] [] (lit "2") (lit "First more") :: more.
Proof.
  intros before first conts rest it0.
  assert (E : split NL item_under_heading_text
              = before ++ first :: conts ++ rest) by (vm_compute; reflexivity).
  assert (I : item_start (classify first) = Some it0)
    by (vm_compute; reflexivity).
  assert (F : Forall (fun l => is_continuation (classify l) = true) conts)
    by (repeat constructor).
  assert (R : is_continuation (classify (lit "1.1 Next")) = false)
    by (vm_compute; reflexivity).
  repeat (split; [assumption|]).
  destruct pending_item_is_flushed_in_order as [_ [H _]].
  exact (H item_under_heading_text before first conts rest it0 E I F R).
Defined.

(** ** The runs of a column *)

Lemma str_eqb_eq a : forall b, str_eqb a b = true <-> a = b.
Proof.
  induction a as [|x a IH]; intros [|y b]; cbn; split; intros H;
    try discriminate; auto.
  - apply andb_true_iff in H. destruct H as [H1 H2].
    apply N.eqb_eq in H1. apply IH in H2. congruence.
  - inversion H; subst. rewrite N.eqb_refl. cbn. now apply IH.
Qed.

Lemma differs_false cur t : differs cur t = false -> cur = Some t.
Proof.
  destruct cur as [u|]; cbn; [|discriminate]. intros H.
  apply negb_false_iff in H. apply str_eqb_eq in H. now subst.
Qed.

Lemma differs_true cur t : differs cur t = true -> cur <> Some t.
Proof.
  destruct cur as [u|]; cbn; [|discriminate]. intros H E.
  inversion E; subst. apply negb_true_iff in H.
  assert (str_eqb t t = true) by now apply str_eqb_eq. congruence.
Qed.

Lemma closed_in start last s e :
  In (s, e) (closed start last) <->
  start = Some s /\ e = last /\ s <> 0 /\ s < last.
Proof.
  unfold closed. destruct start as [s0|].
  - destruct (negb (s0 =? 0) && (s0 <? last)) eqn:B.
    + apply andb_true_iff in B. destruct B as [B1 B2].
      apply negb_true_iff in B1. apply Nat.eqb_neq in B1.
      apply Nat.ltb_lt in B2. split.
      * intros [H | []]. inversion H; subst. auto.
      * intros [H [-> _]]. inversion H; subst. now left.
    + split; [intros [] |]. intros [H [-> [H1 H2]]]. inversion H; subst.
      apply Nat.eqb_neq in H1. apply Nat.ltb_lt in H2.
      rewrite H1, H2 in B. discriminate.
  - split; [intros [] | intros [H _]; discriminate].
Qed.

Section Runs.

Variable V : nat -> value.

Lemma same_start hi n t s s' e :
  2 <= s -> s < n -> (forall r, s <= r < n -> V r = Some t) ->
  (s = 2 \/ V (s - 1) <> Some t) ->
  text_run V 2 hi s' e -> s' <= n - 1 -> n - 1 <= e -> s' = s.
Proof.
  intros Hs Hn Ho Hl [L1 [L2 [L3 [[t' [_ Hr]] [Hb _]]]]] A B.
  assert (Et : t' = t).
  { assert (V (n - 1) = Some t) by (apply Ho; lia).
    assert (V (n - 1) = Some t') by (apply Hr; lia). congruence. }
  subst t'.
  destruct (Nat.lt_trichotomy s s') as [Lt | [Eq | Gt]]; auto; exfalso.
  - destruct Hb as [-> | Hb]; [lia|]. apply Hb.
    rewrite (Ho (s' - 1)) by lia. now rewrite (Hr s') by lia.
  - destruct Hl as [-> | Hl]; [lia|]. apply Hl. apply Hr. lia.
Qed.

Lemma closed_sound hi n cur start s e :
  2 <= n -> n - 1 <= hi -> open_inv V n cur start ->
  (forall u, cur = Some u -> n - 1 = hi \/ V n <> Some u) ->
  In (s, e) (closed start (n - 1)) ->
  s < e /\ e = n - 1 /\ text_run V 2 hi s e.
Proof.
  intros Hn Hh I R H. apply closed_in in H. destruct H as [-> [-> [Z L]]].
  unfold open_inv in I. destruct cur as [t|]; [|contradiction].
  destruct I as [I1 [I2 [I3 [I4 I5]]]].
  repeat split; auto; try lia.
  - exists t. split; auto. intros r Hr. apply I4. lia.
  - destruct I5 as [-> | I5]; auto. right. rewrite (I4 s) by lia. exact I5.
  - destruct (R t eq_refl) as [R' | R']; auto. right.
    replace (n - 1 + 1) with n by lia. rewrite (I4 (n - 1)) by lia. exact R'.
Qed.

Lemma closed_complete hi n cur start s e :
  2 <= n -> open_inv V n cur start -> text_run V 2 hi s e ->
  s < e -> e = n - 1 -> In (s, e) (closed start (n - 1)).
Proof.
  intros Hn I T L ->. apply closed_in.
  pose proof T as [T1 [T2 [T3 [[t [Ht Hr]] _]]]].
  unfold open_inv in I. destruct cur as [t0|], start as [s0|];
    try contradiction.
  - destruct I as [I1 [I2 [I3 [I4 I5]]]].
    assert (s = s0) by (eapply same_start; eauto; lia).
    subst s0. repeat split; auto; lia.
  - exfalso. destruct I as [-> | I]; [lia|].
    rewrite (Hr (n - 1)) in I by lia. congruence.
Qed.

Lemma above_differs n cur start t :
  2 <= n -> open_inv V n cur start -> has_text (Some t) = true ->
  cur <> Some t -> n = 2 \/ V (n - 1) <> Some t.
Proof.
  intros Hn I Ht D. unfold open_inv in I.
  destruct cur as [u|], start as [s0|]; try contradiction.
  - destruct I as [I1 [I2 [I3 [I4 I5]]]]. right.
    rewrite (I4 (n - 1)) by lia. congruence.
  - destruct I as [-> | I]; auto. right. congruence.
Qed.

Lemma runs_spec k : forall n cur start,
  2 <= n -> open_inv V n cur start ->
  forall s e, In (s, e) (runs V k n cur start) <->
              s < e /\ n - 1 <= e /\ text_run V 2 (n + k - 1) s e.
Proof.
  induction k as [|k IH]; intros n cur start Hn I s e.
  - cbn [runs]. replace (n + 0 - 1) with (n - 1) by lia. split.
    + intros H. eapply closed_sound in H; eauto. destruct H as [A [B C]].
      split; [exact A | split; [lia | exact C]].
    + intros [A [B C]]. eapply closed_complete; eauto.
      destruct C as [_ [_ [C _]]]. lia.
  - replace (n + S k - 1) with (S n + k - 1) by lia.
    assert (Hn' : 2 <= S n) by lia.
    assert (Hsub : S n - 1 = n) by lia.
    cbn [runs]. destruct (has_text (V n)) eqn:HT.
    + destruct (V n) as [t|] eqn:Vn; [|discriminate].
      destruct (differs cur t) eqn:D.
      * assert (I' : open_inv V (S n) (Some t) (Some n)).
        { unfold open_inv. repeat split; auto.
          - intros r Hr. replace r with n by lia. exact Vn.
          - eapply above_differs; eauto. now apply differs_true. }
        specialize (IH (S n) (Some t) (Some n) Hn' I' s e).
        rewrite Hsub in IH. rewrite in_app_iff, IH. split.
        -- intros [H | H].
           ++ eapply closed_sound with (hi := S n + k - 1) in H; eauto;
                try lia.
              ** destruct H as [A [B C]].
                 split; [exact A | split; [lia | exact C]].
              ** intros u ->. right. apply differs_true in D. congruence.
           ++ destruct H as [A [B C]].
              split; [exact A | split; [lia | exact C]].
        -- intros [A [B C]]. destruct (Nat.eq_dec e (n - 1)) as [E | E].
           ++ left. eapply closed_complete; eauto.
           ++ right. split; [exact A | split; [lia | exact C]].
      * apply differs_false in D. subst cur.
        unfold open_inv in I. destruct start as [s0|]; [|contradiction].
        destruct I as [I1 [I2 [I3 [I4 I5]]]].
        assert (I' : open_inv V (S n) (Some t) (Some s0)).
        { unfold open_inv. repeat split; auto.
          intros r Hr. destruct (Nat.eq_dec r n) as [-> | Hne]; auto.
          apply I4. lia. }
        specialize (IH (S n) (Some t) (Some s0) Hn' I' s e).
        rewrite Hsub in IH. rewrite IH. split.
        -- intros [A [B C]]. split; [exact A | split; [lia | exact C]].
        -- intros [A [B C]]. split; [exact A | split; [| exact C]].
           destruct (Nat.eq_dec e (n - 1)) as [E | E]; [|lia]. exfalso.
           destruct C as [_ [_ [C3 [_ [_ [C6 | C6]]]]]]; [lia|].
           apply C6. subst e. replace (n - 1 + 1) with n by lia.
           rewrite Vn. symmetry. apply I4. lia.
    + assert (I' : open_inv V (S n) None None).
      { unfold open_inv. right. now rewrite Hsub. }
      specialize (IH (S n) None None Hn' I' s e).
      rewrite Hsub in IH. rewrite in_app_iff, IH. split.
      * intros [H | H].
        -- eapply closed_sound with (hi := S n + k - 1) in H; eauto; try lia.
           ++ destruct H as [A [B C]].
              split; [exact A | split; [lia | exact C]].
           ++ intros u ->. right. intros E.
              unfold open_inv in I. destruct start; [|contradiction].
              destruct I as [_ [_ [I3 _]]]. rewrite E in HT. congruence.
        -- destruct H as [A [B C]]. split; [exact A | split; [lia | exact C]].
      * intros [A [B C]]. destruct (Nat.eq_dec e (n - 1)) as [E | E].
        -- left. eapply closed_complete; eauto.
        -- right. split; [exact A | split; [lia | exact C]].
Qed.
End Runs.

Lemma closed_cases start last :
  closed start last = [] \/
  exists s0, start = Some s0 /\ s0 < last /\ closed start last = [(s0, last)].
Proof.
  unfold closed. destruct start as [s0|]; auto.
  destruct (negb (s0 =? 0) && (s0 <? last)) eqn:B; auto.
  right. exists s0. apply andb_true_iff in B. destruct B as [_ B].
  apply Nat.ltb_lt in B. auto.
Qed.

Lemma runs_ext V V' k : forall n cur start,
  (forall r, V r = V' r) -> runs V k n cur start = runs V' k n cur start.
Proof.
  induction k as [|k IH]; intros n cur start E; cbn [runs]; auto.
  rewrite <- E. destruct (has_text (V n)); [destruct (V n) as [t|]|].
  - destruct (differs cur t); [f_equal|]; now apply IH.
  - now apply IH.
  - f_equal. now apply IH.
Qed.

(** The ranges come out top to bottom, each below the one before. *)
Lemma runs_sorted V k : forall n cur start,
  (forall s0, start = Some s0 -> s0 < n) ->
  StronglySorted before (runs V k n cur start) /\
  Forall (fun r => (forall s0, start = Some s0 -> s0 <= fst r) /\
                   (start = None -> n <= fst r) /\ fst r < snd r)
         (runs V k n cur start).
Proof.
  induction k as [|k IH]; intros n cur start B; cbn [runs].
  - destruct (closed_cases start (n - 1)) as [-> | [s0 [-> [L ->]]]].
    + split; constructor.
    + split; repeat constructor; cbn; auto; try discriminate.
      intros ? H. inversion H. lia.
  - assert (Keep : forall cur',
      StronglySorted before (runs V k (S n) cur' start) /\
      Forall (fun r => (forall s0, start = Some s0 -> s0 <= fst r) /\
                       (start = None -> n <= fst r) /\ fst r < snd r)
             (runs V k (S n) cur' start)).
    { intros cur'. destruct (IH (S n) cur' start) as [S1 F1].
      - intros s0 H. specialize (B s0 H). lia.
      - split; auto. eapply Forall_impl; [|exact F1]. cbn.
        intros r [A1 [A2 A3]]. repeat split; auto.
        intros H. specialize (A2 H). lia. }
    assert (New : forall cur' start',
      (start' = Some n \/ start' = None) ->
      StronglySorted before
        (closed start (n - 1) ++ runs V k (S n) cur' start') /\
      Forall (fun r => (forall s0, start = Some s0 -> s0 <= fst r) /\
                       (start = None -> n <= fst r) /\ fst r < snd r)
             (closed start (n - 1) ++ runs V k (S n) cur' start')).
    { intros cur' start' Hs'.
      destruct (IH (S n) cur' start') as [S1 F1].
      { intros s0 H. destruct Hs' as [-> | ->]; inversion H. lia. }
      assert (F2 : Forall (fun r => n <= fst r /\ fst r < snd r)
                          (runs V k (S n) cur' start')).
      { eapply Forall_impl; [|exact F1]. cbn. intros r [A1 [A2 A3]].
        split; auto. destruct Hs' as [-> | ->].
        - now apply A1.
        - specialize (A2 eq_refl). lia. }
      assert (F3 : Forall (fun r => (forall s0, start = Some s0 -> s0 <= fst r)
                                    /\ (start = None -> n <= fst r)
                                    /\ fst r < snd r)
                          (runs V k (S n) cur' start')).
      { eapply Forall_impl; [|exact F2]. cbn. intros r [A1 A2].
        repeat split; auto. intros s0 H. specialize (B s0 H). lia. }
      destruct (closed_cases start (n - 1)) as [-> | [s0 [E [L ->]]]].
      - cbn. auto.
      - cbn [app]. split.
        + constructor; auto. eapply Forall_impl; [|exact F2]. cbn.
          unfold before. cbn. intros r [A1 _]. lia.
        + constructor; auto. cbn. repeat split; auto.
          * intros ? H. rewrite E in H. inversion H. lia.
          * intros H. rewrite E in H. discriminate. }
    destruct (has_text (V n)); [destruct (V n) as [t|]|]; auto.
    destruct (differs cur t); auto.
Qed.

Lemma sorted_apart l :
  StronglySorted before l -> Forall (fun r => fst r < snd r) l ->
  NoDup l /\
  forall a b, In a l -> In b l ->
              (exists r, fst a <= r <= snd a /\ fst b <= r <= snd b) ->
              a = b.
Proof.
  induction 1 as [|x l S IH F]; intros W.
  - split; [constructor | intros ? ? []].
  - inversion W as [|? ? Wx Wl]; subst. destruct (IH Wl) as [N D].
    rewrite Forall_forall in F. split.
    + constructor; auto. intros Hin. specialize (F _ Hin).
      unfold before in F. lia.
    + intros a b [<- | Ha] [<- | Hb] [r [R1 R2]]; auto.
      * specialize (F _ Hb). unfold before in F. lia.
      * specialize (F _ Ha). unfold before in F. lia.
      * apply D; eauto.
Qed.

(** ** Merging on the sheet *)

Lemma nth_error_set_nth {A} k (x : A) : forall l j,
  nth_error (set_nth k x l) j =
  if j =? k then match nth_error l j with
                 | Some _ => Some x
                 | None => None
                 end
  else nth_error l j.
Proof.
  induction k as [|k IH]; intros [|y l] [|j]; cbn; auto;
    try (now destruct (j =? k)).
Qed.

Lemma nth_error_clear_below c s e rows : forall i j,
  nth_error (clear_below c s e i rows) j =
  match nth_error rows j with
  | Some cs => Some (if (s <? S (i + j)) && (S (i + j) <=? e)
                     then set_nth (c - 1) None cs else cs)
  | None => None
  end.
Proof.
  induction rows as [|cs rows IH]; intros i [|j]; cbn [clear_below nth_error];
    auto.
  - now rewrite Nat.add_0_r.
  - rewrite IH. now rewrite Nat.add_succ_r.
Qed.

Lemma length_clear_below c s e rows : forall i,
  length (clear_below c s e i rows) = length rows.
Proof. induction rows as [|cs rows IH]; intros i; cbn; auto. Qed.

Lemma max_row_merge ws c s e : max_row (merge_cells ws c s e) = max_row ws.
Proof. unfold max_row, merge_cells. cbn. now rewrite length_clear_below. Qed.

(** A merge leaves alone the rows outside the range and, for a column
    number from 1, the other columns. *)
Lemma cell_value_merge ws c s e r c' :
  ~ (s < r <= e) \/ (1 <= c /\ c' <> c) ->
  cell_value (merge_cells ws c s e) r c' = cell_value ws r c'.
Proof.
  intros H. destruct r as [|r], c' as [|c']; auto.
  unfold cell_value, merge_cells. cbn [cells].
  rewrite nth_error_clear_below. cbn [Nat.add].
  destruct (nth_error (cells ws) r) as [cs|]; auto.
  destruct ((s <? S r) && (S r <=? e)) eqn:B; auto.
  apply andb_true_iff in B. destruct B as [B1 B2].
  apply Nat.ltb_lt in B1. apply Nat.leb_le in B2.
  destruct H as [H | [H1 H2]]; [lia|].
  rewrite nth_error_set_nth.
  destruct (Nat.eqb_spec c' (c - 1)); [lia | reflexivity].
Qed.

Lemma close_run_merged c sc last :
  merged_cells (close_run c sc last) =
  merged_cells (sheet sc) ++ map (as_range c) (closed (start_row sc) last).
Proof.
  unfold close_run, closed. destruct (start_row sc) as [s|].
  - destruct (negb (s =? 0) && (s <? last)); cbn; auto.
    now rewrite app_nil_r.
  - cbn. now rewrite app_nil_r.
Qed.

Lemma close_run_max_row c sc last :
  max_row (close_run c sc last) = max_row (sheet sc).
Proof.
  unfold close_run. destruct (start_row sc) as [s|]; auto.
  destruct (negb (s =? 0) && (s <? last)); auto using max_row_merge.
Qed.

Lemma close_run_value c sc last r c' :
  last < r \/ (1 <= c /\ c' <> c) ->
  cell_value (close_run c sc last) r c' = cell_value (sheet sc) r c'.
Proof.
  intros H. unfold close_run. destruct (start_row sc) as [s|]; auto.
  destruct (negb (s =? 0) && (s <? last)); auto.
  apply cell_value_merge. destruct H; [left; lia | right; auto].
Qed.

(** The loop on the sheet merges what the scan of the column's values
    lists, and touches nothing else. *)
Lemma scan_refines c ws0 k : forall n sc,
  (forall r, n <= r -> cell_value (sheet sc) r c = cell_value ws0 r c) ->
  let sc' := fold_left (merge_row c) (seq n k) sc in
  merged_cells (close_run c sc' (n + k - 1)) =
    merged_cells (sheet sc) ++
    map (as_range c)
        (runs (fun r => cell_value ws0 r c) k n
              (current_value sc) (start_row sc)) /\
  max_row (close_run c sc' (n + k - 1)) = max_row (sheet sc) /\
  max_row (sheet sc') = max_row (sheet sc) /\
  forall r c', 1 <= c -> c' <> c ->
    cell_value (close_run c sc' (n + k - 1)) r c' = cell_value (sheet sc) r c'.
Proof.
  induction k as [|k IH]; intros n sc Hv sc'.
  - subst sc'. cbn [seq fold_left runs].
    replace (n + 0 - 1) with (n - 1) by lia. repeat split.
    + apply close_run_merged.
    + apply close_run_max_row.
    + intros r c' H1 H2. apply close_run_value. auto.
  - subst sc'. cbn [seq fold_left].
    replace (n + S k - 1) with (S n + k - 1) by lia.
    set (sc1 := merge_row c sc n).
    assert (Step :
      (forall r, S n <= r ->
                 cell_value (sheet sc1) r c = cell_value ws0 r c) /\
      max_row (sheet sc1) = max_row (sheet sc) /\
      (forall r c', 1 <= c -> c' <> c ->
                    cell_value (sheet sc1) r c' = cell_value (sheet sc) r c') /\
      merged_cells (sheet sc1) ++
        map (as_range c)
            (runs (fun r => cell_value ws0 r c) k (S n)
                  (current_value sc1) (start_row sc1)) =
      merged_cells (sheet sc) ++
        map (as_range c)
            (runs (fun r => cell_value ws0 r c) (S k) n
                  (current_value sc) (start_row sc))).
    { subst sc1. unfold merge_row. cbn [runs]. rewrite <- (Hv n) by lia.
      destruct (has_text (cell_value (sheet sc) n c)) eqn:HT.
      - destruct (cell_value (sheet sc) n c) as [t|]; [|discriminate].
        destruct (differs (current_value sc) t);
          cbn [sheet current_value start_row].
        + repeat split.
          * intros r Hr. rewrite close_run_value by (left; lia).
            apply Hv. lia.
          * apply close_run_max_row.
          * intros r c' H1 H2. apply close_run_value. auto.
          * rewrite close_run_merged, map_app. now rewrite app_assoc.
        + repeat split; auto. intros r Hr. apply Hv. lia.
      - cbn [sheet current_value start_row]. repeat split.
        + intros r Hr. rewrite close_run_value by (left; lia).
          apply Hv. lia.
        + apply close_run_max_row.
        + intros r c' H1 H2. apply close_run_value. auto.
        + rewrite close_run_merged, map_app. now rewrite app_assoc. }
    destruct Step as [S1 [S2 [S3 S4]]].
    destruct (IH (S n) sc1 S1) as [A [B [C D]]]. repeat split.
    + rewrite A. exact S4.
    + now rewrite B.
    + now rewrite C.
    + intros r c' H1 H2. rewrite D by auto. now apply S3.
Qed.

Lemma max_row_pos ws : 1 <= max_row ws.
Proof. unfold max_row. lia. Qed.

(** One call of [merge_consecutive_cells]. *)
Lemma merge_column c ws :
  merged_cells (merge_consecutive_cells c ws) =
    merged_cells ws ++ column_ranges ws c /\
  max_row (merge_consecutive_cells c ws) = max_row ws /\
  forall r c', 1 <= c -> c' <> c ->
    cell_value (merge_consecutive_cells c ws) r c' = cell_value ws r c'.
Proof.
  unfold merge_consecutive_cells, column_ranges.
  destruct (Nat.ltb_spec (max_row ws) 2) as [L | L].
  - pose proof (max_row_pos ws). replace (max_row ws - 1) with 0 by lia.
    cbn. rewrite app_nil_r. auto.
  - destruct (scan_refines c ws (max_row ws + 1 - 2) 2 (mkScan ws None None))
      as [A [B [C D]]]; [reflexivity|].
    cbn [sheet current_value start_row] in *.
    cbv zeta in A, B, C, D. rewrite C.
    replace (2 + (max_row ws + 1 - 2) - 1) with (max_row ws) in * by lia.
    replace (max_row ws + 1 - 2) with (max_row ws - 1) in * by lia.
    auto.
Qed.

Lemma column_ranges_spec ws c rg :
  In rg (column_ranges ws c) <->
  range_col rg = c /\ range_start rg < range_end rg /\
  text_run (fun r => cell_value ws r c) 2 (max_row ws)
           (range_start rg) (range_end rg).
Proof.
  unfold column_ranges. rewrite in_map_iff.
  pose proof (max_row_pos ws) as P.
  assert (I : open_inv (fun r => cell_value ws r c) 2 None None)
    by (left; reflexivity).
  pose proof (runs_spec (fun r => cell_value ws r c) (max_row ws - 1)
                        2 None None (le_n 2) I) as R.
  replace (2 + (max_row ws - 1) - 1) with (max_row ws) in R by lia.
  split.
  - intros [[s e] [<- H]]. apply R in H. cbn. tauto.
  - intros [C [L T]]. exists (range_start rg, range_end rg). split.
    + destruct rg. cbn in *. now subst.
    + apply R. split; [exact L | split; [| exact T]].
      destruct T as [T1 [T2 _]]. lia.
Qed.

Lemma NoDup_map_inj {A B} (f : A -> B) l :
  (forall x y, f x = f y -> x = y) -> NoDup l -> NoDup (map f l).
Proof.
  intros Inj. induction 1 as [|x l Hx N IH]; cbn; constructor; auto.
  intros H. apply in_map_iff in H. destruct H as [y [E Hy]].
  apply Inj in E. now subst.
Qed.

Lemma column_ranges_apart ws c :
  NoDup (column_ranges ws c) /\
  forall a b, In a (column_ranges ws c) -> In b (column_ranges ws c) ->
              overlap a b -> a = b.
Proof.
  unfold column_ranges.
  destruct (runs_sorted (fun r => cell_value ws r c) (max_row ws - 1)
                        2 None None) as [S F]; [discriminate|].
  assert (W : Forall (fun r => fst r < snd r)
                     (runs (fun r => cell_value ws r c) (max_row ws - 1)
                           2 None None)).
  { eapply Forall_impl; [|exact F]. cbn. tauto. }
  destruct (sorted_apart _ S W) as [N D]. split.
  - apply NoDup_map_inj; auto.
    intros [s e] [s' e'] H. inversion H. reflexivity.
  - intros a b Ha Hb [_ [r [R1 R2]]].
    apply in_map_iff in Ha. destruct Ha as [x [<- Hx]].
    apply in_map_iff in Hb. destruct Hb as [y [<- Hy]].
    f_equal. apply D; auto. exists r. cbn in *. auto.
Qed.

Lemma column_ranges_ext ws ws' c :
  max_row ws' = max_row ws ->
  (forall r, cell_value ws' r c = cell_value ws r c) ->
  column_ranges ws' c = column_ranges ws c.
Proof.
  intros M E. unfold column_ranges. rewrite M. f_equal.
  now apply runs_ext.
Qed.

(** The three calls in a row: each column is scanned as it stood before
    any merge. *)
Lemma merge_headings_ranges ws :
  merged_cells (merge_headings ws) =
  merged_cells ws ++ column_ranges ws 1 ++ column_ranges ws 2
               ++ column_ranges ws 3.
Proof.
  unfold merge_headings.
  destruct (merge_column 1 ws) as [A1 [B1 C1]].
  set (ws1 := merge_consecutive_cells 1 ws) in *.
  destruct (merge_column 2 ws1) as [A2 [B2 C2]].
  set (ws2 := merge_consecutive_cells 2 ws1) in *.
  destruct (merge_column 3 ws2) as [A3 [B3 C3]].
  rewrite A3, A2, A1, <- !app_assoc.
  rewrite (column_ranges_ext ws ws1 2), (column_ranges_ext ws ws2 3);
    try congruence; intros r; try (rewrite C2 by lia); apply C1; lia.
Qed.

(** ** The heading texts the parser writes *)

Lemma classify_led raw :
  match classify raw with
  | Heading1 t | Heading2 t | Heading3 t => digit_led t
  | _ => True
  end.
Proof.
  unfold classify. destruct (strip raw) as [|c l]; auto.
  destruct (rmatch pattern_level1 (c :: l)) as [m|] eqn:M1.
  { apply level1_inv in M1. decompose [ex and] M1. assumption. }
  destruct (rmatch pattern_level2 (c :: l)) as [m|] eqn:M2.
  { apply level2_inv in M2. decompose [ex and] M2. assumption. }
  destruct (rmatch pattern_level3 (c :: l)) as [m|] eqn:M3.
  { apply level3_inv in M3. decompose [ex and] M3. assumption. }
  destruct (rmatch pattern_list_item (c :: l)); auto.
  destruct (rmatch pattern_bullet_item raw); auto.
Qed.

Lemma append_buffered_ok st :
  levels_ok st -> Forall row_levels_ok (append_buffered st).
Proof.
  intros [A [B [C D]]]. unfold append_buffered.
  destruct (current_list_item_buffer st) as [it|]; auto.
  apply Forall_app. split; auto. constructor; [|constructor].
  unfold row_levels_ok, item_row. cbn. auto.
Qed.

Lemma transition_levels_ok st raw :
  levels_ok st -> levels_ok (transition st (classify raw)).
Proof.
  intros H. pose proof (append_buffered_ok st H) as Hb.
  pose proof (classify_led raw) as L. destruct H as [A [B [C D]]].
  assert (E : level_text []) by (left; reflexivity).
  assert (R : forall a b c, level_text a -> level_text b -> level_text c ->
                            row_levels_ok (mkRow a b c [] [])).
  { intros a b c Ha Hb' Hc. repeat split; auto. }
  destruct (classify raw); cbn; unfold levels_ok; cbn;
    try (destruct (current_list_item_buffer st); cbn);
    repeat apply conj; auto; try (right; exact L);
    apply Forall_app; split; auto; constructor; auto;
    apply R; auto; right; exact L.
Qed.

Lemma run_lines_levels_ok lines : forall st,
  levels_ok st -> levels_ok (run_lines st lines).
Proof.
  induction lines as [|l lines IH]; intros st H; auto.
  rewrite run_lines_cons. apply IH. rewrite loop_body_transition.
  now apply transition_levels_ok.
Qed.

Lemma parse_rows_levels_ok pdf_text :
  Forall row_levels_ok (parse_rows pdf_text).
Proof.
  unfold parse_rows. apply append_buffered_ok, run_lines_levels_ok.
  repeat split; try (left; reflexivity); try constructor.
Qed.

(** ** Filling the sheet *)

Lemma max_length_pos : 0 < max_length.
Proof.
  unfold max_length. change 32767%N with (N.succ 32766).
  rewrite N2Nat.inj_succ. lia.
Qed.

Lemma has_text_iff t :
  has_text (Some t) = true <-> t <> [] /\ strip t <> [].
Proof.
  unfold has_text. destruct t as [|c t]; [split; [discriminate | tauto]|].
  destruct (strip (c :: t)); split; try discriminate; try tauto.
  intros _. split; discriminate.
Qed.

Lemma digit_led_has_text t : digit_led t -> strip t <> [].
Proof.
  destruct t as [|c t]; [cbn; tauto|]. intros H. cbn in H.
  destruct (strip_led c t (digit_not_space c H)) as [t' E]. rewrite E.
  discriminate.
Qed.

Lemma firstn_led (n : nat) (c : char) (v : str) :
  0 < n -> firstn n (c :: v) = c :: firstn (n - 1) v.
Proof.
  destruct n as [|n]; [lia|]. intros _.
  replace (S n - 1) with n by lia. reflexivity.
Qed.

Lemma check_string_level v v' :
  check_string v = Returned v' -> level_text v -> v' <> [] -> strip v' <> [].
Proof.
  unfold check_string. set (w := firstn max_length v).
  destruct (existsb illegal_character w); [discriminate|].
  intros E. injection E as <-. subst w. intros [-> | L] Hne.
  - rewrite firstn_nil in Hne. congruence.
  - apply digit_led_has_text. destruct v as [|c v]; [contradiction|].
    rewrite (firstn_led max_length c v max_length_pos). exact L.
Qed.

Lemma append_ok ws r ws' :
  append ws (row_values r) = Returned ws' ->
  row_levels_ok r -> Forall heading_cells_ok (cells ws) ->
  merged_cells ws' = merged_cells ws /\ Forall heading_cells_ok (cells ws').
Proof.
  unfold append, row_values. cbn [bind_values bind].
  destruct (check_string (level1 r)) as [v1|] eqn:E1; [|discriminate].
  destruct (check_string (level2 r)) as [v2|] eqn:E2; [|discriminate].
  destruct (check_string (level3 r)) as [v3|] eqn:E3; [|discriminate].
  destruct (check_string (item_no r)) as [v4|] eqn:E4; [|discriminate].
  destruct (check_string (item_desc r)) as [v5|] eqn:E5; [|discriminate].
  cbn. intros H [L1 [L2 L3]] F. inversion H; subst. cbn. split; auto.
  apply Forall_app. split; auto. constructor; [|constructor].
  intros c t Hc Hn. destruct c as [|[|[|c]]]; cbn in Hn; try lia;
    inversion Hn; subst; eauto using check_string_level.
Qed.

Lemma append_all_ok rows : forall ws ws',
  append_all ws rows = Returned ws' ->
  Forall row_levels_ok rows -> Forall heading_cells_ok (cells ws) ->
  merged_cells ws' = merged_cells ws /\ Forall heading_cells_ok (cells ws').
Proof.
  induction rows as [|r rows IH]; intros ws ws' H F G; cbn in H.
  - inversion H; subst. auto.
  - inversion F as [|? ? Fr Frs]; subst.
    destruct (append ws (row_values r)) as [ws1|] eqn:E; [|discriminate].
    cbn in H. destruct (append_ok ws r ws1 E Fr G) as [M1 G1].
    destruct (IH ws1 ws' H Frs G1) as [M2 G2]. split; congruence.
Qed.

Lemma header_sheet_filled :
  append Workbook_active headers = Returned header_sheet.
Proof. vm_compute. reflexivity. Qed.

Lemma filled_sheet_ok pdf_text ws :
  filled_sheet pdf_text = Returned ws ->
  merged_cells ws = [] /\ Forall heading_cells_ok (cells ws).
Proof.
  unfold filled_sheet. rewrite header_sheet_filled. cbn [bind]. intros H.
  apply append_all_ok in H; auto using parse_rows_levels_ok.
  constructor; [|constructor].
  intros c t Hc Hn. destruct c as [|[|[|c]]]; cbn in Hn; try lia;
    inversion Hn; subst; intros _; vm_compute; discriminate.
Qed.

Lemma check_string_cut v v' :
  check_string v = Returned v' -> v' = firstn max_length v.
Proof.
  unfold check_string. set (w := firstn max_length v).
  destruct (existsb illegal_character w); [discriminate|].
  intros E. now injection E as <-.
Qed.

Lemma append_all_cells rows : forall ws ws',
  append_all ws rows = Returned ws' ->
  cells ws' = cells ws ++ map sheet_row rows.
Proof.
  induction rows as [|r rows IH]; intros ws ws' H; cbn in H.
  - inversion H; subst. cbn. now rewrite app_nil_r.
  - destruct (append ws (row_values r)) as [ws1|] eqn:E; [|discriminate].
    cbn in H. rewrite (IH ws1 ws' H). cbn [map].
    change (sheet_row r :: map sheet_row rows)
      with ([sheet_row r] ++ map sheet_row rows).
    rewrite app_assoc. f_equal.
    unfold append, row_values in E. cbn [bind_values bind] in E.
    destruct (check_string (level1 r)) as [v1|] eqn:E1; [|discriminate].
    destruct (check_string (level2 r)) as [v2|] eqn:E2; [|discriminate].
    destruct (check_string (level3 r)) as [v3|] eqn:E3; [|discriminate].
    destruct (check_string (item_no r)) as [v4|] eqn:E4; [|discriminate].
    destruct (check_string (item_desc r)) as [v5|] eqn:E5; [|discriminate].
    cbn in E. inversion E; subst. cbn [cells].
    apply check_string_cut in E1, E2, E3, E4, E5. subst.
    reflexivity.
Qed.

Lemma filled_sheet_cells pdf_text ws :
  filled_sheet pdf_text = Returned ws ->
  cells ws = map Some headers :: map sheet_row (parse_rows pdf_text).
Proof.
  unfold filled_sheet. rewrite header_sheet_filled. cbn [bind]. intros H.
  now rewrite (append_all_cells _ _ _ H).
Qed.

Lemma heading_cells_no_blank ws c :
  Forall heading_cells_ok (cells ws) -> 1 <= c <= 3 -> no_blank_text ws c.
Proof.
  intros F Hc r t Hv. unfold cell_value in Hv.
  destruct r as [|r]; [discriminate|]. destruct c as [|c]; [lia|].
  destruct (nth_error (cells ws) r) as [cs|] eqn:Er; [|discriminate].
  destruct (nth_error cs c) as [v|] eqn:Ec; [|discriminate]. subst v.
  rewrite Forall_forall in F. apply nth_error_In in Er.
  apply (F cs Er c t); auto. lia.
Qed.

Lemma text_run_maximal ws c s e :
  no_blank_text ws c ->
  (text_run (fun r => cell_value ws r c) 2 (max_row ws) s e <->
   maximal_run ws c s e).
Proof.
  intros NB. unfold text_run, maximal_run, is_run. split.
  - intros [A [B [C [[t [Ht Hr]] [D E]]]]]. apply has_text_iff in Ht.
    destruct Ht as [Ht _].
    assert (X : exists t0, t0 <> [] /\
                  forall r, s <= r <= e -> cell_value ws r c = Some t0)
      by (exists t; auto).
    tauto.
  - intros [[A [B [C [t [Ht Hr]]]]] [D E]].
    assert (X : exists t0, has_text (Some t0) = true /\
                  forall r, s <= r <= e -> cell_value ws r c = Some t0).
    { exists t. split; auto. apply has_text_iff. split; auto.
      apply (NB s t); auto; apply Hr; lia. }
    tauto.
Qed.

(** ** The merge engine *)

(** C5. In a column whose data rows hold A, A, empty, A the scan merges
    rows 2-3 and nothing else, so the last A stays alone; and for every
    sheet and column, the ranges a scan adds are made of rows that all
    hold the same text, none of them empty: an empty row closes the run
    above it and opens none, and equal values on both sides of it are
    never merged together. *)
Theorem empty_value_ends_the_run :
  merged_cells (merge_consecutive_cells 1 aaea_sheet) = [mkRange 1 2 3] /\
  forall ws c,
    exists added,
      merged_cells (merge_consecutive_cells c ws) = merged_cells ws ++ added /\
      forall rg, In rg added ->
        range_col rg = c /\ range_start rg < range_end rg /\
        forall r, range_start rg <= r <= range_end rg ->
          has_text (cell_value ws r c) = true /\
          cell_value ws r c <> None /\ cell_value ws r c <> Some [] /\
          cell_value ws r c = cell_value ws (range_start rg) c.
Proof.
  split; [vm_compute; reflexivity|]. intros ws c.
  exists (column_ranges ws c). destruct (merge_column c ws) as [A _].
  split; [exact A|]. intros rg H. apply column_ranges_spec in H.
  destruct H as [C [L [T1 [T2 [T3 [[t [Ht Hr]] _]]]]]].
  split; [exact C | split; [exact L |]]. intros r R.
  rewrite (Hr r R), (Hr (range_start rg)) by lia.
  split; [exact Ht | split; [discriminate | split; [| reflexivity]]].
  intros E. inversion E; subst. discriminate.
Qed.

Lemma heading_ranges_in ws rg :
  In rg (column_ranges ws 1 ++ column_ranges ws 2 ++ column_ranges ws 3) <->
  (range_col rg = 1 \/ range_col rg = 2 \/ range_col rg = 3) /\
  In rg (column_ranges ws (range_col rg)).
Proof.
  rewrite !in_app_iff. split.
  - intros [H | [H | H]]; pose proof H as H';
      apply column_ranges_spec in H'; destruct H' as [C _]; rewrite C; auto.
  - intros [[C | [C | C]] H]; rewrite C in H; auto.
Qed.

Lemma heading_ranges_apart ws :
  NoDup (column_ranges ws 1 ++ column_ranges ws 2 ++ column_ranges ws 3) /\
  forall a b,
    In a (column_ranges ws 1 ++ column_ranges ws 2 ++ column_ranges ws 3) ->
    In b (column_ranges ws 1 ++ column_ranges ws 2 ++ column_ranges ws 3) ->
    overlap a b -> a = b.
Proof.
  split.
  - apply NoDup_app; [apply column_ranges_apart | apply NoDup_app |];
      try apply column_ranges_apart.
    + intros a H1 H2. apply column_ranges_spec in H1, H2.
      destruct H1 as [C1 _], H2 as [C2 _]. congruence.
    + intros a H1 H2. apply column_ranges_spec in H1.
      apply in_app_iff in H2.
      destruct H2 as [H2 | H2]; apply column_ranges_spec in H2;
        destruct H1 as [C1 _], H2 as [C2 _]; congruence.
  - intros a b Ha Hb O. apply heading_ranges_in in Ha, Hb.
    destruct Ha as [_ Ha], Hb as [_ Hb]. pose proof O as [C _].
    rewrite <- C in Hb.
    now apply (proj2 (column_ranges_apart ws (range_col a))).
Qed.

(** C6, amended: the runs are runs of the values the sheet stores, and a
    cell stores the first 32767 characters of a record's value. For
    every text whose rows the sheet accepts, the sheet holds the header
    and one row per record, each value cut to that length, and a range
    is merged in a heading column exactly when it is a maximal run of
    one non-empty stored value over at least two rows of that column as
    it was filled (a run of one row is never merged); no range is merged
    twice and two merged ranges of one column never share a row. *)
Theorem merged_ranges_are_the_long_maximal_runs pdf_text ws :
  filled_sheet pdf_text = Returned ws ->
  cells ws = map Some headers :: map sheet_row (parse_rows pdf_text) /\
  parse_text_to_excel_with_merging pdf_text = Returned (merge_headings ws) /\
  (forall rg,
     In rg (merged_cells (merge_headings ws)) <->
     (range_col rg = 1 \/ range_col rg = 2 \/ range_col rg = 3) /\
     range_start rg < range_end rg /\
     maximal_run ws (range_col rg) (range_start rg) (range_end rg)) /\
  NoDup (merged_cells (merge_headings ws)) /\
  (forall a b,
     In a (merged_cells (merge_headings ws)) ->
     In b (merged_cells (merge_headings ws)) ->
     overlap a b -> a = b).
Proof.
  intros H. destruct (filled_sheet_ok pdf_text ws H) as [M F].
  rewrite merge_headings_ranges, M. cbn [app].
  split; [now apply filled_sheet_cells|].
  split; [unfold parse_text_to_excel_with_merging; now rewrite H|].
  split; [|apply heading_ranges_apart].
  intros rg. rewrite heading_ranges_in, column_ranges_spec. split.
  - intros [C [_ [L T]]]. split; [exact C | split; [exact L |]].
    apply text_run_maximal; auto. apply heading_cells_no_blank; auto. lia.
  - intros [C [L T]]. split; [exact C | split; [reflexivity | split; auto]].
    apply text_run_maximal; auto. apply heading_cells_no_blank; auto. lia.
Qed.

Lemma merged_ranges_are_the_long_maximal_runs_witness :
  filled_sheet outline_text = Returned outline_sheet /\
  merged_cells (merge_headings outline_sheet) =
    [mkRange 1 2 6; mkRange 2 5 6] /\
  maximal_run outline_sheet 1 2 6 /\
  NoDup (merged_cells (merge_headings outline_sheet)).
Proof.
  assert (H : filled_sheet outline_text = Returned outline_sheet)
    by (vm_compute; reflexivity).
  assert (M : merged_cells (merge_headings outline_sheet) =
              [mkRange 1 2 6; mkRange 2 5 6]) by (vm_compute; reflexivity).
  destruct (merged_ranges_are_the_long_maximal_runs outline_text
              outline_sheet H) as [_ [_ [R [N _]]]].
  split; [exact H | split; [exact M | split; [| exact N]]].
  destruct (R (mkRange 1 2 6)) as [R1 _].
  assert (I : In (mkRange 1 2 6) (merged_cells (merge_headings outline_sheet)))
    by (rewrite M; left; reflexivity).
  destruct (R1 I) as [_ [_ X]]. exact X.
Defined.

(** C10. When parsing a text writes no row, the function still returns:
    the sheet it saves holds the header row of five cells, [Level 1
    Heading] to [List Item Description], and no merged range, because
    each call of the merge routine finds fewer than two rows and returns
    the sheet as it is. *)
Theorem no_rows_gives_the_header_sheet pdf_text :
  parse_rows pdf_text = [] ->
  parse_text_to_excel_with_merging pdf_text = Returned header_sheet /\
  cells header_sheet =
    [[Some (lit "Level 1 Heading"); Some (lit "Level 2 Heading");
      Some (lit "Level 3 Heading"); Some (lit "List Item No.");
      Some (lit "List Item Description")]] /\
  merged_cells header_sheet = [] /\
  (max_row header_sheet <? 2) = true /\
  forall c, merge_consecutive_cells c header_sheet = header_sheet.
Proof.
  intros H. unfold parse_text_to_excel_with_merging, filled_sheet.
  rewrite header_sheet_filled, H. repeat split.
Qed.

Lemma no_rows_gives_the_header_sheet_witness :
  parse_rows (lit "hello") = [] /\
  parse_text_to_excel_with_merging (lit "hello") = Returned header_sheet.
Proof.
  assert (H : parse_rows (lit "hello") = []) by (vm_compute; reflexivity).
  split; [exact H|].
  destruct (no_rows_gives_the_header_sheet (lit "hello") H) as [R _].
  exact R.
Defined.

(** ** The entry point *)

Section BoundaryProperties.

Variable PYMUPDF_AVAILABLE : bool.
Variable b64decode : str -> outcome str.
Variable fitz_text : str -> outcome str.
Variable pypdf2_text : str -> outcome str.
Variable save_b64 : worksheet -> str.

(** The fallback is tried once: a depth of two is never exhausted. *)
Lemma extract_terminates n payload method :
  exists o,
    extract_text_from_pdf_eel PYMUPDF_AVAILABLE b64decode fitz_text
      pypdf2_text (2 + n) payload method = Some o.
Proof.
  cbn [Nat.add extract_text_from_pdf_eel].
  destruct (try_extract PYMUPDF_AVAILABLE b64decode fitz_text pypdf2_text
                        payload method) as [m [t | e]]; eauto.
  destruct (str_eqb m PYMUPDF && PYMUPDF_AVAILABLE); eauto.
  unfold try_extract. destruct (b64decode payload) as [bytes | e'];
    cbn; eauto.
  destruct (pypdf2_text bytes); cbn; eauto.
Qed.

(** What the caller gets when the extraction raises, and when the
    extracted text is blank. *)
Lemma entry_error_replies depth payload name :
  (forall e,
     extract_text_from_pdf_eel PYMUPDF_AVAILABLE b64decode fitz_text
       pypdf2_text depth payload AUTO = Some (Raised e) ->
     parse_pdf_data_to_excel_eel PYMUPDF_AVAILABLE b64decode fitz_text
       pypdf2_text save_b64 depth payload name
     = Some (Returned (Error e))) /\
  (forall text,
     extract_text_from_pdf_eel PYMUPDF_AVAILABLE b64decode fitz_text
       pypdf2_text depth payload AUTO = Some (Returned text) ->
     strip text = [] ->
     parse_pdf_data_to_excel_eel PYMUPDF_AVAILABLE b64decode fitz_text
       pypdf2_text save_b64 depth payload name
     = Some (Returned (Error NO_TEXT))).
Proof.
  unfold parse_pdf_data_to_excel_eel. split.
  - intros e ->. reflexivity.
  - intros text -> ->. reflexivity.
Qed.

(** What the caller gets when there is text: the workbook if the parse
    returns one, and the exception of the parse otherwise. *)
Lemma entry_parse_outcome depth payload name text :
  extract_text_from_pdf_eel PYMUPDF_AVAILABLE b64decode fitz_text
    pypdf2_text depth payload AUTO = Some (Returned text) ->
  strip text <> [] ->
  parse_pdf_data_to_excel_eel PYMUPDF_AVAILABLE b64decode fitz_text
    pypdf2_text save_b64 depth payload name
  = Some match parse_text_to_excel_with_merging text with
         | Returned ws => Returned (Success (save_b64 ws) name)
         | Raised e => Raised e
         end.
Proof.
  unfold parse_pdf_data_to_excel_eel. intros -> S.
  destruct (strip text); [congruence|].
  now destruct (parse_text_to_excel_with_merging text).
Qed.

(** C8, at the failing input: whatever the collaborators, when the
    extracted text is the heading line [1 ] followed by U+0001, the
    worksheet refuses the heading text and the exception leaves
    [parse_pdf_data_to_excel_eel]: the caller gets neither a success nor
    an error reply. *)
Theorem control_character_escapes_the_entry_point depth payload name :
  extract_text_from_pdf_eel PYMUPDF_AVAILABLE b64decode fitz_text
    pypdf2_text depth payload AUTO = Some (Returned control_text) ->
  parse_pdf_data_to_excel_eel PYMUPDF_AVAILABLE b64decode fitz_text
    pypdf2_text save_b64 depth payload name
  = Some (Raised (control_text ++ cannot_be_used)) /\
  forall r,
    parse_pdf_data_to_excel_eel PYMUPDF_AVAILABLE b64decode fitz_text
      pypdf2_text save_b64 depth payload name
    <> Some (Returned r).
Proof.
  intros H.
  assert (S : strip control_text <> []) by (vm_compute; discriminate).
  assert (P : parse_text_to_excel_with_merging control_text
              = Raised (control_text ++ cannot_be_used))
    by (vm_compute; reflexivity).
  rewrite (entry_parse_outcome depth payload name control_text H S), P.
  split; [reflexivity | discriminate].
Qed.

End BoundaryProperties.

Lemma control_character_escapes_the_entry_point_witness :
  let decode := fun s : str => Returned s in
  let pages := fun s : str => Returned s in
  let save := fun _ : worksheet => @nil char in
  extract_text_from_pdf_eel false decode pages pages 2 control_text AUTO
    = Some (Returned control_text) /\
  parse_pdf_data_to_excel_eel false decode pages pages save 2 control_text []
    = Some (Raised (control_text ++ cannot_be_used)).
Proof.
  intros decode pages save.
  assert (H : extract_text_from_pdf_eel false decode pages pages 2
                control_text AUTO = Some (Returned control_text))
    by (vm_compute; reflexivity).
  split; [exact H|].
  destruct (control_character_escapes_the_entry_point
              false decode pages pages save 2 control_text [] H) as [E _].
  exact E.
Defined.

(** * Further properties *)

(** ** Rows and lines *)

Lemma transition_count st c :
  length (append_buffered (transition st c)) =
  length (append_buffered st) + (if writes_row c then 1 else 0).
Proof.
  unfold append_buffered.
  destruct st as [pd l1 l2 l3 [it|]]; destruct c; cbn;
    rewrite ?length_app; cbn; lia.
Qed.

Lemma run_lines_count lines : forall st,
  length (append_buffered (run_lines st lines)) =
  length (append_buffered st) +
  length (filter (fun l => writes_row (classify l)) lines).
Proof.
  induction lines as [|l lines IH]; intros st.
  - cbn. lia.
  - rewrite run_lines_cons, IH, loop_body_transition, transition_count.
    cbn [filter]. destruct (writes_row (classify l)); cbn [length]; lia.
Qed.

(** X1. The rows parsed from a text are as many as its heading lines and
    item-starting lines together: each such line gets exactly one row,
    blank lines and continuation lines get none. *)
Theorem one_row_per_heading_or_item_line pdf_text :
  length (parse_rows pdf_text) =
  length (filter (fun l => writes_row (classify l)) (split NL pdf_text)).
Proof. unfold parse_rows. now rewrite run_lines_count. Qed.

Lemma split_incl sep s : forall l c, In l (split sep s) -> In c l -> In c s.
Proof.
  induction s as [|x s IH]; cbn; intros l c Hl Hc.
  - destruct Hl as [<- | []]. destruct Hc.
  - destruct (N.eqb_spec x sep) as [-> | Hne].
    + destruct Hl as [<- | Hl]; [destruct Hc|]. right. eapply IH; eauto.
    + destruct (split sep s) as [|l0 ls] eqn:E.
      * destruct Hl as [<- | []]. destruct Hc as [<- | []]. now left.
      * destruct Hl as [<- | Hl].
        -- destruct Hc as [<- | Hc]; [now left|]. right.
           apply (IH l0); cbn; auto.
        -- right. apply (IH l); cbn; auto.
Qed.

Lemma bullet_inv raw m :
  rmatch pattern_bullet_item raw = Some m ->
  exists u b rest,
    raw = u ++ b :: rest /\ forallb blank_char u = true /\
    In b bullet_glyphs.
Proof.
  unfold rmatch, pattern_bullet_item. cbn [cats]. intros H. inv_run H.
  exists u, c, v0. subst. repeat split; auto. now apply glyph_cases.
Qed.

(** A line without digit and without bullet glyph is blank or plain
    text. *)
Lemma plain_line raw :
  (forall c, In c raw -> isdecimal c = false /\ ~ In c bullet_glyphs) ->
  classify raw = Blank \/ classify raw = Continuation (strip raw).
Proof.
  intros H.
  assert (D : forall u c t, strip raw = u ++ c :: t -> isdecimal c = true ->
                            False).
  { intros u c t E C. destruct (H c) as [Hd _]; [|congruence].
    apply strip_incl. rewrite E. apply in_or_app. right. now left. }
  unfold classify. destruct (strip raw) as [|x l] eqn:L; auto. right.
  destruct (rmatch pattern_level1 (x :: l)) as [m|] eqn:M1.
  { exfalso. apply level1_inv in M1.
    destruct M1 as [u [c [ds [v [E [_ [C _]]]]]]]. eauto. }
  destruct (rmatch pattern_level2 (x :: l)) as [m|] eqn:M2.
  { exfalso. apply level2_inv in M2.
    destruct M2 as [u [c [ds [c2 [d2 [v [E [_ [C _]]]]]]]]]. eauto. }
  destruct (rmatch pattern_level3 (x :: l)) as [m|] eqn:M3.
  { exfalso. apply level3_inv in M3.
    destruct M3 as [u [c [ds [c2 [d2 [c3 [d3 [v [E [_ [C _]]]]]]]]]]]. eauto. }
  destruct (rmatch pattern_list_item (x :: l)) as [m|] eqn:M4.
  { exfalso. apply list_item_inv in M4.
    destruct M4 as [u [c [ds [w [v [E [_ [C _]]]]]]]]. eauto. }
  destruct (rmatch pattern_bullet_item raw) as [m|] eqn:M5; auto.
  exfalso. apply bullet_inv in M5. destruct M5 as [u [b [rest [E [_ B]]]]].
  destruct (H b) as [_ Hb]; auto. rewrite E. apply in_or_app. right. now left.
Qed.

Lemma plain_lines_stay lines :
  Forall (fun l => classify l = Blank \/
                   classify l = Continuation (strip l)) lines ->
  run_lines initial lines = initial.
Proof.
  induction 1 as [|l lines Hl _ IH]; auto.
  rewrite run_lines_cons, loop_body_transition.
  destruct Hl as [-> | ->]; exact IH.
Qed.

(** X2. A text without any decimal digit and without any bullet glyph
    gives no row at all, and the workbook made from it holds the header
    row only. *)
Theorem no_digit_no_bullet_no_rows pdf_text :
  (forall c, In c pdf_text -> isdecimal c = false /\ ~ In c bullet_glyphs) ->
  parse_rows pdf_text = [] /\
  parse_text_to_excel_with_merging pdf_text = Returned header_sheet.
Proof.
  intros H.
  assert (R : parse_rows pdf_text = []).
  { unfold parse_rows. rewrite plain_lines_stay; auto.
    apply Forall_forall. intros l Hl. apply plain_line.
    intros c Hc. apply H. eapply split_incl; eauto. }
  split; [exact R|].
  unfold parse_text_to_excel_with_merging, filled_sheet.
  now rewrite header_sheet_filled, R.
Qed.

Lemma no_digit_no_bullet_no_rows_witness :
  (forall c, In c plain_text -> isdecimal c = false /\ ~ In c bullet_glyphs) /\
  parse_rows plain_text = [].
Proof.
  assert (H : forall c, In c plain_text ->
                        isdecimal c = false /\ ~ In c bullet_glyphs).
  { intros c Hc.
    assert (F : forallb (fun c => negb (isdecimal c)
                                  && negb (cls_set bullet_glyphs c))
                        plain_text = true) by (vm_compute; reflexivity).
    rewrite forallb_forall in F. specialize (F c Hc).
    apply andb_true_iff in F. destruct F as [F1 F2].
    apply negb_true_iff in F1, F2. split; auto.
    intros B. apply glyph_plain in B. destruct B as [_ [_ [_ [B _]]]].
    congruence. }
  split; [exact H|]. exact (proj1 (no_digit_no_bullet_no_rows plain_text H)).
Defined.

Lemma list_item_number line m :
  rmatch pattern_list_item line = Some m ->
  group 1 m <> [] /\ forallb isdecimal (group 1 m) = true.
Proof.
  unfold rmatch, pattern_list_item. cbn [cats]. intros H. inv_run H.
  inversion H; subst m. cbn [group Nat.eqb]. rewrite E0.
  change (c :: u0 ++ v0) with ((c :: u0) ++ v0). rewrite firstn_prefix.
  split; [discriminate|]. cbn. unfold cls_d in *. now rewrite C, F0.
Qed.

Lemma strip_fixed s :
  stops isspace s -> stops isspace (rev s) -> strip s = s.
Proof.
  intros A B. unfold strip, rstrip. rewrite (lstrip_stop s A).
  rewrite (lstrip_stop (rev s) B). apply rev_involutive.
Qed.

Lemma strip_idem s : strip (strip s) = strip s.
Proof. apply strip_fixed; [apply strip_stops_l | apply strip_stops_r]. Qed.

Lemma classify_designator raw :
  match classify raw with
  | NumberedItem n _ => designator n
  | _ => True
  end.
Proof.
  unfold classify. destruct (strip raw) as [|c l]; auto.
  destruct (rmatch pattern_level1 (c :: l)); auto.
  destruct (rmatch pattern_level2 (c :: l)); auto.
  destruct (rmatch pattern_level3 (c :: l)); auto.
  destruct (rmatch pattern_list_item (c :: l)) as [m|] eqn:M.
  - right. now apply list_item_number in M.
  - destruct (rmatch pattern_bullet_item raw); auto.
Qed.

Lemma transition_shape st raw :
  Forall row_shape (parsed_data st) ->
  (forall it, current_list_item_buffer st = Some it -> designator (number it)) ->
  Forall row_shape (parsed_data (transition st (classify raw))) /\
  (forall it, current_list_item_buffer (transition st (classify raw)) = Some it
              -> designator (number it)).
Proof.
  intros F B.
  assert (A : Forall row_shape (append_buffered st)).
  { unfold append_buffered.
    destruct (current_list_item_buffer st) as [it|] eqn:E; auto.
    apply Forall_app. split; auto. constructor; [|constructor].
    right. cbn. split; [now apply B | apply strip_idem]. }
  pose proof (classify_led raw) as L.
  pose proof (classify_designator raw) as D.
  assert (H : forall a b c, digit_led a \/ digit_led b \/ digit_led c ->
                            row_shape (mkRow a b c [] [])).
  { intros a b c Hd. left. cbn. auto. }
  destruct (classify raw); cbn.
  - split; [exact A | discriminate].
  - split; [| discriminate]. apply Forall_app. split; auto.
  - split; [| discriminate]. apply Forall_app. split; auto.
  - split; [| discriminate]. apply Forall_app. split; auto.
  - split; [exact A|]. intros it E. inversion E; subst. exact D.
  - split; [exact A|]. intros it E. inversion E; subst. now left.
  - destruct (current_list_item_buffer st) as [it|] eqn:E; cbn.
    + split; [exact F|]. intros it' E'. inversion E'; subst. cbn. now apply B.
    + split; [exact F|]. now rewrite E.
Qed.

Lemma run_lines_shape lines : forall st,
  Forall row_shape (parsed_data st) ->
  (forall it, current_list_item_buffer st = Some it -> designator (number it)) ->
  Forall row_shape (append_buffered (run_lines st lines)).
Proof.
  induction lines as [|l lines IH]; intros st F B.
  - cbn. unfold append_buffered.
    destruct (current_list_item_buffer st) as [it|] eqn:E; auto.
    apply Forall_app. split; auto. constructor; [|constructor].
    right. cbn. split; [now apply B | apply strip_idem].
  - rewrite run_lines_cons, loop_body_transition.
    destruct (transition_shape st l F B) as [F' B']. now apply IH.
Qed.

(** X3. Every row parsed from a text is either a heading row, with a
    heading that starts with a digit and both item fields empty, or an
    item row, whose item number is the bullet glyph or a string of
    digits and whose description carries no whitespace at either end;
    and each heading field of a row is empty or starts with a digit. *)
Theorem rows_are_heading_rows_or_item_rows pdf_text :
  Forall (fun r => row_shape r /\ row_levels_ok r) (parse_rows pdf_text).
Proof.
  apply Forall_forall. intros r Hr. split.
  - revert r Hr. apply Forall_forall. unfold parse_rows.
    apply run_lines_shape; [constructor | discriminate].
  - revert r Hr. apply Forall_forall. apply parse_rows_levels_ok.
Qed.

(** ** The text of a heading *)

Lemma stops_any_nil (v : str) :
  stops cls_any v -> forallb cls_any v = true -> v = [].
Proof.
  destruct v as [|x v]; auto. cbn. intros S A.
  apply andb_true_iff in A. destruct A. congruence.
Qed.

Ltac to_the_end A :=
  repeat first
    [ rewrite forallb_app in A
    | progress cbn [forallb] in A
    | match type of A with
      | (_ && _) = true =>
          apply andb_true_iff in A; destruct A as [_ A]
      end ].

Ltac whole_line Sl N :=
  match goal with
  | E : ?line = ?u ++ ?v, E0 : ?v = ?c :: _, F : forallb cls_s ?u = true,
    C : cls_d ?c = true |- _ =>
      let U := fresh "U" in
      assert (U : u = [])
        by (eapply no_lead; [exact Sl | rewrite E, E0; reflexivity
                            | exact F | exact C]);
      subst u; cbn [app] in E;
      let A := fresh "A" in
      pose proof (any_all _ N) as A; subst line;
      repeat match goal with
             | Ex : ?x = _ |- _ => is_var x; progress rewrite Ex in A
             end;
      to_the_end A
  end;
  match goal with
  | S : stops cls_any ?w, A : forallb cls_any ?w = true,
    H : Some _ = Some ?m |- _ =>
      apply stops_any_nil in S; [|exact A];
      inversion H; subst m; cbn [group Nat.eqb];
      rewrite S; apply firstn_whole
  end.

Lemma level1_whole line m :
  stops isspace line -> ~ In NL line ->
  rmatch pattern_level1 line = Some m -> group 1 m = line.
Proof.
  intros Sl N. unfold rmatch, pattern_level1. cbn [cats]. intros H.
  inv_run H. apply run_opt_inv in H.
  destruct H as [H | H]; inv_run H; whole_line Sl N.
Qed.

Lemma level2_whole line m :
  stops isspace line -> ~ In NL line ->
  rmatch pattern_level2 line = Some m -> group 1 m = line.
Proof.
  intros Sl N. unfold rmatch, pattern_level2. cbn [cats]. intros H.
  inv_run H. apply run_opt_inv in H.
  destruct H as [H | H]; inv_run H; whole_line Sl N.
Qed.

Lemma level3_whole line m :
  stops isspace line -> ~ In NL line ->
  rmatch pattern_level3 line = Some m -> group 1 m = line.
Proof.
  intros Sl N. unfold rmatch, pattern_level3. cbn [cats]. intros H.
  inv_run H. apply run_opt_inv in H.
  destruct H as [H | H]; inv_run H; whole_line Sl N.
Qed.

(** X4. For every line of every text, a heading of any level is written
    with the whole trimmed line as its text: the numeral and what
    follows it, nothing cut off. *)
Theorem heading_text_is_the_trimmed_line pdf_text raw t :
  In raw (split NL pdf_text) ->
  classify raw = Heading1 t \/ classify raw = Heading2 t \/
  classify raw = Heading3 t ->
  t = strip raw.
Proof.
  intros Hin.
  assert (N : ~ In NL (strip raw)).
  { intros HN. apply strip_incl in HN. revert HN. eapply split_no_sep; eauto. }
  pose proof (strip_stops_l raw) as Sl.
  unfold classify. destruct (strip raw) as [|c l] eqn:L.
  { intros [H | [H | H]]; discriminate. }
  destruct (rmatch pattern_level1 (c :: l)) as [m|] eqn:M1.
  { apply level1_whole in M1; auto.
    intros [H | [H | H]]; inversion H; congruence. }
  destruct (rmatch pattern_level2 (c :: l)) as [m|] eqn:M2.
  { apply level2_whole in M2; auto.
    intros [H | [H | H]]; inversion H; congruence. }
  destruct (rmatch pattern_level3 (c :: l)) as [m|] eqn:M3.
  { apply level3_whole in M3; auto.
    intros [H | [H | H]]; inversion H; congruence. }
  destruct (rmatch pattern_list_item (c :: l));
    [intros [H | [H | H]]; discriminate|].
  destruct (rmatch pattern_bullet_item raw);
    intros [H | [H | H]]; discriminate.
Qed.

Lemma heading_text_is_the_trimmed_line_witness :
  let raw := lit "  2.1   Scope of work  " in
  let t := lit "2.1   Scope of work" in
  In raw (split NL raw) /\ classify raw = Heading2 t /\ t = strip raw.
Proof.
  intros raw t.
  assert (A : In raw (split NL raw)) by (vm_compute; auto).
  assert (B : classify raw = Heading2 t) by (vm_compute; reflexivity).
  split; [exact A | split; [exact B|]].
  exact (heading_text_is_the_trimmed_line raw raw t A
           (or_intror (or_introl B))).
Defined.

(** ** Bullets at the edges *)

Lemma blank_is_space c : blank_char c = true -> isspace c = true.
Proof.
  unfold blank_char, cls_set. cbn. rewrite orb_false_r.
  intros H. apply orb_true_iff in H.
  destruct H as [H | H]; apply N.eqb_eq in H; subst; reflexivity.
Qed.

Lemma blanks_are_spaces u :
  forallb blank_char u = true -> forallb isspace u = true.
Proof.
  intros H. apply forallb_forall. intros c Hc. apply blank_is_space.
  rewrite forallb_forall in H. auto.
Qed.

Lemma lstrip_lead u : forall rest,
  forallb isspace u = true -> lstrip (u ++ rest) = lstrip rest.
Proof.
  induction u as [|c u IH]; intros rest H; cbn in *; auto.
  apply andb_true_iff in H. destruct H as [Hc H]. rewrite Hc. auto.
Qed.

Lemma strip_lead u rest :
  forallb isspace u = true -> strip (u ++ rest) = strip rest.
Proof. intros H. unfold strip. now rewrite lstrip_lead. Qed.

Lemma bullet_indented ind b ws x xs :
  forallb blank_char ind = true -> In b bullet_glyphs ->
  forallb isspace ws = true -> isspace x = false -> ~ In NL (x :: xs) ->
  rmatch pattern_bullet_item (ind ++ b :: ws ++ x :: xs) = Some [(1, x :: xs)].
Proof.
  intros I B Ws X N. destruct (glyph_plain _ B) as [_ [_ [_ [Hb Ht]]]].
  unfold rmatch, pattern_bullet_item. cbn [cats].
  rewrite run_cat, run_bol, run_cat.
  apply run_star_max; auto.
  rewrite run_cat, run_cls_ok; auto.
  rewrite run_cat. apply run_star_max; auto.
  rewrite run_cat, run_grp.
  apply any_all in N. cbn in N. apply andb_true_iff in N. destruct N.
  apply run_plus_all; auto. rewrite run_eol_end. now rewrite firstn_whole.
Qed.

Lemma bullet_after_other_space ind w rest :
  forallb blank_char ind = true -> isspace w = true ->
  blank_char w = false ->
  rmatch pattern_bullet_item (ind ++ w :: rest) = None.
Proof.
  intros I W Wb. destruct (rmatch pattern_bullet_item _) as [m|] eqn:H; auto.
  exfalso. apply bullet_inv in H. destruct H as [u [b [r [E [F B]]]]].
  destruct (glyph_plain _ B) as [Hs [_ [_ [_ Ht]]]].
  symmetry in E. apply (span_unique blank_char) in E; auto.
  destruct E as [_ E]. inversion E; subst. congruence.
Qed.

(** X5. A bullet glyph may be indented with spaces and tabs: the line is
    a bullet item whose description starts at the first character that
    is not whitespace after the glyph. Behind any other whitespace
    character, a no-break space for one, the same line is no bullet
    item: it is read as plain continuation text. *)
Theorem bullet_indentation_is_spaces_and_tabs ind b ws text :
  forallb blank_char ind = true -> In b bullet_glyphs ->
  forallb isspace ws = true ->
  text <> [] -> stops isspace text -> ~ In NL text ->
  classify (ind ++ b :: ws ++ text) = BulletItem text /\
  forall w,
    isspace w = true -> blank_char w = false ->
    classify (ind ++ w :: b :: ws ++ text)
    = Continuation (strip (b :: ws ++ text)).
Proof.
  intros I B Ws Ht St N. destruct text as [|x xs]; [congruence|]. cbn in St.
  destruct (glyph_plain _ B) as [Hs [Hd _]].
  destruct (strip_led b (ws ++ x :: xs) Hs) as [t' E].
  destruct (plain_start b t' Hs Hd) as [M1 [M2 [M3 M4]]].
  pose proof (blanks_are_spaces ind I) as Is. split.
  - pose proof (bullet_indented ind b ws x xs I B Ws St N) as M5.
    unfold classify. rewrite strip_lead by exact Is.
    now rewrite E, M1, M2, M3, M4, M5.
  - intros w W Wb.
    pose proof (bullet_after_other_space ind w (b :: ws ++ x :: xs) I W Wb)
      as M5.
    unfold classify. rewrite strip_lead by exact Is.
    change (w :: b :: ws ++ x :: xs) with ([w] ++ b :: ws ++ x :: xs).
    rewrite strip_lead by (cbn; now rewrite W).
    rewrite E, M1, M2, M3, M4.
    change ([w] ++ b :: ws ++ x :: xs) with (w :: b :: ws ++ x :: xs).
    now rewrite M5.
Qed.

Lemma bullet_indentation_is_spaces_and_tabs_witness :
  let ind := [SPACE; TAB] in
  let b := 0x2A%N in
  let ws := [SPACE] in
  let text := lit "a" in
  forallb blank_char ind = true /\ In b bullet_glyphs /\
  forallb isspace ws = true /\ text <> [] /\ stops isspace text /\
  ~ In NL text /\
  classify (ind ++ b :: ws ++ text) = BulletItem text /\
  classify (ind ++ 0xA0%N :: b :: ws ++ text)
  = Continuation (strip (b :: ws ++ text)).
Proof.
  intros ind b ws text.
  assert (I : forallb blank_char ind = true) by reflexivity.
  assert (B : In b bullet_glyphs) by (vm_compute; auto 10).
  assert (Ws : forallb isspace ws = true) by reflexivity.
  assert (Ht : text <> []) by discriminate.
  assert (St : stops isspace text) by reflexivity.
  assert (N : ~ In NL text) by (apply all_any; vm_compute; reflexivity).
  repeat (split; [assumption|]).
  destruct (bullet_indentation_is_spaces_and_tabs ind b ws text I B Ws Ht St N)
    as [C1 C2].
  split; [exact C1|]. apply C2; reflexivity.
Defined.

Lemma star_back p u : forall prev w g k m,
  forallb p u = true -> p w = true ->
  k (after prev (u ++ [w])) [] g = None ->
  k (after prev u) [w] g = Some m ->
  star p prev (u ++ [w]) g k = Some m.
Proof.
  induction u as [|c u IH]; intros prev w g k m F W K0 K1; cbn in *.
  - now rewrite W, K0.
  - apply andb_true_iff in F. destruct F as [Hc F]. rewrite Hc.
    now rewrite (IH (Some c) w g k m F W K0 K1).
Qed.

Lemma bullet_only_space b ws w :
  In b bullet_glyphs -> forallb isspace ws = true -> isspace w = true ->
  w <> NL ->
  rmatch pattern_bullet_item (b :: ws ++ [w]) = Some [(1, [w])].
Proof.
  intros B Ws W N. destruct (glyph_plain _ B) as [_ [_ [_ [Hb Ht]]]].
  assert (A : cls_any w = true).
  { unfold cls_any. destruct (N.eqb_spec w NL); [contradiction | reflexivity]. }
  unfold rmatch, pattern_bullet_item. cbn [cats].
  rewrite run_cat, run_bol, run_cat.
  apply (run_star_max (cls_set [SPACE; TAB]) [] (b :: ws ++ [w])); auto.
  cbn [after]. rewrite run_cat, run_cls_ok; auto.
  rewrite run_cat. apply star_back; auto.
  rewrite run_cat, run_grp. apply (run_plus_all cls_any w []); auto.
Qed.

Lemma bare_glyph b :
  In b bullet_glyphs -> rmatch pattern_bullet_item [b] = None.
Proof.
  intros B. cbn in B.
  repeat (destruct B as [<- | B]; [vm_compute; reflexivity|]). contradiction.
Qed.

(** X6. A line that is a bullet glyph and nothing else gives no row: it
    is plain text. A glyph followed only by whitespace is an item all
    the same, and its row has the bullet glyph as item number and an
    empty description. *)
Theorem bullet_without_text b :
  In b bullet_glyphs ->
  parse_rows [b] = [] /\
  forall ws w,
    forallb isspace (ws ++ [w]) = true -> ~ In NL (ws ++ [w]) ->
    parse_rows (b :: ws ++ [w]) = [mkRow [] [] [] BULLET []].
Proof.
  intros B. destruct (glyph_plain _ B) as [Hs [Hd [Ha _]]]. split.
  - cbn in B.
    repeat (destruct B as [<- | B]; [vm_compute; reflexivity|]).
    contradiction.
  - intros ws w F N. rewrite forallb_app in F. apply andb_true_iff in F.
    destruct F as [Ws W]. cbn in W. rewrite andb_true_r in W.
    assert (Nw : w <> NL).
    { intros ->. apply N. apply in_or_app. right. now left. }
    unfold parse_rows. rewrite split_none.
    + cbn [run_lines fold_left]. rewrite loop_body_transition.
      destruct (strip_led b (ws ++ [w]) Hs) as [t' E].
      destruct (plain_start b t' Hs Hd) as [M1 [M2 [M3 M4]]].
      pose proof (bullet_only_space b ws w B Ws W Nw) as M5.
      assert (Sw : strip [w] = [])
        by (unfold strip, rstrip; cbn [lstrip]; now rewrite W).
      unfold classify. rewrite E, M1, M2, M3, M4, M5.
      cbn -[strip]. unfold item_row. cbn -[strip]. now rewrite Sw.
    + intros [H | H]; [|contradiction]. subst b. discriminate.
Qed.

Lemma bullet_without_text_witness :
  In 0x2022%N bullet_glyphs /\
  parse_rows (0x2022%N :: [SPACE] ++ [SPACE]) = [mkRow [] [] [] BULLET []].
Proof.
  assert (B : In 0x2022%N bullet_glyphs) by (vm_compute; auto 10).
  split; [exact B|].
  destruct (bullet_without_text 0x2022%N B) as [_ H].
  apply (H [SPACE] SPACE).
  - reflexivity.
  - apply all_any. vm_compute. reflexivity.
Defined.

(** ** What the sheet accepts *)

Lemma firstn_within (x : char) n : forall l, In x (firstn n l) -> In x l.
Proof.
  induction n as [|n IH]; intros [|y l]; cbn; try tauto.
  intros [H | H]; auto.
Qed.

Lemma run_groups_within s0 r : forall prev s g k m,
  incl s s0 -> groups_within s0 g ->
  (forall prev' s' g' m', incl s' s0 -> groups_within s0 g' ->
                          k prev' s' g' = Some m' -> groups_within s0 m') ->
  run r prev s g k = Some m -> groups_within s0 m.
Proof.
  induction r as [| | p | p | p | r1 IH1 r2 IH2 | r IH | n r IH];
    intros prev s g k m Hs Hg Hk H.
  - cbn in H. destruct prev as [c|]; [destruct (c =? NL)%N|]; eauto.
    discriminate.
  - cbn in H. destruct s as [|c s']; [|destruct (c =? NL)%N]; eauto.
    discriminate.
  - apply run_cls_inv in H. destruct H as [c [s' [-> [_ H]]]].
    apply (Hk _ _ _ _ (fun x Hx => Hs x (or_intror Hx)) Hg H).
  - apply run_star_inv in H. destruct H as [u [v [-> [_ H]]]].
    apply (Hk _ _ _ _ (fun x Hx => Hs x (in_or_app u v x (or_intror Hx)))
              Hg H).
  - apply run_plus_inv in H. destruct H as [c [u [v [-> [_ [_ H]]]]]].
    apply (Hk _ _ _ _
              (fun x Hx => Hs x (or_intror (in_or_app u v x (or_intror Hx))))
              Hg H).
  - rewrite run_cat in H. refine (IH1 _ _ _ _ _ Hs Hg _ H).
    intros prev' s' g' m' Hs' Hg' H'. exact (IH2 _ _ _ _ _ Hs' Hg' Hk H').
  - apply run_opt_inv in H. destruct H as [H | H].
    + exact (IH _ _ _ _ _ Hs Hg Hk H).
    + exact (Hk _ _ _ _ Hs Hg H).
  - rewrite run_grp in H. refine (IH _ _ _ _ _ Hs Hg _ H).
    intros prev' s' g' m' Hs' Hg' H'. refine (Hk _ _ _ _ Hs' _ H').
    intros i t [E | Hin]; [| exact (Hg' i t Hin)]. inversion E; subst.
    intros x Hx. apply Hs. eapply firstn_within. exact Hx.
Qed.

Lemma group_within r s m n :
  rmatch r s = Some m -> incl (group n m) s.
Proof.
  intros H. unfold rmatch in H.
  assert (G : groups_within s m).
  { refine (run_groups_within s r _ _ _ _ _ (incl_refl s) _ _ H).
    - intros i t [].
    - intros prev' s' g' m' _ Hg' E. now inversion E; subst. }
  clear H. induction m as [|[i t] m IH]; cbn.
  - intros x [].
  - destruct (Nat.eqb i n).
    + apply (G i t). now left.
    + apply IH. intros j u Hin. apply (G j u). now right.
Qed.

(** The texts a line contributes are made of its characters. *)
Lemma classify_within raw :
  match classify raw with
  | Blank => True
  | Heading1 t | Heading2 t | Heading3 t | BulletItem t | Continuation t =>
      incl t raw
  | NumberedItem n d => incl n raw /\ incl d raw
  end.
Proof.
  assert (S : incl (strip raw) raw) by (intros x; apply strip_incl).
  unfold classify. destruct (strip raw) as [|c l]; auto.
  destruct (rmatch pattern_level1 (c :: l)) as [m|] eqn:M1.
  { eapply incl_tran; [eapply group_within; eauto | exact S]. }
  destruct (rmatch pattern_level2 (c :: l)) as [m|] eqn:M2.
  { eapply incl_tran; [eapply group_within; eauto | exact S]. }
  destruct (rmatch pattern_level3 (c :: l)) as [m|] eqn:M3.
  { eapply incl_tran; [eapply group_within; eauto | exact S]. }
  destruct (rmatch pattern_list_item (c :: l)) as [m|] eqn:M4.
  { split; (eapply incl_tran; [eapply group_within; eauto | exact S]). }
  destruct (rmatch pattern_bullet_item raw) as [m|] eqn:M5; auto.
  eapply group_within; eauto.
Qed.

Lemma clean_incl s t : incl s t -> clean t -> clean s.
Proof. intros I C c Hc. apply C, I, Hc. Qed.

Lemma clean_nil : clean [].
Proof. intros c []. Qed.

Lemma clean_app s t : clean s -> clean t -> clean (s ++ t).
Proof.
  intros A B c Hc. apply in_app_or in Hc. destruct Hc; auto.
Qed.

Lemma append_buffered_clean st :
  locals_clean st -> Forall row_clean (append_buffered st).
Proof.
  intros [A [B [C [D E]]]]. unfold append_buffered.
  destruct (current_list_item_buffer st) as [it|] eqn:Eb; auto.
  destruct (E it eq_refl) as [E1 E2].
  apply Forall_app. split; auto. constructor; [|constructor].
  intros v Hv. cbn in Hv.
  destruct Hv as [<- | [<- | [<- | [<- | [<- | []]]]]]; auto.
  eapply clean_incl; [|exact E2]. intros x. apply strip_incl.
Qed.

Lemma transition_clean st raw :
  clean raw -> locals_clean st -> locals_clean (transition st (classify raw)).
Proof.
  intros Cr H. pose proof (append_buffered_clean st H) as Hb.
  pose proof (classify_within raw) as W.
  destruct H as [A [B [C [D E]]]].
  assert (N := clean_nil).
  assert (R : forall a b c, clean a -> clean b -> clean c ->
                            row_clean (mkRow a b c [] [])).
  { intros a b c Ha Hb' Hc v Hv. cbn in Hv.
    destruct Hv as [<- | [<- | [<- | [<- | [<- | []]]]]]; auto. }
  assert (K : forall t, incl t raw -> clean t).
  { intros t I. eapply clean_incl; eauto. }
  destruct (classify raw); cbn; unfold locals_clean; cbn.
  - repeat apply conj; auto. discriminate.
  - repeat apply conj; auto; try discriminate.
    apply Forall_app. split; auto.
  - repeat apply conj; auto; try discriminate.
    apply Forall_app. split; auto.
  - repeat apply conj; auto; try discriminate.
    apply Forall_app. split; auto.
  - destruct W as [W1 W2]. repeat apply conj; auto.
    intros it Hit. inversion Hit; subst. cbn. auto.
  - repeat apply conj; auto.
    intros it Hit. inversion Hit; subst. cbn. split; auto.
    intros c [<- | []]. reflexivity.
  - destruct (current_list_item_buffer st) as [it|] eqn:Eb; cbn.
    + destruct (E it eq_refl) as [E1 E2]. repeat apply conj; auto.
      intros it' Hit. inversion Hit; subst. cbn. split; auto.
      apply clean_app; auto.
      intros c [<- | Hc]; [reflexivity | now apply (K text)].
    + repeat apply conj; auto. now rewrite Eb.
Qed.

Lemma run_lines_clean lines : forall st,
  Forall clean lines -> locals_clean st -> locals_clean (run_lines st lines).
Proof.
  induction lines as [|l lines IH]; intros st F H; auto.
  inversion F; subst. rewrite run_lines_cons, loop_body_transition.
  apply IH; auto. now apply transition_clean.
Qed.

Lemma parse_rows_clean pdf_text :
  clean pdf_text -> Forall row_clean (parse_rows pdf_text).
Proof.
  intros C. unfold parse_rows. apply append_buffered_clean, run_lines_clean.
  - apply Forall_forall. intros l Hl c Hc. apply C.
    eapply split_incl; eauto.
  - unfold locals_clean. cbn. repeat apply conj; auto using clean_nil.
    discriminate.
Qed.

Lemma clean_storable v : clean v -> storable v = true.
Proof.
  intros C. unfold storable. apply negb_true_iff.
  destruct (existsb illegal_character (firstn max_length v)) eqn:E; auto.
  apply existsb_exists in E. destruct E as [c [Hc Hi]].
  apply firstn_within in Hc. rewrite (C c Hc) in Hi. discriminate.
Qed.

Lemma check_string_storable v :
  check_string v =
  if storable v then Returned (firstn max_length v)
  else Raised (firstn max_length v ++ cannot_be_used).
Proof.
  unfold check_string, storable.
  now destruct (existsb illegal_character (firstn max_length v)).
Qed.

Lemma bind_values_cases vs :
  match bind_values vs with
  | Returned _ => forallb storable vs = true
  | Raised e =>
      exists v, In v vs /\ storable v = false /\
                e = firstn max_length v ++ cannot_be_used
  end.
Proof.
  induction vs as [|v vs IH]; cbn [bind_values forallb]; auto.
  rewrite check_string_storable. destruct (storable v) eqn:S; cbn [bind].
  - destruct (bind_values vs) as [r|e]; cbn [bind andb]; auto.
    destruct IH as [w [Hw [Sw E]]]. exists w. cbn. auto.
  - exists v. cbn. auto.
Qed.

Lemma append_all_cases rows : forall ws,
  match append_all ws rows with
  | Returned _ => Forall row_storable rows
  | Raised e =>
      exists r v, In r rows /\ In v (row_values r) /\ storable v = false /\
                  e = firstn max_length v ++ cannot_be_used
  end.
Proof.
  induction rows as [|r rows IH]; intros ws; cbn [append_all].
  - constructor.
  - unfold append at 1. pose proof (bind_values_cases (row_values r)) as B.
    destruct (bind_values (row_values r)) as [cs|e]; cbn [bind].
    + specialize (IH (mkSheet (cells ws ++ [cs]) (merged_cells ws))).
      destruct (append_all _ rows) as [ws'|e].
      * constructor; auto.
      * destruct IH as [r' [v [H1 H2]]]. exists r', v. cbn. auto.
    + destruct B as [v [H1 H2]]. exists r, v. cbn. auto.
Qed.

Lemma storable_rows_are_written pdf_text :
  Forall row_storable (parse_rows pdf_text) ->
  exists ws, parse_text_to_excel_with_merging pdf_text = Returned ws.
Proof.
  intros F. unfold parse_text_to_excel_with_merging, filled_sheet.
  rewrite header_sheet_filled. cbn [bind].
  pose proof (append_all_cases (parse_rows pdf_text) header_sheet) as A.
  destruct (append_all header_sheet (parse_rows pdf_text)) as [ws|e];
    cbn [bind]; eauto.
  exfalso. destruct A as [r [v [Hr [Hv [S _]]]]]. rewrite Forall_forall in F.
  specialize (F r Hr). unfold row_storable in F.
  rewrite forallb_forall in F. rewrite (F v Hv) in S. discriminate.
Qed.

(** X7. [parse_text_to_excel_with_merging] returns a workbook exactly
    when every value of every parsed row, cut to the 32767 characters a
    cell keeps, is free of the characters a worksheet refuses; when it
    raises, the message is the cut value of such a row followed by
    [ cannot be used in worksheets.]. *)
Theorem workbook_is_built_unless_a_value_is_refused pdf_text :
  ((exists ws, parse_text_to_excel_with_merging pdf_text = Returned ws) <->
   Forall row_storable (parse_rows pdf_text)) /\
  forall e,
    parse_text_to_excel_with_merging pdf_text = Raised e ->
    exists r v,
      In r (parse_rows pdf_text) /\ In v (row_values r) /\
      storable v = false /\ e = firstn max_length v ++ cannot_be_used.
Proof.
  unfold parse_text_to_excel_with_merging, filled_sheet.
  rewrite header_sheet_filled. cbn [bind].
  pose proof (append_all_cases (parse_rows pdf_text) header_sheet) as A.
  destruct (append_all header_sheet (parse_rows pdf_text)) as [ws|e];
    cbn [bind].
  - split; [split; eauto | discriminate].
  - split.
    + split; [intros [ws H]; discriminate|]. intros F. exfalso.
      destruct A as [r [v [Hr [Hv [S _]]]]]. rewrite Forall_forall in F.
      specialize (F r Hr). unfold row_storable in F.
      rewrite forallb_forall in F. rewrite (F v Hv) in S. discriminate.
    + intros e' E. inversion E; subst. exact A.
Qed.

(** ** Extraction and replies *)

Section BoundaryFurther.

Variable b64decode : str -> outcome str.
Variable fitz_text : str -> outcome str.
Variable pypdf2_text : str -> outcome str.
Variable save_b64 : worksheet -> str.

Lemma extract_auto available n payload :
  extract_text_from_pdf_eel available b64decode fitz_text pypdf2_text
    (2 + n) payload AUTO
  = Some
      match b64decode payload with
      | Raised e => Raised (FAILED ++ e)
      | Returned bytes =>
          let second :=
            match pypdf2_text bytes with
            | Returned t => Returned t
            | Raised e => Raised (FAILED ++ e)
            end in
          if available then
            match fitz_text bytes with
            | Returned t => Returned t
            | Raised _ => second
            end
          else second
      end.
Proof.
  cbn [Nat.add extract_text_from_pdf_eel]. unfold try_extract.
  destruct (b64decode payload) as [bytes | e] eqn:D; [|reflexivity].
  destruct available; cbn.
  - destruct (fitz_text bytes); cbn; auto.
    destruct (pypdf2_text bytes); reflexivity.
  - destruct (pypdf2_text bytes); reflexivity.
Qed.

(** X8. With the method [auto] the text is read with PyMuPDF when it is
    available and with PyPDF2 otherwise; when PyMuPDF raises, PyPDF2 is
    tried once and its text or its error is the result, the error of
    PyMuPDF being dropped. An error, of decoding or of PyPDF2, is raised
    again behind the words [Failed to extract text from PDF: ]. Two
    levels of recursion are all the function ever uses. *)
Theorem extraction_falls_back_once available n payload :
  extract_text_from_pdf_eel available b64decode fitz_text pypdf2_text
    (2 + n) payload AUTO
  = Some
      match b64decode payload with
      | Raised e => Raised (FAILED ++ e)
      | Returned bytes =>
          let second :=
            match pypdf2_text bytes with
            | Returned t => Returned t
            | Raised e => Raised (FAILED ++ e)
            end in
          if available then
            match fitz_text bytes with
            | Returned t => Returned t
            | Raised _ => second
            end
          else second
      end.
Proof. apply extract_auto. Qed.

Lemma str_eqb_neq a b : a <> b -> str_eqb a b = false.
Proof.
  intros H. destruct (str_eqb a b) eqn:E; auto.
  apply str_eqb_eq in E. contradiction.
Qed.

(** X9. Without PyMuPDF the method argument is ignored: whatever it is,
    the text is read with PyPDF2. With PyMuPDF, a method other than
    [auto], [pymupdf] and [pypdf2] reads nothing and returns the empty
    text once the payload is decoded. *)
Theorem method_argument_dispatch n payload method :
  extract_text_from_pdf_eel false b64decode fitz_text pypdf2_text
    (1 + n) payload method
  = Some
      match b64decode payload with
      | Raised e => Raised (FAILED ++ e)
      | Returned bytes =>
          match pypdf2_text bytes with
          | Returned t => Returned t
          | Raised e => Raised (FAILED ++ e)
          end
      end /\
  (method <> AUTO -> method <> PYMUPDF -> method <> PYPDF2 ->
   forall bytes,
     b64decode payload = Returned bytes ->
     extract_text_from_pdf_eel true b64decode fitz_text pypdf2_text
       (1 + n) payload method
     = Some (Returned [])).
Proof.
  split.
  - cbn [Nat.add extract_text_from_pdf_eel]. unfold try_extract.
    destruct (b64decode payload) as [bytes | e]; cbn.
    + rewrite !andb_false_r, !orb_true_r.
      destruct (pypdf2_text bytes); cbn; rewrite ?andb_false_r; reflexivity.
    + rewrite andb_false_r. reflexivity.
  - intros A B C bytes D.
    cbn [Nat.add extract_text_from_pdf_eel]. unfold try_extract.
    rewrite D. cbv zeta. rewrite (str_eqb_neq _ _ A).
    rewrite (str_eqb_neq _ _ B), (str_eqb_neq _ _ C). reflexivity.
Qed.



End BoundaryFurther.


Lemma method_argument_dispatch_witness :
  lit "ocr" <> AUTO /\ lit "ocr" <> PYMUPDF /\ lit "ocr" <> PYPDF2 /\
  extract_text_from_pdf_eel true (fun s => Returned s)
    (fun _ => Returned (lit "a")) (fun _ => Returned (lit "b"))
    1 (lit "JVBERi0=") (lit "ocr") = Some (Returned []).
Proof.
  assert (A : lit "ocr" <> AUTO) by discriminate.
  assert (B : lit "ocr" <> PYMUPDF) by discriminate.
  assert (C : lit "ocr" <> PYPDF2) by discriminate.
  split; [exact A | split; [exact B | split; [exact C|]]].
  exact (proj2 (method_argument_dispatch (fun s => Returned s)
                  (fun _ => Returned (lit "a")) (fun _ => Returned (lit "b"))
                  0 (lit "JVBERi0=") (lit "ocr"))
               A B C (lit "JVBERi0=") eq_refl).
Defined.



(** ** The cells after a merge *)

Lemma covered_app r a b : covered r (a ++ b) = covered r a || covered r b.
Proof. unfold covered. apply existsb_app. Qed.

Lemma cell_value_merged ws c s e r :
  1 <= c ->
  cell_value (merge_cells ws c s e) r c =
  if (s <? r) && (r <=? e) then None else cell_value ws r c.
Proof.
  intros Hc. destruct c as [|c]; [lia|]. destruct r as [|r].
  - cbn. now destruct (s <? 0).
  - unfold cell_value, merge_cells. cbn [cells].
    rewrite nth_error_clear_below. cbn [Nat.add].
    destruct (nth_error (cells ws) r) as [cs|].
    + destruct ((s <? S r) && (S r <=? e)); auto.
      rewrite nth_error_set_nth.
      replace (S c - 1) with c by lia. rewrite Nat.eqb_refl.
      now destruct (nth_error cs c).
    + now destruct ((s <? S r) && (S r <=? e)).
Qed.

Lemma close_run_cells c sc last r :
  1 <= c ->
  cell_value (close_run c sc last) r c =
  if covered r (map (as_range c) (closed (start_row sc) last))
  then None else cell_value (sheet sc) r c.
Proof.
  intros Hc. unfold close_run, closed. destruct (start_row sc) as [s|]; auto.
  destruct (negb (s =? 0) && (s <? last)); auto.
  rewrite cell_value_merged by exact Hc. cbn. now rewrite orb_false_r.
Qed.

Lemma hide_twice (a b : bool) (v : value) :
  (if b then None else if a then None else v) =
  if a || b then None else v.
Proof. now destruct a, b. Qed.

(** The values of the scanned column once the loop is over: a cell below
    the top of a merged range is emptied, the others are as they were. *)
Lemma scan_values c ws0 k : forall n sc done,
  1 <= c ->
  (forall r, n <= r -> cell_value (sheet sc) r c = cell_value ws0 r c) ->
  (forall r, cell_value (sheet sc) r c =
             if covered r done then None else cell_value ws0 r c) ->
  forall r,
    cell_value (close_run c (fold_left (merge_row c) (seq n k) sc)
                          (n + k - 1)) r c =
    if covered r (done ++ map (as_range c)
                    (runs (fun r => cell_value ws0 r c) k n
                          (current_value sc) (start_row sc)))
    then None else cell_value ws0 r c.
Proof.
  induction k as [|k IH]; intros n sc done Hc Hv Hd r.
  - cbn [seq fold_left runs]. replace (n + 0 - 1) with (n - 1) by lia.
    rewrite close_run_cells by exact Hc. rewrite Hd, covered_app.
    apply hide_twice.
  - cbn [seq fold_left]. replace (n + S k - 1) with (S n + k - 1) by lia.
    assert (Closing :
      (forall x, S n <= x ->
         cell_value (close_run c sc (n - 1)) x c = cell_value ws0 x c) /\
      (forall x,
         cell_value (close_run c sc (n - 1)) x c =
         if covered x (done ++ map (as_range c) (closed (start_row sc) (n - 1)))
         then None else cell_value ws0 x c)).
    { split.
      - intros x Hx. rewrite close_run_value by (left; lia). apply Hv. lia.
      - intros x. rewrite close_run_cells by exact Hc.
        rewrite Hd, covered_app. apply hide_twice. }
    destruct Closing as [K1 K2].
    assert (Hv' : forall x, S n <= x ->
                    cell_value (sheet sc) x c = cell_value ws0 x c)
      by (intros x Hx; apply Hv; lia).
    set (sc1 := merge_row c sc n).
    assert (Step : exists done1,
      (forall x, S n <= x ->
         cell_value (sheet sc1) x c = cell_value ws0 x c) /\
      (forall x, cell_value (sheet sc1) x c =
                 if covered x done1 then None else cell_value ws0 x c) /\
      done1 ++ map (as_range c)
                   (runs (fun r => cell_value ws0 r c) k (S n)
                         (current_value sc1) (start_row sc1)) =
      done ++ map (as_range c)
                  (runs (fun r => cell_value ws0 r c) (S k) n
                        (current_value sc) (start_row sc))).
    { subst sc1. unfold merge_row. cbn [runs]. rewrite <- (Hv n) by lia.
      destruct (has_text (cell_value (sheet sc) n c)) eqn:HT.
      - destruct (cell_value (sheet sc) n c) as [t|]; [|discriminate].
        destruct (differs (current_value sc) t);
          cbn [sheet current_value start_row].
        + exists (done ++ map (as_range c) (closed (start_row sc) (n - 1))).
          split; [exact K1 | split; [exact K2 |]].
          now rewrite map_app, app_assoc.
        + exists done. split; [exact Hv' | split; [exact Hd | reflexivity]].
      - cbn [sheet current_value start_row].
        exists (done ++ map (as_range c) (closed (start_row sc) (n - 1))).
        split; [exact K1 | split; [exact K2 |]].
        now rewrite map_app, app_assoc. }
    destruct Step as [done1 [S1 [S2 S3]]].
    rewrite (IH (S n) sc1 done1 Hc S1 S2 r). now rewrite S3.
Qed.

Lemma merge_column_cells c ws r :
  1 <= c ->
  cell_value (merge_consecutive_cells c ws) r c =
  if covered r (column_ranges ws c) then None else cell_value ws r c.
Proof.
  intros Hc. unfold merge_consecutive_cells, column_ranges.
  destruct (Nat.ltb_spec (max_row ws) 2) as [L | L].
  - pose proof (max_row_pos ws). replace (max_row ws - 1) with 0 by lia.
    reflexivity.
  - destruct (scan_refines c ws (max_row ws + 1 - 2) 2 (mkScan ws None None))
      as [_ [_ [C _]]]; [reflexivity|].
    cbv zeta in C. cbn [sheet] in C. rewrite C.
    pose proof (scan_values c ws (max_row ws + 1 - 2) 2 (mkScan ws None None)
                  [] Hc (fun x _ => eq_refl) (fun x => eq_refl) r) as V.
    cbn [sheet current_value start_row app] in V.
    replace (2 + (max_row ws + 1 - 2) - 1) with (max_row ws) in V by lia.
    replace (max_row ws + 1 - 2) with (max_row ws - 1) in * by lia.
    exact V.
Qed.

Lemma covered_in r rs :
  covered r rs = true <->
  exists rg, In rg rs /\ range_start rg < r <= range_end rg.
Proof.
  unfold covered. rewrite existsb_exists. split.
  - intros [rg [H B]]. apply andb_true_iff in B. destruct B as [B1 B2].
    apply Nat.ltb_lt in B1. apply Nat.leb_le in B2. eauto.
  - intros [rg [H [B1 B2]]]. exists rg. split; auto.
    apply andb_true_iff. split; [now apply Nat.ltb_lt | now apply Nat.leb_le].
Qed.

(** The top row of a range a scan merges lies in no other range. *)
Lemma top_not_covered ws c rg :
  In rg (column_ranges ws c) ->
  covered (range_start rg) (column_ranges ws c) = false.
Proof.
  intros H. destruct (covered _ _) eqn:E; auto. exfalso.
  apply covered_in in E. destruct E as [rg' [H' [A B]]].
  pose proof H as S. pose proof H' as S'.
  apply column_ranges_spec in S, S'.
  destruct S as [C [L _]], S' as [C' [L' _]].
  assert (Eq : rg = rg').
  { apply (proj2 (column_ranges_apart ws c)); auto.
    split; [congruence|]. exists (range_start rg). lia. }
  subst rg'. lia.
Qed.

(** X12. A call of [merge_consecutive_cells] on a column from 1 keeps
    the number of rows and every cell of the other columns; in its own
    column it empties exactly the cells below the top of a range it
    merges, so that the top cell of each range keeps the text and the
    cells under it hold nothing. *)
Theorem merge_keeps_the_top_and_empties_the_rest c ws :
  1 <= c ->
  exists added,
    merged_cells (merge_consecutive_cells c ws) = merged_cells ws ++ added /\
    max_row (merge_consecutive_cells c ws) = max_row ws /\
    (forall r c', c' <> c ->
       cell_value (merge_consecutive_cells c ws) r c' = cell_value ws r c') /\
    (forall r,
       cell_value (merge_consecutive_cells c ws) r c =
       if covered r added then None else cell_value ws r c) /\
    (forall rg, In rg added ->
       cell_value (merge_consecutive_cells c ws) (range_start rg) c =
         cell_value ws (range_start rg) c /\
       forall r, range_start rg < r <= range_end rg ->
         cell_value (merge_consecutive_cells c ws) r c = None).
Proof.
  intros Hc. exists (column_ranges ws c).
  destruct (merge_column c ws) as [A [B C]].
  split; [exact A | split; [exact B | split; [| split]]].
  - intros r c' N. now apply C.
  - intros r. now apply merge_column_cells.
  - intros rg H. split.
    + rewrite merge_column_cells by exact Hc.
      now rewrite (top_not_covered ws c rg H).
    + intros r R. rewrite merge_column_cells by exact Hc.
      assert (V : covered r (column_ranges ws c) = true)
        by (apply covered_in; eauto).
      now rewrite V.
Qed.

Lemma merge_keeps_the_top_and_empties_the_rest_witness :
  1 <= 1 /\
  exists added,
    merged_cells (merge_consecutive_cells 1 aaea_sheet) =
      merged_cells aaea_sheet ++ added /\
    max_row (merge_consecutive_cells 1 aaea_sheet) = max_row aaea_sheet /\
    (forall r c', c' <> 1 ->
       cell_value (merge_consecutive_cells 1 aaea_sheet) r c' =
       cell_value aaea_sheet r c') /\
    (forall r,
       cell_value (merge_consecutive_cells 1 aaea_sheet) r 1 =
       if covered r added then None else cell_value aaea_sheet r 1) /\
    (forall rg, In rg added ->
       cell_value (merge_consecutive_cells 1 aaea_sheet) (range_start rg) 1 =
         cell_value aaea_sheet (range_start rg) 1 /\
       forall r, range_start rg < r <= range_end rg ->
         cell_value (merge_consecutive_cells 1 aaea_sheet) r 1 = None).
Proof.
  split; [lia|].
  exact (merge_keeps_the_top_and_empties_the_rest 1 aaea_sheet (le_n 1)).
Defined.

Lemma sorted_as_ranges c l :
  StronglySorted before l -> StronglySorted above (map (as_range c) l).
Proof.
  induction 1 as [|x l S IH F]; cbn [map]; constructor; auto.
  rewrite Forall_forall in *. intros rg H. apply in_map_iff in H.
  destruct H as [y [<- Hy]]. exact (F y Hy).
Qed.

(** X13. The ranges a call of [merge_consecutive_cells] records never
    take in the header row and never go below the last row, and they are
    recorded from the top of the sheet to the bottom, each one starting
    below the end of the one before. *)
Theorem merged_ranges_skip_the_header_and_come_in_order c ws :
  exists added,
    merged_cells (merge_consecutive_cells c ws) = merged_cells ws ++ added /\
    Forall (fun rg => 2 <= range_start rg /\ range_end rg <= max_row ws)
           added /\
    StronglySorted above added.
Proof.
  exists (column_ranges ws c). destruct (merge_column c ws) as [A _].
  split; [exact A | split].
  - rewrite Forall_forall. intros rg H. apply column_ranges_spec in H.
    destruct H as [_ [L [T1 [T2 [T3 _]]]]]. lia.
  - unfold column_ranges. apply sorted_as_ranges.
    apply runs_sorted. discriminate.
Qed.

(** ** Merging twice, and merging several columns *)

Lemma value_eq_dec (a b : value) : {a = b} + {a <> b}.
Proof. repeat decide equality. Qed.

Lemma run_up (V : nat -> value) (t : str) : forall r,
  2 <= r -> V r = Some t ->
  exists s, 2 <= s <= r /\ (forall x, s <= x <= r -> V x = Some t) /\
            (s = 2 \/ V (s - 1) <> V s).
Proof.
  induction r as [|r IH]; intros Hr Hv; [lia|].
  destruct (Nat.eq_dec (S r) 2) as [E | E].
  - exists (S r). split; [lia | split; [| left; exact E]].
    intros x Hx. now replace x with (S r) by lia.
  - destruct (value_eq_dec (V r) (Some t)) as [Eq | Ne].
    + destruct (IH ltac:(lia) Eq) as [s [A [B C]]].
      exists s. split; [lia | split; [| exact C]].
      intros x Hx. destruct (Nat.eq_dec x (S r)) as [-> | N]; auto.
      apply B. lia.
    + exists (S r). split; [lia | split].
      * intros x Hx. now replace x with (S r) by lia.
      * right. replace (S r - 1) with r by lia. congruence.
Qed.

Lemma run_down (V : nat -> value) (t : str) hi : forall k r,
  hi = r + k -> V r = Some t ->
  exists e, r <= e <= hi /\ (forall x, r <= x <= e -> V x = Some t) /\
            (e = hi \/ V (e + 1) <> V e).
Proof.
  induction k as [|k IH]; intros r Hh Hv.
  - exists r. split; [lia | split; [| left; lia]].
    intros x Hx. now replace x with r by lia.
  - destruct (value_eq_dec (V (S r)) (Some t)) as [Eq | Ne].
    + destruct (IH (S r) ltac:(lia) Eq) as [e [A [B C]]].
      exists e. split; [lia | split; [| exact C]].
      intros x Hx. destruct (Nat.eq_dec x r) as [-> | N]; auto.
      apply B. lia.
    + exists r. split; [lia | split].
      * intros x Hx. now replace x with r by lia.
      * right. replace (r + 1) with (S r) by lia. congruence.
Qed.

(** Two rows, one under the other, that hold the same text lie in a run
    of at least two rows. *)
Lemma adjacent_in_run (V : nat -> value) hi r (t : str) :
  2 <= r -> r + 1 <= hi -> has_text (Some t) = true ->
  V r = Some t -> V (r + 1) = Some t ->
  exists s e, s <= r /\ r + 1 <= e /\ text_run V 2 hi s e.
Proof.
  intros Hr Hh Ht V1 V2.
  destruct (run_up V t r Hr V1) as [s [A [B C]]].
  destruct (run_down V t hi (hi - (r + 1)) (r + 1) ltac:(lia) V2)
    as [e [D [E F]]].
  exists s, e. split; [lia | split; [lia |]].
  unfold text_run.
  split; [lia | split; [lia | split; [lia | split; [| split]]]].
  - exists t. split; [exact Ht|]. intros x Hx.
    destruct (Nat.le_gt_cases x r); [apply B | apply E]; lia.
  - exact C.
  - exact F.
Qed.

Lemma covered_false r rs :
  covered r rs = false ->
  forall rg, In rg rs -> ~ (range_start rg < r <= range_end rg).
Proof.
  intros H rg I R. assert (covered r rs = true) by (apply covered_in; eauto).
  congruence.
Qed.

(** Once a column is merged, a second scan of it finds no run. *)
Lemma no_runs_after_merge c ws :
  1 <= c -> column_ranges (merge_consecutive_cells c ws) c = [].
Proof.
  intros Hc.
  destruct (column_ranges (merge_consecutive_cells c ws) c) as [|rg l] eqn:E;
    auto.
  exfalso.
  assert (H : In rg (column_ranges (merge_consecutive_cells c ws) c))
    by (rewrite E; now left).
  apply column_ranges_spec in H.
  destruct H as [_ [L [T1 [T2 [T3 [[t [Ht Hr]] _]]]]]].
  destruct (merge_column c ws) as [_ [M _]]. rewrite M in T3.
  set (s := range_start rg) in *. set (e := range_end rg) in *.
  assert (Vs : cell_value ws s c = Some t /\
               covered s (column_ranges ws c) = false).
  { pose proof (Hr s ltac:(lia)) as X.
    rewrite merge_column_cells in X by exact Hc.
    destruct (covered s (column_ranges ws c)); [discriminate | auto]. }
  assert (Vn : cell_value ws (s + 1) c = Some t /\
               covered (s + 1) (column_ranges ws c) = false).
  { pose proof (Hr (s + 1) ltac:(lia)) as X.
    rewrite merge_column_cells in X by exact Hc.
    destruct (covered (s + 1) (column_ranges ws c)); [discriminate | auto]. }
  destruct Vs as [Vs _], Vn as [Vn Cn].
  destruct (adjacent_in_run (fun r => cell_value ws r c) (max_row ws) s t
              T1 ltac:(lia) Ht Vs Vn) as [s0 [e0 [A [B T]]]].
  apply (covered_false _ _ Cn (mkRange c s0 e0)).
  - apply column_ranges_spec. cbn. split; [reflexivity | split; [lia | exact T]].
  - cbn. lia.
Qed.

(** X14. Merging a column a second time changes nothing: the second call
    records no range, and leaves the number of rows and every cell as
    the first call left them. *)
Theorem merging_again_adds_nothing c ws :
  1 <= c ->
  merged_cells (merge_consecutive_cells c (merge_consecutive_cells c ws)) =
    merged_cells (merge_consecutive_cells c ws) /\
  max_row (merge_consecutive_cells c (merge_consecutive_cells c ws)) =
    max_row (merge_consecutive_cells c ws) /\
  forall r c',
    cell_value (merge_consecutive_cells c (merge_consecutive_cells c ws)) r c'
    = cell_value (merge_consecutive_cells c ws) r c'.
Proof.
  intros Hc. set (ws1 := merge_consecutive_cells c ws).
  destruct (merge_column c ws1) as [A [B C]].
  pose proof (no_runs_after_merge c ws Hc) as N. fold ws1 in N.
  split; [| split; [exact B |]].
  - rewrite A, N. apply app_nil_r.
  - intros r c'. destruct (Nat.eq_dec c' c) as [-> | Ne].
    + rewrite merge_column_cells by exact Hc. now rewrite N.
    + now apply C.
Qed.

Lemma merging_again_adds_nothing_witness :
  1 <= 1 /\
  merged_cells (merge_consecutive_cells 1 aaea_sheet) = [mkRange 1 2 3] /\
  merged_cells (merge_consecutive_cells 1
                  (merge_consecutive_cells 1 aaea_sheet)) =
    merged_cells (merge_consecutive_cells 1 aaea_sheet).
Proof.
  split; [lia | split; [vm_compute; reflexivity |]].
  exact (proj1 (merging_again_adds_nothing 1 aaea_sheet (le_n 1))).
Defined.

(** X15. Two different columns are merged independently: the ranges a
    call records in its column are the same whether or not the other
    column was merged before, and the two orders of the calls leave the
    same number of rows and the same value in every cell. *)
Theorem columns_are_merged_independently c c' ws :
  1 <= c -> 1 <= c' -> c <> c' ->
  exists a b,
    merged_cells (merge_consecutive_cells c ws) = merged_cells ws ++ a /\
    merged_cells (merge_consecutive_cells c' ws) = merged_cells ws ++ b /\
    merged_cells (merge_consecutive_cells c' (merge_consecutive_cells c ws)) =
      merged_cells ws ++ a ++ b /\
    merged_cells (merge_consecutive_cells c (merge_consecutive_cells c' ws)) =
      merged_cells ws ++ b ++ a /\
    max_row (merge_consecutive_cells c' (merge_consecutive_cells c ws)) =
      max_row (merge_consecutive_cells c (merge_consecutive_cells c' ws)) /\
    forall r x,
      cell_value (merge_consecutive_cells c' (merge_consecutive_cells c ws))
                 r x =
      cell_value (merge_consecutive_cells c (merge_consecutive_cells c' ws))
                 r x.
Proof.
  intros Hc Hc' Ne. exists (column_ranges ws c), (column_ranges ws c').
  destruct (merge_column c ws) as [A1 [B1 C1]].
  destruct (merge_column c' ws) as [A2 [B2 C2]].
  set (w1 := merge_consecutive_cells c ws) in *.
  set (w2 := merge_consecutive_cells c' ws) in *.
  destruct (merge_column c' w1) as [A3 [B3 C3]].
  destruct (merge_column c w2) as [A4 [B4 C4]].
  assert (E1 : column_ranges w1 c' = column_ranges ws c').
  { apply column_ranges_ext; auto. }
  assert (E2 : column_ranges w2 c = column_ranges ws c).
  { apply column_ranges_ext; auto. }
  split; [exact A1 | split; [exact A2 | split; [| split; [| split]]]].
  - now rewrite A3, A1, E1, app_assoc.
  - now rewrite A4, A2, E2, app_assoc.
  - congruence.
  - intros r x. destruct (Nat.eq_dec x c) as [-> | Nx].
    + rewrite (C3 r c Hc' Ne).
      rewrite (merge_column_cells c w2 r Hc), E2.
      rewrite (C2 r c Hc' Ne). apply merge_column_cells. exact Hc.
    + destruct (Nat.eq_dec x c') as [-> | Nx'].
      * rewrite (C4 r c' Hc Nx).
        rewrite (merge_column_cells c' w1 r Hc'), E1.
        rewrite (C1 r c' Hc Nx). symmetry. apply merge_column_cells.
        exact Hc'.
      * rewrite (C3 r x Hc' Nx'), (C4 r x Hc Nx).
        rewrite (C1 r x Hc Nx), (C2 r x Hc' Nx'). reflexivity.
Qed.

Lemma columns_are_merged_independently_witness :
  1 <= 1 /\ 1 <= 2 /\ 1 <> 2 /\
  merged_cells (merge_consecutive_cells 2
                  (merge_consecutive_cells 1 outline_sheet)) =
    [mkRange 1 2 6; mkRange 2 5 6] /\
  forall r x,
    cell_value (merge_consecutive_cells 2
                  (merge_consecutive_cells 1 outline_sheet)) r x =
    cell_value (merge_consecutive_cells 1
                  (merge_consecutive_cells 2 outline_sheet)) r x.
Proof.
  assert (N : 1 <> 2) by discriminate.
  split; [lia | split; [lia | split; [exact N | split]]].
  - vm_compute. reflexivity.
  - destruct (columns_are_merged_independently 1 2 outline_sheet
                (le_n 1) (le_S 1 1 (le_n 1)) N)
      as [a [b [_ [_ [_ [_ [_ V]]]]]]].
    exact V.
Defined.

(** ** Numerals that are no heading *)

(** Three numerals followed by a third period are no level-3 heading. *)
Lemma level3_dot c1 d1 c2 d2 c3 d3 rest :
  isdecimal c1 = true -> forallb isdecimal d1 = true ->
  isdecimal c2 = true -> forallb isdecimal d2 = true ->
  isdecimal c3 = true -> forallb isdecimal d3 = true ->
  rmatch pattern_level3
         (c1 :: d1 ++ DOT :: c2 :: d2 ++ DOT :: c3 :: d3 ++ DOT :: rest) = None.
Proof.
  intros C1 D1 C2 D2 C3 D3.
  destruct (rmatch pattern_level3 _) as [m|] eqn:H; auto.
  exfalso. apply level3_inv in H.
  destruct H as [u [c [ds [c' [ds' [c'' [ds'' [v
                   [E [F [C [D [C' [D' [C'' [D'' [G _]]]]]]]]]]]]]]]]].
  assert (u = []) by
    (eapply no_lead; [| exact E | exact F | exact C]; cbn;
     now apply digit_not_space).
  subst u. cbn in E.
  injection E as _ E. apply (@span_unique isdecimal) in E; auto with shape.
  destruct E as [_ E]. injection E as _ E.
  apply (@span_unique isdecimal) in E; auto with shape.
  destruct E as [_ E]. injection E as _ E.
  apply (@span_unique isdecimal) in E; auto with shape.
  destruct E as [_ E]. subst v. discriminate.
Qed.

(** Two numerals and a period not followed by a digit are no level-3
    heading. *)
Lemma level3_short c1 d1 c2 d2 rest :
  isdecimal c1 = true -> forallb isdecimal d1 = true ->
  isdecimal c2 = true -> forallb isdecimal d2 = true ->
  stops isdecimal rest ->
  rmatch pattern_level3 (c1 :: d1 ++ DOT :: c2 :: d2 ++ DOT :: rest) = None.
Proof.
  intros C1 D1 C2 D2 S.
  destruct (rmatch pattern_level3 _) as [m|] eqn:H; auto.
  exfalso. apply level3_inv in H.
  destruct H as [u [c [ds [c' [ds' [c'' [ds'' [v
                   [E [F [C [D [C' [D' [C'' _]]]]]]]]]]]]]]].
  assert (u = []) by
    (eapply no_lead; [| exact E | exact F | exact C]; cbn;
     now apply digit_not_space).
  subst u. cbn in E.
  injection E as _ E. apply (@span_unique isdecimal) in E; auto with shape.
  destruct E as [_ E]. injection E as _ E.
  apply (@span_unique isdecimal) in E; auto with shape.
  destruct E as [_ E]. injection E as E. subst rest. cbn in S. congruence.
Qed.

(** A numeral, a period and a digit are no numbered item. *)
Lemma list_item_digit c1 d1 c2 rest :
  isdecimal c1 = true -> forallb isdecimal d1 = true ->
  isdecimal c2 = true ->
  rmatch pattern_list_item (c1 :: d1 ++ DOT :: c2 :: rest) = None.
Proof.
  intros C1 D1 C2.
  destruct (rmatch pattern_list_item _) as [m|] eqn:H; auto.
  exfalso. apply list_item_inv in H.
  destruct H as [u [c [ds [w [v [E [F [C [D W]]]]]]]]].
  assert (u = []) by
    (eapply no_lead; [| exact E | exact F | exact C]; cbn;
     now apply digit_not_space).
  subst u. cbn in E.
  injection E as _ E. apply (@span_unique isdecimal) in E; auto with shape.
  destruct E as [_ E]. injection E as E _. subst w.
  apply digit_not_space in C2. congruence.
Qed.

(** A line whose first character after the indentation is a digit is no
    bullet item. *)
Lemma digit_led_no_bullet raw :
  digit_led (strip raw) -> rmatch pattern_bullet_item raw = None.
Proof.
  intros L. destruct (rmatch pattern_bullet_item raw) as [m|] eqn:H; auto.
  exfalso. apply bullet_inv in H. destruct H as [u [b [rest [E [F B]]]]].
  destruct (glyph_plain b B) as [Sb [Db _]].
  subst raw. rewrite strip_lead in L by now apply blanks_are_spaces.
  destruct (strip_led b rest Sb) as [t' Et]. rewrite Et in L. cbn in L.
  congruence.
Qed.

(** X16. Headings stop at three levels. A line whose trimmed text is a
    numeral of three segments followed by one more period ([1.2.3.4
    Title], [1.2.3. Title]), or a numeral of two segments followed by a
    period and no digit ([1.1. Title]), is no heading and no item: it is
    read as a continuation line, so it writes no row, and with no item
    pending it leaves the state as it was. *)
Theorem numeral_with_one_period_more_is_plain_text raw c1 d1 c2 d2 tail :
  isdecimal c1 = true -> forallb isdecimal d1 = true ->
  isdecimal c2 = true -> forallb isdecimal d2 = true ->
  strip raw = c1 :: d1 ++ DOT :: c2 :: d2 ++ DOT :: tail ->
  (stops isdecimal tail \/
   exists c3 d3 rest,
     tail = c3 :: d3 ++ DOT :: rest /\
     isdecimal c3 = true /\ forallb isdecimal d3 = true) ->
  classify raw = Continuation (strip raw) /\
  forall st,
    parsed_data (loop_body st raw) = parsed_data st /\
    context (loop_body st raw) = context st /\
    (current_list_item_buffer st = None -> loop_body st raw = st).
Proof.
  intros C1 D1 C2 D2 E T.
  assert (K : classify raw = Continuation (strip raw)).
  { unfold classify.
    rewrite (digit_led_no_bullet raw) by (rewrite E; exact C1).
    rewrite E.
    rewrite (level1_dot c1 d1 _ C1 D1).
    rewrite (level2_dot c1 d1 c2 d2 tail C1 D1 C2 D2).
    rewrite (list_item_digit c1 d1 c2 _ C1 D1 C2).
    destruct T as [S | [c3 [d3 [rest [-> [C3 D3]]]]]].
    - now rewrite (level3_short c1 d1 c2 d2 tail C1 D1 C2 D2 S).
    - now rewrite (level3_dot c1 d1 c2 d2 c3 d3 rest C1 D1 C2 D2 C3 D3). }
  split; [exact K|]. intros st. rewrite loop_body_transition, K.
  cbn [transition]. destruct (current_list_item_buffer st) as [it|].
  - split; [reflexivity | split; [reflexivity | discriminate]].
  - split; [reflexivity | split; reflexivity].
Qed.

Lemma numeral_with_one_period_more_is_plain_text_witness :
  classify (lit "1.2.3.4 Deep") = Continuation (lit "1.2.3.4 Deep") /\
  parse_rows (lit "1.2.3.4 Deep") = [].
Proof.
  assert (T : stops isdecimal (lit "3.4 Deep") \/
              exists c3 d3 rest,
                lit "3.4 Deep" = c3 :: d3 ++ DOT :: rest /\
                isdecimal c3 = true /\ forallb isdecimal d3 = true).
  { right. exists 0x33%N, [], (lit "4 Deep"). repeat split. }
  destruct (numeral_with_one_period_more_is_plain_text
              (lit "1.2.3.4 Deep") 0x31%N [] 0x32%N [] (lit "3.4 Deep")
              eq_refl eq_refl eq_refl eq_refl eq_refl T) as [K _].
  split; [exact K | vm_compute; reflexivity].
Defined.

(** ** The cells of the saved sheet *)








(** ** The numeral decides the level *)

Lemma level1_ok c1 d1 v :
  let line := c1 :: d1 ++ v in
  isdecimal c1 = true -> forallb isdecimal d1 = true ->
  gap v -> stops isspace (rev line) -> ~ In NL line ->
  rmatch pattern_level1 line = Some [(1, line)].
Proof.
  intros line C1 D1 G S N.
  unfold rmatch, pattern_level1. cbn [cats].
  rewrite run_cat, run_bol, run_cat.
  apply (@run_star_max cls_s [] line); auto.
  { cbn. now apply digit_not_space. }
  cbn [after]. rewrite run_cat, run_grp, run_cat.
  apply run_plus_max; auto using gap_stops_digit.
  apply (@tail_all line (c1 :: d1)); auto.
  intros prev'. rewrite run_eol_end. now rewrite firstn_whole.
Qed.

Lemma level2_ok c1 d1 c2 d2 v :
  let line := c1 :: d1 ++ DOT :: c2 :: d2 ++ v in
  isdecimal c1 = true -> forallb isdecimal d1 = true ->
  isdecimal c2 = true -> forallb isdecimal d2 = true ->
  gap v -> stops isspace (rev line) -> ~ In NL line ->
  rmatch pattern_level2 line = Some [(1, line)].
Proof.
  intros line C1 D1 C2 D2 G S N.
  unfold rmatch, pattern_level2. cbn [cats].
  rewrite run_cat, run_bol, run_cat.
  apply (@run_star_max cls_s [] line); auto.
  { cbn. now apply digit_not_space. }
  cbn [after]. rewrite run_cat, run_grp, run_cat.
  apply run_plus_max; auto with shape. rewrite run_cat, run_cls_ok; auto.
  rewrite run_cat. apply run_plus_max; auto using gap_stops_digit.
  apply (@tail_all line (c1 :: d1 ++ DOT :: c2 :: d2)); auto.
  - unfold line. now flat.
  - intros prev'. rewrite run_eol_end. now rewrite firstn_whole.
Qed.

(** X18. The numeral at the start of the trimmed line decides the level.
    A line is a level-1 heading exactly when its trimmed text is a run of
    digits followed by nothing or by whitespace: a bare page number, or
    a sentence that starts with a number, is a level-1 heading. It is a
    level-2 heading exactly when the trimmed text is two runs of digits
    joined by a period and followed by nothing or by whitespace. *)
Theorem numeral_decides_the_heading_level pdf_text raw :
  In raw (split NL pdf_text) ->
  ((exists t, classify raw = Heading1 t) <->
   exists c ds v,
     strip raw = c :: ds ++ v /\
     isdecimal c = true /\ forallb isdecimal ds = true /\ gap v) /\
  ((exists t, classify raw = Heading2 t) <->
   exists c1 d1 c2 d2 v,
     strip raw = c1 :: d1 ++ DOT :: c2 :: d2 ++ v /\
     isdecimal c1 = true /\ forallb isdecimal d1 = true /\
     isdecimal c2 = true /\ forallb isdecimal d2 = true /\ gap v).
Proof.
  intros Hin.
  assert (N : ~ In NL (strip raw)).
  { intros HN. apply strip_incl in HN. revert HN. eapply split_no_sep; eauto. }
  pose proof (strip_stops_l raw) as Sl.
  pose proof (strip_stops_r raw) as Sr.
  unfold classify. destruct (strip raw) as [|x l] eqn:L.
  { split; split.
    - intros [t H]. discriminate.
    - intros [c [ds [v [E _]]]]. discriminate.
    - intros [t H]. discriminate.
    - intros [c1 [d1 [c2 [d2 [v [E _]]]]]]. discriminate. }
  split; split.
  - intros [t H].
    destruct (rmatch pattern_level1 (x :: l)) as [m|] eqn:M1.
    + apply level1_inv in M1.
      destruct M1 as [u [c [ds [v [E [F [C [D [G _]]]]]]]]].
      assert (u = []) by exact (no_lead _ u c (ds ++ v) Sl E F C). subst u.
      exists c, ds, v. auto.
    + destruct (rmatch pattern_level2 (x :: l)); [discriminate|].
      destruct (rmatch pattern_level3 (x :: l)); [discriminate|].
      destruct (rmatch pattern_list_item (x :: l)); [discriminate|].
      destruct (rmatch pattern_bullet_item raw); discriminate.
  - intros [c [ds [v [E [C [D G]]]]]]. rewrite E in *.
    rewrite (level1_ok c ds v C D G Sr N). eauto.
  - intros [t H].
    destruct (rmatch pattern_level1 (x :: l)); [discriminate|].
    destruct (rmatch pattern_level2 (x :: l)) as [m|] eqn:M2.
    + apply level2_inv in M2.
      destruct M2 as [u [c1 [d1 [c2 [d2 [v [E [F [C1 [D1 [C2 [D2 [G _]]]]]]]]]]]]].
      assert (u = [])
        by exact (no_lead _ u c1 (d1 ++ DOT :: c2 :: d2 ++ v) Sl E F C1).
      subst u. exists c1, d1, c2, d2, v. auto 10.
    + destruct (rmatch pattern_level3 (x :: l)); [discriminate|].
      destruct (rmatch pattern_list_item (x :: l)); [discriminate|].
      destruct (rmatch pattern_bullet_item raw); discriminate.
  - intros [c1 [d1 [c2 [d2 [v [E [C1 [D1 [C2 [D2 G]]]]]]]]]]. rewrite E in *.
    rewrite (level1_dot c1 d1 _ C1 D1).
    rewrite (level2_ok c1 d1 c2 d2 v C1 D1 C2 D2 G Sr N). eauto.
Qed.

Lemma numeral_decides_the_heading_level_witness :
  In (lit "2024") (split NL (lit "2024")) /\
  exists t, classify (lit "2024") = Heading1 t.
Proof.
  assert (Hin : In (lit "2024") (split NL (lit "2024"))) by (now left).
  split; [exact Hin|].
  destruct (numeral_decides_the_heading_level (lit "2024") (lit "2024") Hin)
    as [[_ F] _].
  apply F. exists 0x32%N, (lit "024"), []. repeat split.
Defined.

(** ** Nesting of the merged ranges *)

Lemma chained_snoc rows x :
  chained rows -> (forall pre r, rows = pre ++ [r] -> follows r x) ->
  chained (rows ++ [x]).
Proof.
  intros C L pre r r' post E.
  destruct (exists_last (l := r' :: post)) as [post' [y Ey]]; [discriminate|].
  destruct post' as [|z post'].
  - cbn in Ey. injection Ey as -> ->.
    change (pre ++ r :: [y]) with (pre ++ [r] ++ [y]) in E.
    rewrite app_assoc in E. apply app_inj_tail in E. destruct E as [E ->].
    exact (L pre r E).
  - cbn in Ey. injection Ey as -> ->.
    change (pre ++ r :: z :: post' ++ [y])
      with (pre ++ (r :: z :: post') ++ [y]) in E.
    rewrite app_assoc in E. apply app_inj_tail in E. destruct E as [E _].
    exact (C pre r z post' E).
Qed.

Lemma follows_same r r' :
  (level1 r', level2 r', level3 r') = (level1 r, level2 r, level3 r) ->
  follows r r'.
Proof. intros E. injection E as E1 E2 E3. split; auto. Qed.

(** Writing the pending item keeps the rows chained and the last row in
    step with the headings. *)
Lemma append_buffered_chained st :
  chained (parsed_data st) -> tracks (parsed_data st) st ->
  chained (append_buffered st) /\ tracks (append_buffered st) st.
Proof.
  intros C T. unfold append_buffered.
  destruct (current_list_item_buffer st) as [it|]; auto. split.
  - apply chained_snoc; auto. intros pre r E. apply follows_same.
    cbn. symmetry. exact (T pre r E).
  - intros pre r E. apply app_inj_tail in E. destruct E as [_ <-].
    reflexivity.
Qed.

Lemma transition_chained st c :
  chained (parsed_data st) -> tracks (parsed_data st) st ->
  chained (parsed_data (transition st c)) /\
  tracks (parsed_data (transition st c)) (transition st c).
Proof.
  intros C T. destruct (append_buffered_chained st C T) as [C' T'].
  destruct c; cbn [transition finalize parsed_data]; auto.
  - split.
    + apply chained_snoc; auto. intros pre r E. split; cbn; congruence.
    + intros pre r E. apply app_inj_tail in E. destruct E as [_ <-].
      reflexivity.
  - split.
    + apply chained_snoc; auto. intros pre r E.
      specialize (T' pre r E). unfold context in T'. injection T' as E1 E2 E3.
      split; cbn; [auto | congruence].
    + intros pre r E. apply app_inj_tail in E. destruct E as [_ <-].
      reflexivity.
  - split.
    + apply chained_snoc; auto. intros pre r E.
      specialize (T' pre r E). unfold context in T'. injection T' as E1 E2 E3.
      split; cbn; auto.
    + intros pre r E. apply app_inj_tail in E. destruct E as [_ <-].
      reflexivity.
  - destruct (current_list_item_buffer st); auto.
Qed.

Lemma run_lines_chained lines : forall st,
  chained (parsed_data st) -> tracks (parsed_data st) st ->
  chained (parsed_data (run_lines st lines)) /\
  tracks (parsed_data (run_lines st lines)) (run_lines st lines).
Proof.
  induction lines as [|l lines IH]; intros st C T; [auto|].
  rewrite run_lines_cons, loop_body_transition.
  destruct (transition_chained st (classify l) C T) as [C' T'].
  now apply IH.
Qed.

Lemma parse_rows_chained pdf_text : chained (parse_rows pdf_text).
Proof.
  unfold parse_rows.
  destruct (run_lines_chained (split NL pdf_text) initial) as [C T].
  - intros [|a pre] r r' post E; discriminate.
  - intros [|a pre] r E; discriminate.
  - now apply append_buffered_chained.
Qed.

(** The cells of a data row of the filled sheet. *)
Lemma filled_row_cells pdf_text ws i r :
  filled_sheet pdf_text = Returned ws ->
  nth_error (parse_rows pdf_text) i = Some r ->
  cell_value ws (2 + i) 1 = Some (firstn max_length (level1 r)) /\
  cell_value ws (2 + i) 2 = Some (firstn max_length (level2 r)) /\
  cell_value ws (2 + i) 3 = Some (firstn max_length (level3 r)).
Proof.
  intros F Hi. pose proof (filled_sheet_cells pdf_text ws F) as Cs.
  unfold cell_value. cbn [Nat.add]. rewrite Cs. cbn [nth_error].
  rewrite nth_error_map, Hi. cbn [option_map]. unfold sheet_row, row_values.
  cbn [map nth_error]. auto.
Qed.

Lemma filled_max_row pdf_text ws :
  filled_sheet pdf_text = Returned ws ->
  max_row ws = 1 + length (parse_rows pdf_text).
Proof.
  intros F. unfold max_row. rewrite (filled_sheet_cells pdf_text ws F).
  cbn [length]. rewrite length_map. lia.
Qed.

Lemma has_text_cut (v : str) :
  has_text (Some (firstn max_length v)) = true -> v <> [].
Proof.
  intros H E. subst v. revert H. generalize max_length.
  intros [|n]; discriminate.
Qed.

Lemma some_inj {A} (a b : A) : Some a = Some b -> a = b.
Proof. intros H. now injection H. Qed.

(** Two rows of the sheet, one under the other, as records. *)
Lemma rows_in_step pdf_text ws r :
  filled_sheet pdf_text = Returned ws ->
  3 <= r <= max_row ws ->
  exists a b,
    nth_error (parse_rows pdf_text) (r - 3) = Some a /\
    nth_error (parse_rows pdf_text) (r - 2) = Some b /\
    follows a b.
Proof.
  intros F R. rewrite (filled_max_row pdf_text ws F) in R.
  destruct (nth_error (parse_rows pdf_text) (r - 3)) as [a|] eqn:Ea.
  2:{ apply nth_error_None in Ea. lia. }
  destruct (nth_error (parse_rows pdf_text) (r - 2)) as [b|] eqn:Eb.
  2:{ apply nth_error_None in Eb. lia. }
  exists a, b. split; [reflexivity | split; [reflexivity|]].
  destruct (nth_error_split _ _ Ea) as [pre [post [E L]]].
  assert (P : post = b :: tl post).
  { rewrite E in Eb. rewrite nth_error_app2 in Eb by lia.
    replace (r - 2 - length pre) with 1 in Eb by lia.
    destruct post as [|y post]; [discriminate|]. cbn in Eb.
    now injection Eb as ->. }
  rewrite P in E. exact (parse_rows_chained pdf_text pre a b (tl post) E).
Qed.

(** Over the rows of a run of column 2 or 3, the columns to its left
    hold one value. *)
Lemma parents_constant pdf_text ws c s e :
  filled_sheet pdf_text = Returned ws ->
  c = 2 \/ c = 3 ->
  text_run (fun r => cell_value ws r c) 2 (max_row ws) s e ->
  forall k, s + k <= e ->
    cell_value ws (s + k) 1 = cell_value ws s 1 /\
    (c = 3 -> cell_value ws (s + k) 2 = cell_value ws s 2).
Proof.
  intros F Hc [T1 [T2 [T3 [[t [Ht Hr]] _]]]].
  induction k as [|k IH]; intros Hk.
  - rewrite Nat.add_0_r. auto.
  - destruct IH as [I1 I2]; [lia|].
    destruct (rows_in_step pdf_text ws (s + S k) F ltac:(lia))
      as [a [b [Ea [Eb [F2 F3]]]]].
    replace (s + S k - 3) with (s + k - 2) in Ea by lia.
    destruct (filled_row_cells pdf_text ws _ a F Ea) as [A1 [A2 A3]].
    destruct (filled_row_cells pdf_text ws _ b F Eb) as [B1 [B2 B3]].
    replace (2 + (s + k - 2)) with (s + k) in * by lia.
    replace (2 + (s + S k - 2)) with (s + S k) in * by lia.
    pose proof (Hr (s + S k) ltac:(lia)) as V. cbv beta in V.
    destruct Hc as [-> | ->].
    + rewrite B2 in V. apply some_inj in V. rewrite <- V in Ht.
      apply has_text_cut in Ht. rewrite <- I1, B1, A1, (F2 Ht).
      split; [reflexivity | discriminate].
    + rewrite B3 in V. apply some_inj in V. rewrite <- V in Ht.
      apply has_text_cut in Ht. destruct (F3 Ht) as [E1 E2].
      rewrite <- I1, B1, A1, E1. split; [reflexivity|]. intros _.
      rewrite <- (I2 eq_refl), B2, A2, E2. reflexivity.
Qed.

(** Rows that hold one text lie in one run of the column. *)
Lemma enclosing_run (V : nat -> value) hi s e (t : str) :
  2 <= s -> s < e -> e <= hi -> has_text (Some t) = true ->
  (forall r, s <= r <= e -> V r = Some t) ->
  exists s0 e0, s0 <= s /\ e <= e0 /\ text_run V 2 hi s0 e0.
Proof.
  intros Hs L Hh Ht Hr.
  destruct (adjacent_in_run V hi s t Hs ltac:(lia) Ht
              (Hr s ltac:(lia)) (Hr (s + 1) ltac:(lia)))
    as [s0 [e0 [A [B T]]]].
  exists s0, e0. split; [exact A | split; [| exact T]].
  destruct (Nat.le_gt_cases e e0) as [|G]; auto. exfalso.
  destruct T as [_ [_ [T3 [_ [_ [T6 | T6]]]]]]; [lia|].
  apply T6. rewrite (Hr (e0 + 1)), (Hr e0) by lia. reflexivity.
Qed.

Lemma outer_range ws p s e :
  1 <= p <= 3 -> merged_cells ws = [] ->
  2 <= s -> s < e -> e <= max_row ws ->
  has_text (cell_value ws s p) = true ->
  (forall r, s <= r <= e -> cell_value ws r p = cell_value ws s p) ->
  exists outer,
    In outer (merged_cells (merge_headings ws)) /\ range_col outer = p /\
    range_start outer <= s /\ e <= range_end outer.
Proof.
  intros Hp M Hs L He Ht Hr.
  destruct (cell_value ws s p) as [t|] eqn:Vs; [|discriminate].
  destruct (enclosing_run (fun r => cell_value ws r p) (max_row ws) s e t
              Hs L He Ht Hr) as [s0 [e0 [A [B T]]]].
  exists (mkRange p s0 e0). cbn [range_col range_start range_end].
  split; [| split; [reflexivity | split; [exact A | exact B]]].
  rewrite merge_headings_ranges, M. cbn [app].
  assert (I : In (mkRange p s0 e0) (column_ranges ws p)).
  { apply column_ranges_spec. cbn [range_col range_start range_end].
    split; [reflexivity | split; [lia | exact T]]. }
  rewrite !in_app_iff.
  destruct (Nat.eq_dec p 1) as [-> | N1]; [now left|].
  destruct (Nat.eq_dec p 2) as [-> | N2]; [right; now left|].
  replace p with 3 in * by lia. right. now right.
Qed.

(** X19. The merged ranges are nested like the headings. Over the rows
    of a range merged in the level-2 column, the level-1 column of the
    filled sheet holds one value, and when that value is text the range
    lies inside a range merged in the level-1 column; over the rows of a
    range merged in the level-3 column, the level-1 and the level-2
    columns each hold one value, and the range lies inside a merged
    range of each of these columns whose value is text. No merged range
    straddles two ranges of a column to its left. *)
Theorem merged_ranges_are_nested pdf_text ws rg :
  filled_sheet pdf_text = Returned ws ->
  In rg (merged_cells (merge_headings ws)) ->
  range_col rg = 2 \/ range_col rg = 3 ->
  (forall r, range_start rg <= r <= range_end rg ->
     cell_value ws r 1 = cell_value ws (range_start rg) 1 /\
     (range_col rg = 3 ->
      cell_value ws r 2 = cell_value ws (range_start rg) 2)) /\
  (has_text (cell_value ws (range_start rg) 1) = true ->
   exists outer,
     In outer (merged_cells (merge_headings ws)) /\ range_col outer = 1 /\
     range_start outer <= range_start rg /\
     range_end rg <= range_end outer) /\
  (range_col rg = 3 ->
   has_text (cell_value ws (range_start rg) 2) = true ->
   exists outer,
     In outer (merged_cells (merge_headings ws)) /\ range_col outer = 2 /\
     range_start outer <= range_start rg /\
     range_end rg <= range_end outer).
Proof.
  intros F I Hc. destruct (filled_sheet_ok pdf_text ws F) as [M _].
  rewrite merge_headings_ranges, M in I. cbn [app] in I.
  apply heading_ranges_in in I. destruct I as [_ I].
  apply column_ranges_spec in I. destruct I as [_ [L T]].
  pose proof T as [T1 [_ [T3 _]]].
  assert (P : forall r, range_start rg <= r <= range_end rg ->
     cell_value ws r 1 = cell_value ws (range_start rg) 1 /\
     (range_col rg = 3 ->
      cell_value ws r 2 = cell_value ws (range_start rg) 2)).
  { intros r R.
    pose proof (parents_constant pdf_text ws (range_col rg) _ _ F Hc T
                  (r - range_start rg) ltac:(lia)) as Q.
    replace (range_start rg + (r - range_start rg)) with r in Q by lia.
    exact Q. }
  split; [exact P | split].
  - intros Ht. apply outer_range; auto; try lia.
    intros r R. exact (proj1 (P r R)).
  - intros C3 Ht. apply outer_range; auto; try lia.
    intros r R. exact (proj2 (P r R) C3).
Qed.

Lemma merged_ranges_are_nested_witness :
  filled_sheet outline_text = Returned outline_sheet /\
  In (mkRange 2 5 6) (merged_cells (merge_headings outline_sheet)) /\
  (forall r, 5 <= r <= 6 ->
     cell_value outline_sheet r 1 = cell_value outline_sheet 5 1) /\
  exists outer,
    In outer (merged_cells (merge_headings outline_sheet)) /\
    range_col outer = 1 /\ range_start outer <= 5 /\ 6 <= range_end outer.
Proof.
  assert (H : filled_sheet outline_text = Returned outline_sheet)
    by (vm_compute; reflexivity).
  assert (M : merged_cells (merge_headings outline_sheet) =
              [mkRange 1 2 6; mkRange 2 5 6]) by (vm_compute; reflexivity).
  assert (I : In (mkRange 2 5 6) (merged_cells (merge_headings outline_sheet)))
    by (rewrite M; right; left; reflexivity).
  assert (T : has_text (cell_value outline_sheet 5 1) = true)
    by (vm_compute; reflexivity).
  destruct (merged_ranges_are_nested outline_text outline_sheet
              (mkRange 2 5 6) H I (or_introl eq_refl)) as [P [Q _]].
  split; [exact H | split; [exact I | split]].
  - intros r R. exact (proj1 (P r R)).
  - exact (Q T).
Defined.

(** ** Values longer than a cell *)

Lemma forallb_repeat (p : char -> bool) d n :
  p d = true -> forallb p (repeat d n) = true.
Proof. intros H. induction n as [|n IH]; cbn; auto. now rewrite H, IH. Qed.

Lemma firstn_repeat (d : char) rest : forall n,
  firstn n (repeat d n ++ rest) = repeat d n.
Proof. induction n as [|n IH]; cbn; auto. now rewrite IH. Qed.

Lemma split_line sep a b :
  ~ In sep a -> split sep (a ++ sep :: b) = a :: split sep b.
Proof.
  induction a as [|c a IH]; intros H; cbn [app split].
  - now rewrite N.eqb_refl.
  - destruct (N.eqb_spec c sep) as [-> | Hne].
    + exfalso. apply H. now left.
    + rewrite IH by (intros Hin; apply H; now right). reflexivity.
Qed.

Lemma numeral_line_plain (d : char) n (c x : char) :
  c <> x -> x <> d -> x <> SPACE -> ~ In x (repeat d n ++ [SPACE; c]).
Proof.
  intros Hc H1 Hs Hin. apply in_app_or in Hin. destruct Hin as [Hin | Hin].
  - apply repeat_spec in Hin. congruence.
  - destruct Hin as [E | [E | []]]; congruence.
Qed.

(** A numeral of any length, a space and a character is a level-1
    heading, whole. *)
Lemma numeral_line_heading (d : char) n (c : char) :
  isdecimal d = true -> 0 < n -> isspace c = false -> c <> NL ->
  classify (repeat d n ++ [SPACE; c]) = Heading1 (repeat d n ++ [SPACE; c]).
Proof.
  intros Hd Hn Hc Hnl. destruct n as [|n]; [lia|]. cbn [repeat app].
  assert (Dn : d <> NL) by (intros ->; discriminate).
  assert (Ds : isspace d = false) by now apply digit_not_space.
  assert (N : ~ In NL (d :: repeat d n ++ [SPACE; c])).
  { apply (numeral_line_plain d (Datatypes.S n) c NL); auto; discriminate. }
  assert (R : stops isspace (rev (d :: repeat d n ++ [SPACE; c]))).
  { cbn [rev]. rewrite rev_app_distr. cbn. exact Hc. }
  assert (St : strip (d :: repeat d n ++ [SPACE; c])
               = d :: repeat d n ++ [SPACE; c]).
  { apply strip_fixed; [exact Ds | exact R]. }
  unfold classify. rewrite St.
  pose proof (level1_ok d (repeat d n) [SPACE; c] Hd
                (forallb_repeat isdecimal d n Hd) eq_refl R N) as L.
  cbv zeta in L. rewrite L. reflexivity.
Qed.

Lemma two_numeral_lines (d : char) n (c c' : char) :
  isdecimal d = true -> 0 < n ->
  isspace c = false -> c <> NL -> isspace c' = false -> c' <> NL ->
  parse_rows ((repeat d n ++ [SPACE; c]) ++ [NL] ++ (repeat d n ++ [SPACE; c']))
  = [mkRow (repeat d n ++ [SPACE; c]) [] [] [] [];
     mkRow (repeat d n ++ [SPACE; c']) [] [] [] []].
Proof.
  intros Hd Hn Hc Hnl Hc' Hnl'. unfold parse_rows. cbn [app].
  assert (Dn : NL <> d) by (intros <-; discriminate).
  rewrite split_line by (apply numeral_line_plain; auto; discriminate).
  rewrite split_none by (apply numeral_line_plain; auto; discriminate).
  cbn [run_lines fold_left]. rewrite !loop_body_transition.
  rewrite (numeral_line_heading d n c Hd Hn Hc Hnl).
  rewrite (numeral_line_heading d n c' Hd Hn Hc' Hnl').
  reflexivity.
Qed.

Lemma has_text_numeral (d : char) n :
  isdecimal d = true -> 0 < n -> has_text (Some (repeat d n)) = true.
Proof.
  intros Hd Hn. apply has_text_iff. destruct n as [|n]; [lia|]. cbn [repeat].
  split; [discriminate|].
  destruct (strip_led d (repeat d n) (digit_not_space d Hd)) as [t' E].
  rewrite E. discriminate.
Qed.

Lemma returned_inj {A} (a b : A) : Returned a = Returned b -> a = b.
Proof. intros H. now injection H. Qed.

(** Two records, and no more, whose level-1 values are cut to one and
    the same text: rows 2 and 3 of column 1 are merged. *)
Lemma equal_cuts_are_merged pdf_text a b p :
  parse_rows pdf_text = [mkRow a [] [] [] []; mkRow b [] [] [] []] ->
  clean pdf_text ->
  firstn max_length a = p -> firstn max_length b = p ->
  has_text (Some p) = true ->
  exists ws,
    parse_text_to_excel_with_merging pdf_text = Returned ws /\
    In (mkRange 1 2 3) (merged_cells ws).
Proof.
  intros P C Ea Eb Ht.
  destruct (storable_rows_are_written pdf_text) as [ws W].
  { pose proof (parse_rows_clean pdf_text C) as F.
    rewrite Forall_forall in F |- *. intros r Hr.
    unfold row_storable. rewrite forallb_forall. intros v Hv.
    apply clean_storable. exact (F r Hr v Hv). }
  exists ws. split; [exact W|].
  unfold parse_text_to_excel_with_merging in W.
  destruct (filled_sheet pdf_text) as [ws0|] eqn:F; [|discriminate].
  cbn [bind] in W. apply returned_inj in W. subst ws.
  destruct (filled_sheet_ok pdf_text ws0 F) as [M _].
  rewrite merge_headings_ranges, M. cbn [app]. apply in_or_app. left.
  apply column_ranges_spec. cbn [range_col range_start range_end].
  split; [reflexivity | split; [lia|]].
  pose proof (filled_max_row pdf_text ws0 F) as X. rewrite P in X.
  cbn [length Nat.add] in X.
  destruct (filled_row_cells pdf_text ws0 0 (mkRow a [] [] [] []) F)
    as [A _]; [now rewrite P|].
  destruct (filled_row_cells pdf_text ws0 1 (mkRow b [] [] [] []) F)
    as [B _]; [now rewrite P|].
  cbn [level1 Nat.add] in A, B. rewrite Ea in A. rewrite Eb in B.
  unfold text_run. rewrite X.
  split; [lia | split; [lia | split; [lia | split; [| split; now left]]]].
  exists p. split; [exact Ht|]. intros r R.
  assert (Hr : r = 2 \/ r = 3) by lia. destruct Hr as [-> | ->]; assumption.
Qed.

Lemma long_text_clean : clean long_text.
Proof.
  unfold long_text, long_heading. intros x Hx.
  assert (Hc : x = 0x31%N \/ x = SPACE \/ x = 0x61%N \/ x = NL
               \/ x = 0x62%N).
  { apply in_app_or in Hx. destruct Hx as [Hx | Hx].
    - apply in_app_or in Hx. destruct Hx as [Hx | Hx].
      + apply repeat_spec in Hx. now left.
      + destruct Hx as [<- | [<- | []]]; [right; now left |].
        right. right. now left.
    - cbn [app] in Hx. destruct Hx as [<- | Hx].
      + right. right. right. now left.
      + apply in_app_or in Hx. destruct Hx as [Hx | Hx].
        * apply repeat_spec in Hx. now left.
        * destruct Hx as [<- | [<- | []]]; [right; now left |].
          right. right. right. now right. }
  destruct Hc as [-> | [-> | [-> | [-> | ->]]]]; reflexivity.
Qed.

(** C6, as stated: the ranges merged are the runs of identical values,
    for every record sequence. The text [long_text] gives two records
    whose level-1 values differ in their last character; a cell keeps
    the first 32767 characters only, which the two values share, so the
    scan finds one text in rows 2 and 3 and merges them. *)
Lemma values_equal_up_to_the_cut_are_merged :
  parse_rows long_text =
    [mkRow (long_heading 0x61%N) [] [] [] [];
     mkRow (long_heading 0x62%N) [] [] [] []] /\
  long_heading 0x61%N <> long_heading 0x62%N /\
  firstn max_length (long_heading 0x61%N) =
    firstn max_length (long_heading 0x62%N) /\
  exists ws,
    parse_text_to_excel_with_merging long_text = Returned ws /\
    In (mkRange 1 2 3) (merged_cells ws).
Proof.
  assert (A : (0x61%N : char) <> NL) by discriminate.
  assert (B : (0x62%N : char) <> NL) by discriminate.
  pose proof (two_numeral_lines 0x31%N max_length 0x61%N 0x62%N eq_refl
                max_length_pos eq_refl A eq_refl B) as P.
  pose proof (firstn_repeat 0x31%N [SPACE; 0x61%N] max_length) as Ea.
  pose proof (firstn_repeat 0x31%N [SPACE; 0x62%N] max_length) as Eb.
  split; [exact P | split; [| split]].
  - unfold long_heading. intros E. apply app_inv_head in E.
    apply (f_equal (fun l => nth 1 l 0%N)) in E. cbn [nth] in E.
    revert E. apply N.eqb_neq. reflexivity.
  - exact (eq_trans Ea (eq_sym Eb)).
  - exact (equal_cuts_are_merged long_text (long_heading 0x61%N)
             (long_heading 0x62%N) (@repeat char 0x31%N max_length)
             P long_text_clean Ea Eb
             (has_text_numeral 0x31%N max_length eq_refl max_length_pos)).
Qed.
